(** * Ui::Text::String: layout, selection and extraction (ui/text/text.cpp)

    A shallow embedding of the parts of [Ui::Text::String] that decide
    the natural size, the line breaking, the selection adjustment, the
    selection-scoped extraction and the trailing skip block, followed by
    the properties proved about them.

    Conventions.
    - [int] and the raw value of a [QFixed] are unbounded [Z]: the
      metrics of blocks and styles and their sums are taken to stay in
      range. The one exception is the width that a caller passes to
      [countWidth], [countHeight] and [enumerateLines], which can be any
      [int]: there [QFixed(width)], the product [width * 64] in [int],
      is written with its 32-bit wrap-around.
    - [uint16] values ([TextSelection], block positions) are [Z] in
      [0, 65536); the one place where the source can leave that range,
      [++to], is written with its wrap-around.
    - A [QChar] is its UTF-16 code unit, a [QString] a list of them.
    - A violated [Expects] is fatal in the source; it is the outcome
      [ExpectsViolated] here. *)

From Stdlib Require Import String Ascii.
From Stdlib Require Import ZArith List Bool Lia Arith PeanoNat.
From Stdlib Require Import Permutation Sorted.
Import ListNotations.
Open Scope Z_scope.

Set Implicit Arguments.

(** ** Outcomes of code that can hit a fatal precondition *)

Inductive Outcome (A : Type) : Type :=
| Done (a : A)
| ExpectsViolated
| OutOfFuel.

Arguments Done {A} a.
Arguments ExpectsViolated {A}.
Arguments OutOfFuel {A}.

Definition obind {A B : Type} (m : Outcome A) (k : A -> Outcome B) : Outcome B :=
  match m with
  | Done a => k a
  | ExpectsViolated => ExpectsViolated
  | OutOfFuel => OutOfFuel
  end.

Notation "x <- m ;; k" := (obind m (fun x => k))
  (at level 61, m at next level, right associativity).

(** ** QFixed: 26.6 fixed point (Qt's qfixed_p.h) *)

(** The raw value, in 1/64 of a pixel. *)
Definition QFixed := Z.

(** [QFixed(int i) : val(i * 64)]. *)
Definition QFixed_ofInt (i : Z) : QFixed := i * 64.

(** [ceil()] is [(val + 63) & -64]. *)
Definition QFixed_ceil (v : QFixed) : QFixed := Z.land (v + 63) (-64).

(** [toInt()] is [((val + 32) & -64) >> 6]. *)
Definition QFixed_toInt (v : QFixed) : Z := Z.shiftr (Z.land (v + 32) (-64)) 6.

(** What a 32-bit [int] holds of a value: two's complement
    wrap-around. *)
Definition int32 (z : Z) : Z := (z + 2147483648) mod 4294967296 - 2147483648.

(** [QFixed(int i)] for a width that a caller passes in: the product
    [i * 64] is computed in [int], and it wraps for an [i] outside
    [-33554432, 33554431]. *)
Definition QFixed_ofInt32 (i : Z) : QFixed := int32 (i * 64).

(** ** Characters and strings *)

Definition QChar := Z.
Definition QString := list QChar.

Definition LineFeed : QChar := 10.
Definition Space : QChar := 32.

(** [QString] of an ASCII literal. *)
Fixpoint qstr (s : String.string) : QString :=
  match s with
  | String.EmptyString => []
  | String.String c r => Z.of_N (Ascii.N_of_ascii c) :: qstr r
  end.

Definition size (s : QString) : Z := Z.of_nat (List.length s).

(** [QString::at(i)]; the source never reads out of range on the paths
    modelled, the default is the null character. *)
Definition at_ (s : QString) (i : Z) : QChar := nth (Z.to_nat i) s 0.

(** [QString::resize(n)] as it is used here: truncation. *)
Definition resize (s : QString) (n : Z) : QString := firstn (Z.to_nat n) s.

(** [base::StringViewMid(text, from, length)]. *)
Definition StringViewMid (s : QString) (from len : Z) : QString :=
  firstn (Z.to_nat len) (skipn (Z.to_nat from) s).

Definition uint16 (z : Z) : Z := z mod 65536.

(** ** Styles and paragraph framing *)

Record QMargins := mkMargins {
  m_left : Z; m_top : Z; m_right : Z; m_bottom : Z
}.

Definition noMargins : QMargins := mkMargins 0 0 0 0.

Definition margins_add (a b : QMargins) : QMargins :=
  mkMargins (m_left a + m_left b) (m_top a + m_top b)
            (m_right a + m_right b) (m_bottom a + m_bottom b).

Definition setTop (m : QMargins) (v : Z) : QMargins :=
  mkMargins (m_left m) v (m_right m) (m_bottom m).

Record ParagraphStyle := mkParagraphStyle {
  padding : QMargins;
  verticalSkip : Z;
  header : Z
}.

(** [font_height] stands for what [CountBlockHeight] gives a block that
    is not a skip block (the larger of the style's line height and font
    height). *)
Record TextStyle := mkTextStyle {
  st_pre : ParagraphStyle;
  st_blockquote : ParagraphStyle;
  font_height : Z
}.

Record ParagraphDetails := mkParagraphDetails {
  pd_pre : bool
}.

(** ** Blocks *)

Module TextBlockType.
Inductive t := Newline | Text | Emoji | CustomEmoji | Skip.

Definition eqb (a b : t) : bool :=
  match a, b with
  | Newline, Newline | Text, Text | Emoji, Emoji
  | CustomEmoji, CustomEmoji | Skip, Skip => true
  | _, _ => false
  end.
End TextBlockType.

(** Modelled from the spec: the [TextBlockFlag] enumerators are declared
    in the block header, which is not part of this file; they are
    distinct single bits of the flag set. *)
Module TextBlockFlag.
Definition Bold : Z := 1.
Definition Italic : Z := 2.
Definition Underline : Z := 4.
Definition StrikeOut : Z := 8.
Definition Tilde : Z := 16.
Definition Semibold : Z := 32.
Definition Code : Z := 64.
Definition Pre : Z := 128.
Definition Spoiler : Z := 256.
Definition Blockquote : Z := 512.
End TextBlockFlag.

Definition hasFlag (flags flag : Z) : bool := negb (Z.land flags flag =? 0).

(** [IsMono(flags)]: code or pre. *)
Definition IsMono (flags : Z) : bool :=
  negb (Z.land flags (Z.lor TextBlockFlag.Pre TextBlockFlag.Code) =? 0).

(** A word of a text block: a negative [w_width] marks a forced
    sub-chunk that does not end its word. *)
Record Word := mkWord {
  w_width : QFixed;
  w_rbearing : QFixed;
  w_rpadding : QFixed
}.

(** One record for the five block classes; a field that a class does not
    have is ignored for it. [b_height] is the measured height that
    [CountBlockHeight] returns for the block. *)
Record Block := mkBlock {
  b_type : TextBlockType.t;
  b_position : Z;
  b_flags : Z;
  b_linkIndex : Z;
  b_width : QFixed;
  b_rbearing : QFixed;
  b_rpadding : QFixed;
  b_height : Z;
  b_paragraphIndex : Z;
  b_words : list Word;
  b_entityData : QString
}.

(** Modelled from the spec: [CountBlockHeight] is declared outside this
    file; every run carries its measured height. *)
Definition CountBlockHeight (b : Block) : Z := b_height b.

(** Modelled from the spec: [Block::Newline(font, text, from, length,
    flags, linkIndex, paragraphIndex)], a hard break of zero width. *)
Definition Block_Newline (st : TextStyle) (from : Z) (flags lnk pindex : Z) : Block :=
  mkBlock TextBlockType.Newline from flags lnk 0 0 0 (font_height st) pindex [] [].

(** Modelled from the spec: [Block::Skip(font, text, from, width, height,
    flags, linkIndex)], a spacer of the given pixel size. *)
Definition Block_Skip (from : Z) (w h : Z) (flags lnk : Z) : Block :=
  mkBlock TextBlockType.Skip from flags lnk (QFixed_ofInt w) 0 0 h 0 [] [].

(** ** Entities and click handlers *)

(** Modelled from the spec: the [EntityType] enumerators are declared
    with the entity class, outside this file. *)
Module EntityType.
Inductive t :=
| Invalid | Url | CustomUrl | Email | Hashtag | Cashtag | Mention
| MentionName | CustomEmoji | BotCommand | MediaTimestamp
| Bold | Semibold | Italic | Underline | StrikeOut | Code | Pre
| Blockquote | Spoiler.

Definition eqb (a b : t) : bool :=
  match a, b with
  | Invalid, Invalid | Url, Url | CustomUrl, CustomUrl | Email, Email
  | Hashtag, Hashtag | Cashtag, Cashtag | Mention, Mention
  | MentionName, MentionName | CustomEmoji, CustomEmoji
  | BotCommand, BotCommand | MediaTimestamp, MediaTimestamp
  | Bold, Bold | Semibold, Semibold | Italic, Italic
  | Underline, Underline | StrikeOut, StrikeOut | Code, Code | Pre, Pre
  | Blockquote, Blockquote | Spoiler, Spoiler => true
  | _, _ => false
  end.
End EntityType.

Record EntityInText := mkEntity {
  e_type : EntityType.t;
  e_offset : Z;
  e_length : Z;
  e_data : QString
}.

(** What [ClickHandler::getTextEntity()] returns for a handler. *)
Record ClickHandler := mkHandler {
  h_type : EntityType.t;
  h_data : QString
}.

Record ExtendedData := mkExtended {
  links : list (option ClickHandler);
  paragraphs : list ParagraphDetails
}.

(** ** The string *)

Record String := mkString {
  _st : TextStyle;
  _text : QString;
  _blocks : list Block;
  _extended : option ExtendedData;
  _minResizeWidth : Z;
  _maxWidth : Z;
  _minHeight : Z;
  _startParagraphIndex : Z;
  _endsWithParagraphDetails : bool;
  _skipBlockAddedNewline : bool
}.

Record TextSelection := mkSel { from : Z; to : Z }.

Definition sel_empty (s : TextSelection) : bool := from s =? to s.

(** [AllTextSelection = { 0, 0xFFFF }]. *)
Definition AllTextSelection : TextSelection := mkSel 0 65535.

(** ** Paragraph lookup *)

(** [paragraphByIndex]: [Expects(!index || (_extended && index <=
    paragraphs.size()))], then the details of a framed paragraph or
    [nullptr] for index 0. *)
Definition paragraphByIndex (s : String) (index : Z)
  : Outcome (option ParagraphDetails) :=
  if index =? 0 then Done None
  else match _extended s with
       | None => ExpectsViolated
       | Some ext =>
           if index <=? Z.of_nat (List.length (paragraphs ext)) then
             match nth_error (paragraphs ext) (Z.to_nat (index - 1)) with
             | Some pd => Done (Some pd)
             | None => ExpectsViolated
             end
           else ExpectsViolated
       end.

(** [paragraphIndex(block)]: the index carried by a newline block, or
    the start index for [nullptr]. *)
Definition paragraphIndex (s : String) (block : option Block) : Z :=
  match block with
  | Some b => b_paragraphIndex b
  | None => _startParagraphIndex s
  end.

(** [paragraphPadding(info)]. *)
Definition paragraphPadding (s : String) (info : option ParagraphDetails)
  : QMargins :=
  match info with
  | None => noMargins
  | Some pd =>
      let st := if pd_pre pd then st_pre (_st s) else st_blockquote (_st s) in
      let skip := verticalSkip st in
      let top := header st in
      margins_add (padding st) (mkMargins 0 (top + skip) 0 skip)
  end.

(** ** recountNaturalSize *)

(** The locals of [recountNaturalSize] that live across iterations.
    The paragraph-direction bookkeeping of the [initial] pass writes
    only direction bits, which no function below reads; it is left
    out. *)
Record NaturalState := mkNatural {
  n_pindex : Z;
  n_ppadding : QMargins;
  n_minHeight : Z;
  n_lineHeight : Z;
  n_maxWidth : QFixed;
  n_width : QFixed;
  n_last_rBearing : QFixed;
  n_last_rPadding : QFixed
}.

Definition naturalStep (s : String) (n : NaturalState) (b : Block)
  : Outcome NaturalState :=
  let blockHeight := CountBlockHeight b in
  if TextBlockType.eqb (b_type b) TextBlockType.Newline then
    let lineHeight := if n_lineHeight n =? 0 then blockHeight else n_lineHeight n in
    let index := paragraphIndex s (Some b) in
    st <- (if negb (n_pindex n =? index) then
             let minHeight := n_minHeight n + m_bottom (n_ppadding n) in
             paragraph <- paragraphByIndex s index ;;
             let ppadding := paragraphPadding s paragraph in
             Done (index, setTop ppadding 0, minHeight + m_top ppadding)
           else Done (n_pindex n, n_ppadding n, n_minHeight n)) ;;
    let '(pindex, ppadding, minHeight) := st in
    Done (mkNatural pindex ppadding (minHeight + lineHeight) 0
            (Z.max (n_maxWidth n) (n_width n))
            (QFixed_ofInt (m_left ppadding + m_right ppadding))
            0 0)
  else
    let b__f_rbearing := b_rbearing b in
    Done (mkNatural (n_pindex n) (n_ppadding n) (n_minHeight n)
            (Z.max (n_lineHeight n) blockHeight)
            (Z.max (n_maxWidth n) (n_width n))
            (n_width n + (n_last_rBearing n
                          + (n_last_rPadding n + b_width b - b__f_rbearing)))
            b__f_rbearing
            (b_rpadding b)).

Fixpoint naturalLoop (s : String) (n : NaturalState) (bs : list Block)
  : Outcome NaturalState :=
  match bs with
  | [] => Done n
  | b :: rest => n' <- naturalStep s n b ;; naturalLoop s n' rest
  end.

(** What [recountNaturalSize] computes: [_maxWidth], [_minHeight] and
    [_endsWithParagraphDetails]. ([_blocks.back()] is undefined without
    blocks; the height taken from it is 0 here.) *)
Definition naturalSize (s : String) : Outcome (Z * Z * bool) :=
  let pindex := paragraphIndex s None in
  paragraph <- paragraphByIndex s pindex ;;
  let ppadding := paragraphPadding s paragraph in
  n <- naturalLoop s
         (mkNatural pindex ppadding (m_top ppadding) 0 0
            (QFixed_ofInt (m_left ppadding + m_right ppadding)) 0 0)
         (_blocks s) ;;
  let '(minHeight, maxWidth) :=
    if 0 <? n_width n then
      let lineHeight :=
        if n_lineHeight n =? 0
        then match last (map Some (_blocks s)) None with
             | Some b => CountBlockHeight b
             | None => 0
             end
        else n_lineHeight n in
      (n_minHeight n + (m_top (n_ppadding n) + lineHeight
                        + m_bottom (n_ppadding n)),
       Z.max (n_maxWidth n) (n_width n))
    else (n_minHeight n, n_maxWidth n) in
  Done (QFixed_toInt (QFixed_ceil maxWidth), minHeight,
        negb (n_pindex n =? 0)).

Definition recountNaturalSize (s : String) : Outcome String :=
  r <- naturalSize s ;;
  let '(maxWidth, minHeight, ends) := r in
  Done (mkString (_st s) (_text s) (_blocks s) (_extended s)
          (_minResizeWidth s) maxWidth minHeight
          (_startParagraphIndex s) ends (_skipBlockAddedNewline s)).

(** ** enumerateLines *)

(** A placed piece of content: block index and word index (0 for a block
    placed as a whole without words). Pieces are ghost state: the source
    passes only the width and the height of a line to its callback; the
    model also records which pieces the line holds. *)
Definition Atom := (nat * nat)%type.

Record Line := mkLine {
  lineWidth : QFixed;
  lineHeight : Z;
  lineAtoms : list Atom
}.

(** The pieces of block number [bi]: its words when it is a text block
    with words, else the block itself. *)
Definition blockAtoms (bi : nat) (b : Block) : list Atom :=
  match b_type b, b_words b with
  | TextBlockType.Text, _ :: _ =>
      map (fun wi => (bi, wi)) (seq 0 (List.length (b_words b)))
  | _, _ => [(bi, 0%nat)]
  end.

(** The locals of [enumerateLines] that live across iterations, the
    callback invocations so far ([l_out]) and the pieces on the line
    being filled ([l_cur]). *)
Record LineState := mkLineState {
  l_pindex : Z;
  l_ppadding : QMargins;
  l_widthLeft : QFixed;
  l_lineHeight : Z;
  l_last_rBearing : QFixed;
  l_last_rPadding : QFixed;
  l_longWordLine : bool;
  l_cur : list Atom;
  l_out : list Line
}.

Definition absWidth (w : Word) : QFixed :=
  if 0 <=? w_width w then w_width w else - w_width w.

(** The loop over the words of text block [bi], [j] and [f] being the
    indices of the iterators of the same names; [f_wLeft], [f_lineHeight]
    and the ghost [f_cur] are the state saved at [f]. The source moves
    [j] back to [f] when it rolls a line back, so the recursion is on a
    step budget. *)
Fixpoint wordsLoop (fuel : nat) (width : QFixed) (breakEverywhere : bool)
    (bi : nat) (blockHeight : Z) (ws : list Word)
    (j f : nat) (f_wLeft : QFixed) (f_lineHeight : Z) (f_cur : list Atom)
    (st : LineState) : Outcome LineState :=
  match nth_error ws j with
  | None => Done st
  | Some wj =>
      match fuel with
      | O => OutOfFuel
      | S fuel' =>
          let wordEndsHere := 0 <=? w_width wj in
          let j_width := absWidth wj in
          let newWidthLeft :=
            l_widthLeft st - l_last_rBearing st
            - (l_last_rPadding st + j_width - w_rbearing wj) in
          if 0 <=? newWidthLeft then
            let lineHeight := Z.max (l_lineHeight st) blockHeight in
            let longWordLine :=
              if wordEndsHere then false else l_longWordLine st in
            let cur := l_cur st ++ [(bi, j)] in
            let st' :=
              mkLineState (l_pindex st) (l_ppadding st) newWidthLeft
                lineHeight (w_rbearing wj) (w_rpadding wj) longWordLine
                cur (l_out st) in
            if wordEndsHere || longWordLine then
              wordsLoop fuel' width breakEverywhere bi blockHeight ws
                (S j) (S j) newWidthLeft lineHeight cur st'
            else
              wordsLoop fuel' width breakEverywhere bi blockHeight ws
                (S j) f f_wLeft f_lineHeight f_cur st'
          else
            let rollback := negb (f =? j)%nat && negb breakEverywhere in
            let j' := if rollback then f else j in
            let wj' := if rollback then nth f ws wj else wj in
            let widthLeft := if rollback then f_wLeft else l_widthLeft st in
            let lineHeight :=
              if rollback then f_lineHeight else l_lineHeight st in
            let cur := if rollback then f_cur else l_cur st in
            let j_width' := if rollback then absWidth wj' else j_width in
            let line :=
              mkLine (width - widthLeft)
                (lineHeight + m_top (l_ppadding st)) cur in
            let ppadding := setTop (l_ppadding st) 0 in
            let lineHeight' := Z.max 0 blockHeight in
            let widthLeft' :=
              width - QFixed_ofInt (m_left ppadding)
              - QFixed_ofInt (m_right ppadding)
              - (j_width' - w_rbearing wj') in
            let st' :=
              mkLineState (l_pindex st) ppadding widthLeft' lineHeight'
                (w_rbearing wj') (w_rpadding wj') (negb wordEndsHere)
                [(bi, j')] (l_out st ++ [line]) in
            wordsLoop fuel' width breakEverywhere bi blockHeight ws
              (S j') (S j') widthLeft' lineHeight' [(bi, j')] st'
      end
  end.

(** Steps that always suffice for [n] words (see [wordsLoop_places]). *)
Definition wordsFuel (n : nat) : nat := (S n * S n)%nat.

(** One iteration of the loop over the blocks. *)
Definition lineStep (s : String) (width : QFixed) (breakEverywhere : bool)
    (bi : nat) (b : Block) (st : LineState) : Outcome LineState :=
  let blockHeight := CountBlockHeight b in
  if TextBlockType.eqb (b_type b) TextBlockType.Newline then
    let lineHeight :=
      if l_lineHeight st =? 0 then blockHeight else l_lineHeight st in
    let lineHeight := lineHeight + m_top (l_ppadding st) in
    let index := paragraphIndex s (Some b) in
    r <- (if negb (l_pindex st =? index) then
            paragraph <- paragraphByIndex s index ;;
            Done (lineHeight + m_bottom (l_ppadding st), index,
                  paragraphPadding s paragraph)
          else Done (lineHeight, l_pindex st, setTop (l_ppadding st) 0)) ;;
    let '(lineHeight, pindex, ppadding) := r in
    let line :=
      mkLine (width - l_widthLeft st) lineHeight (l_cur st ++ [(bi, 0%nat)]) in
    Done (mkLineState pindex ppadding
            (width - QFixed_ofInt (m_left ppadding)
             - QFixed_ofInt (m_right ppadding))
            0 0 0 true [] (l_out st ++ [line]))
  else
    let b__f_rbearing := b_rbearing b in
    let newWidthLeft :=
      l_widthLeft st - l_last_rBearing st
      - (l_last_rPadding st + b_width b - b__f_rbearing) in
    if 0 <=? newWidthLeft then
      Done (mkLineState (l_pindex st) (l_ppadding st) newWidthLeft
              (Z.max (l_lineHeight st) blockHeight)
              b__f_rbearing (b_rpadding b) false
              (l_cur st ++ blockAtoms bi b) (l_out st))
    else if TextBlockType.eqb (b_type b) TextBlockType.Text then
      match b_words b with
      | [] =>
          Done (mkLineState (l_pindex st) (l_ppadding st) (l_widthLeft st)
                  (Z.max (l_lineHeight st) blockHeight)
                  (l_last_rBearing st) (l_last_rPadding st + b_rpadding b)
                  false (l_cur st ++ blockAtoms bi b) (l_out st))
      | ws =>
          wordsLoop (wordsFuel (List.length ws)) width breakEverywhere bi
            blockHeight ws 0 0 (l_widthLeft st) (l_lineHeight st) (l_cur st)
            st
      end
    else
      let line :=
        mkLine (width - l_widthLeft st)
          (l_lineHeight st + m_top (l_ppadding st)) (l_cur st) in
      let ppadding := setTop (l_ppadding st) 0 in
      Done (mkLineState (l_pindex st) ppadding
              (width - QFixed_ofInt (m_left ppadding)
               - QFixed_ofInt (m_right ppadding)
               - (b_width b - b__f_rbearing))
              (Z.max 0 blockHeight) b__f_rbearing (b_rpadding b) true
              (blockAtoms bi b) (l_out st ++ [line])).

Fixpoint lineLoop (s : String) (width : QFixed) (breakEverywhere : bool)
    (bi : nat) (bs : list Block) (st : LineState) : Outcome LineState :=
  match bs with
  | [] => Done st
  | b :: rest =>
      st' <- lineStep s width breakEverywhere bi b st ;;
      lineLoop s width breakEverywhere (S bi) rest st'
  end.

(** [enumerateLines(w, breakEverywhere, callback)]: the lines passed to
    the callback, in order, and the pieces of a last line that is not
    passed to it. *)
Definition enumerateLinesPlaced (s : String) (w : Z) (breakEverywhere : bool)
  : Outcome (list Line * list Atom) :=
  let width := QFixed_ofInt32 (Z.max w (_minResizeWidth s)) in
  let pindex := paragraphIndex s None in
  paragraph <- paragraphByIndex s pindex ;;
  let ppadding := paragraphPadding s paragraph in
  let widthLeft :=
    width - QFixed_ofInt (m_left ppadding) - QFixed_ofInt (m_right ppadding) in
  st <- lineLoop s width breakEverywhere 0 (_blocks s)
          (mkLineState pindex ppadding widthLeft 0 0 0 true [] []) ;;
  if l_widthLeft st <? width then
    Done (l_out st
          ++ [mkLine (width - l_widthLeft st)
                (l_lineHeight st + m_top (l_ppadding st)
                 + m_bottom (l_ppadding st))
                (l_cur st)],
          [])
  else Done (l_out st, l_cur st).

(** The callback invocations proper: width and height of each line. *)
Definition enumerateLines (s : String) (w : Z) (breakEverywhere : bool)
  : Outcome (list (QFixed * Z)) :=
  r <- enumerateLinesPlaced s w breakEverywhere ;;
  Done (map (fun l => (lineWidth l, lineHeight l)) (fst r)).


(** ** countWidth and countHeight *)

(** A result together with the number of times the line breaker ran to
    obtain it. *)
Record Counted (A : Type) := mkCounted {
  result : Outcome A;
  breakerRuns : nat
}.

(** In the test [QFixed(width) >= _maxWidth] of both functions the
    width is the caller's ([QFixed_ofInt32]); [_maxWidth] is the integer
    part of a [QFixed], whose product by 64 fits. *)
Definition countWidth (s : String) (width : Z) (breakEverywhere : bool)
  : Counted Z :=
  if QFixed_ofInt (_maxWidth s) <=? QFixed_ofInt32 width then
    mkCounted (Done (_maxWidth s)) 0
  else
    mkCounted
      (lines <- enumerateLines s width breakEverywhere ;;
       let maxLineWidth :=
         fold_left (fun (m : QFixed) (l : QFixed * Z) =>
                      if m <? fst l then fst l else m) lines 0 in
       Done (QFixed_toInt (QFixed_ceil maxLineWidth)))
      1.

Definition countHeight (s : String) (width : Z) (breakEverywhere : bool)
  : Counted Z :=
  if QFixed_ofInt (_maxWidth s) <=? QFixed_ofInt32 width then
    mkCounted (Done (_minHeight s)) 0
  else
    mkCounted
      (lines <- enumerateLines s width breakEverywhere ;;
       Done (fold_left (fun (r : Z) (l : QFixed * Z) => r + snd l) lines 0))
      1.

(** ** Character classes *)

Definition IsParagraphSeparator (ch : QChar) : bool := ch =? LineFeed.

(** The code units of the cases of the [switch] of [IsWordSeparator], in
    its order: space, line feed, full stop, comma, question mark,
    exclamation mark, at, hash, dollar, colon, semicolon, hyphen, angle,
    square, round and curly brackets, equals, slash, plus, percent,
    ampersand, caret, asterisk, apostrophe, quotation mark, grave accent,
    tilde and vertical bar. *)
Definition wordSeparators : list QChar :=
  [32; 10; 46; 44; 63; 33; 64; 35; 36; 58; 59; 45; 60; 62; 91; 93; 40; 41;
   123; 125; 61; 47; 43; 37; 38; 94; 42; 39; 34; 96; 126; 124].

Definition IsWordSeparator (ch : QChar) : bool :=
  existsb (Z.eqb ch) wordSeparators.

(** Qt's [QChar::isSpace]: U+0020, U+0009..U+000D, U+0085, U+00A0 and the
    characters of the categories Zs, Zl and Zp. *)
Definition QChar_isSpace (ch : QChar) : bool :=
  (ch =? 32) || ((9 <=? ch) && (ch <=? 13))
  || ((127 <? ch)
      && ((ch =? 133) || (ch =? 160) || (ch =? 5760)
          || ((8192 <=? ch) && (ch <=? 8202))
          || (ch =? 8232) || (ch =? 8233) || (ch =? 8239) || (ch =? 8287)
          || (ch =? 12288))).

Definition IsSpace (ch : QChar) : bool :=
  QChar_isSpace ch
  || (ch <? 32)
  || (ch =? 8233)
  || (ch =? 8232)
  || (ch =? 65532)
  || (ch =? 13)
  || (ch =? 9)
  || (ch =? 8203).

(** ** enumerateText *)

Definition isEmpty (s : String) : bool :=
  match _blocks s with
  | [] => true
  | b :: _ => TextBlockType.eqb (b_type b) TextBlockType.Skip
  end.

(** [_extended->links[index - 1]]; a null [_extended] and an index out of
    the table both give the null handler. *)
Definition linkAt (s : String) (index : Z) : option ClickHandler :=
  match _extended s with
  | None => None
  | Some ext =>
      if 1 <=? index then nth (Z.to_nat (index - 1)) (links ext) None
      else None
  end.

Definition handlerType (h : option ClickHandler) : EntityType.t :=
  match h with
  | Some h => h_type h
  | None => EntityType.Invalid
  end.

(** [countBlockEnd(i, e)] for the block followed by [rest]. *)
Definition countBlockEnd (s : String) (rest : list Block) : Z :=
  match rest with
  | [] => uint16 (size (_text s))
  | b :: _ => b_position b
  end.

(** [countBlockLength(i, e)]. *)
Definition countBlockLength (s : String) (b : Block) (rest : list Block) : Z :=
  uint16 (countBlockEnd s rest - b_position b).

(** The lambda [blockLinkIndex] of [enumerateText] for the block at the
    iterator ([None] at the end): the link of the block, 0 when the
    block is monospace or its link has no handler. *)
Definition blockLinkIndex (s : String) (i : option Block) : Z :=
  match i with
  | None => 0
  | Some b =>
      if IsMono (b_flags b) then 0
      else
        let result := b_linkIndex b in
        if negb (result =? 0)
           && match linkAt s result with Some _ => true | None => false end
        then result else 0
  end.

Section EnumerateText.
(** The four callbacks act on a state of the caller. *)
Variable St : Type.
Variable appendPartCallback : QString -> QString -> St -> St.
Variable clickHandlerStartCallback : EntityType.t -> St -> St.
Variable clickHandlerFinishCallback :
  QString -> option ClickHandler -> EntityType.t -> St -> St.
Variable flagsChangeCallback : Z -> Z -> St -> St.

(** The click handler of a link run [linkPosition, blockPosition) that
    the finish callback receives: null for a run that the selection
    covers only in part ([rangeFrom], [rangeTo] being the covered
    part). *)
Definition finishHandler (s : String) (linkIndex linkPosition blockPosition
    rangeFrom rangeTo : Z) : option ClickHandler :=
  if negb (linkPosition =? rangeFrom) || negb (blockPosition =? rangeTo)
     || match _extended s with None => true | Some _ => false end
  then None
  else linkAt s linkIndex.

(** The part of an iteration that runs when the link index changes. *)
Definition linkBoundary (s : String) (selection : TextSelection)
    (blockPosition blockLinkIndex linkIndex linkPosition : Z) (acc : St)
  : Z * Z * St :=
  if negb (blockLinkIndex =? linkIndex) then
    let acc :=
      if negb (linkIndex =? 0) then
        let rangeFrom := Z.max (from selection) linkPosition in
        let rangeTo := Z.min (to selection) blockPosition in
        if rangeFrom <? rangeTo then
          let r := StringViewMid (_text s) rangeFrom (rangeTo - rangeFrom) in
          let handler :=
            finishHandler s linkIndex linkPosition blockPosition
              rangeFrom rangeTo in
          clickHandlerFinishCallback r handler (handlerType handler) acc
        else acc
      else acc in
    if negb (blockLinkIndex =? 0) then
      (blockLinkIndex, blockPosition,
       clickHandlerStartCallback (handlerType (linkAt s blockLinkIndex)) acc)
    else (blockLinkIndex, linkPosition, acc)
  else (linkIndex, linkPosition, acc).

(** The loop of [enumerateText] from iterator [i] on, [bs] being the
    blocks from [i] ([[]] when [i == e]). *)
Fixpoint enumerateTextLoop (s : String) (selection : TextSelection)
    (bs : list Block) (linkIndex linkPosition flags : Z) (acc : St) : St :=
  let blockPosition :=
    match bs with
    | [] => uint16 (size (_text s))
    | b :: _ => b_position b
    end in
  let blockFlags := match bs with [] => 0 | b :: _ => b_flags b end in
  let blockLinkIndex := blockLinkIndex s (hd_error bs) in
  let '(linkIndex, linkPosition, acc) :=
    linkBoundary s selection blockPosition blockLinkIndex linkIndex
      linkPosition acc in
  let checkBlockFlags :=
    (from selection <=? blockPosition) && (blockPosition <=? to selection) in
  let '(flags, acc) :=
    if checkBlockFlags && negb (blockFlags =? flags)
    then (blockFlags, flagsChangeCallback flags blockFlags acc)
    else (flags, acc) in
  match bs with
  | [] => acc
  | b :: rest =>
      if to selection
         <=? (if negb (linkIndex =? 0) then linkPosition else blockPosition)
      then acc
      else if TextBlockType.eqb (b_type b) TextBlockType.Skip then
        enumerateTextLoop s selection rest linkIndex linkPosition flags acc
      else
        let rangeFrom := Z.max (from selection) blockPosition in
        let rangeTo :=
          Z.min (to selection)
            (uint16 (blockPosition + countBlockLength s b rest)) in
        let acc :=
          if rangeFrom <? rangeTo then
            let customEmojiData :=
              if TextBlockType.eqb (b_type b) TextBlockType.CustomEmoji
              then b_entityData b else [] in
            appendPartCallback
              (StringViewMid (_text s) rangeFrom (rangeTo - rangeFrom))
              customEmojiData acc
          else acc in
        enumerateTextLoop s selection rest linkIndex linkPosition flags acc
  end.

Definition enumerateText (s : String) (selection : TextSelection)
    (acc : St) : St :=
  if isEmpty s || sel_empty selection then acc
  else enumerateTextLoop s selection (_blocks s) 0 0 0 acc.
End EnumerateText.

(** ** toText *)

Record TextForMimeData := mkMime {
  rich_text : QString;
  rich_entities : list EntityInText;
  expanded : QString
}.

Record MarkdownTagTracker := mkTracker {
  tr_flag : Z;
  tr_type : EntityType.t;
  tr_start : Z
}.

(** [result], [linkStart] and [markdownTrackers]: what the callbacks of
    [toText] capture by reference. *)
Record ToTextState := mkToText {
  tt_result : TextForMimeData;
  tt_linkStart : Z;
  tt_trackers : list MarkdownTagTracker
}.

(** The scan of [insertEntity], on the reversed list: from the end, past
    every entity that starts after the new one. *)
Fixpoint insertEntityRev (entity : EntityInText) (rl : list EntityInText)
  : list EntityInText :=
  match rl with
  | [] => [entity]
  | j :: before =>
      if e_offset j <=? e_offset entity then entity :: j :: before
      else j :: insertEntityRev entity before
  end.

Definition insertEntity (entity : EntityInText) (l : list EntityInText)
  : list EntityInText :=
  rev (insertEntityRev entity (rev l)).

Definition withEntity (entity : EntityInText) (r : TextForMimeData)
  : TextForMimeData :=
  mkMime (rich_text r) (insertEntity entity (rich_entities r)) (expanded r).

Definition initialTrackers : list MarkdownTagTracker :=
  [ mkTracker TextBlockFlag.Italic EntityType.Italic 0;
    mkTracker TextBlockFlag.Bold EntityType.Bold 0;
    mkTracker TextBlockFlag.Semibold EntityType.Semibold 0;
    mkTracker TextBlockFlag.Underline EntityType.Underline 0;
    mkTracker TextBlockFlag.Spoiler EntityType.Spoiler 0;
    mkTracker TextBlockFlag.StrikeOut EntityType.StrikeOut 0;
    mkTracker TextBlockFlag.Code EntityType.Code 0;
    mkTracker TextBlockFlag.Pre EntityType.Pre 0;
    mkTracker TextBlockFlag.Blockquote EntityType.Blockquote 0 ].

(** The loop of [flagsChangeCallback] over the trackers. *)
Fixpoint trackFlags (oldFlags newFlags : Z) (trackers : list MarkdownTagTracker)
    (r : TextForMimeData) : list MarkdownTagTracker * TextForMimeData :=
  match trackers with
  | [] => ([], r)
  | tracker :: rest =>
      let flag := tr_flag tracker in
      let '(tracker, r) :=
        if hasFlag oldFlags flag && negb (hasFlag newFlags flag) then
          (tracker,
           withEntity
             (mkEntity (tr_type tracker) (tr_start tracker)
                (size (rich_text r) - tr_start tracker) [])
             r)
        else if hasFlag newFlags flag && negb (hasFlag oldFlags flag) then
          (mkTracker flag (tr_type tracker) (size (rich_text r)), r)
        else (tracker, r) in
      let '(rest, r) := trackFlags oldFlags newFlags rest r in
      (tracker :: rest, r)
  end.

Fixpoint startsWith (s prefix : QString) : bool :=
  match prefix, s with
  | [], _ => true
  | p :: prefix', c :: s' => (c =? p) && startsWith s' prefix'
  | _ :: _, [] => false
  end.

Definition QString_eqb (a b : QString) : bool :=
  (List.length a =? List.length b)%nat && startsWith a b.

(** The projection of the final sort: the offset, then 0 for the
    url-like types and 1 for the others. *)
Definition proj (entity : EntityInText) : Z * Z :=
  let type := e_type entity in
  let isUrl :=
    EntityType.eqb type EntityType.Url
    || EntityType.eqb type EntityType.CustomUrl
    || EntityType.eqb type EntityType.BotCommand
    || EntityType.eqb type EntityType.Mention
    || EntityType.eqb type EntityType.MentionName
    || EntityType.eqb type EntityType.Hashtag
    || EntityType.eqb type EntityType.Cashtag in
  (e_offset entity, if isUrl then 0 else 1).

(** [operator<] of [std::pair]. *)
Definition pair_lt (a b : Z * Z) : bool :=
  (fst a <? fst b) || (negb (fst b <? fst a) && (snd a <? snd b)).

Definition pred (a b : EntityInText) : bool := pair_lt (proj a) (proj b).

Section ToText.
(** [UrlClickHandler::EncodeForOpening], from another file. *)
Variable EncodeForOpening : QString -> QString.
(** [std::sort] over the entity vector with a comparator: the standard
    leaves the order of equivalent elements open, so the algorithm is a
    parameter here and the properties that rely on it assume what the
    standard guarantees. *)
Variable std_sort :
  (EntityInText -> EntityInText -> bool) ->
  list EntityInText -> list EntityInText.

Variables composeExpanded composeEntities : bool.

Definition flagsChangeCallback (oldFlags newFlags : Z) (st : ToTextState)
  : ToTextState :=
  if negb composeEntities then st
  else
    let '(trackers, r) :=
      trackFlags oldFlags newFlags (tt_trackers st) (tt_result st) in
    mkToText r (tt_linkStart st) trackers.

Definition clickHandlerStartCallback (type : EntityType.t)
    (st : ToTextState) : ToTextState :=
  mkToText (tt_result st) (size (rich_text (tt_result st))) (tt_trackers st).

Definition clickHandlerFinishCallback (inText : QString)
    (handler : option ClickHandler) (type : EntityType.t)
    (st : ToTextState) : ToTextState :=
  match handler with
  | None => st
  | Some handler =>
      if negb composeExpanded && negb composeEntities then st
      else
        let entity := handler in
        let plainUrl :=
          EntityType.eqb (h_type entity) EntityType.Url
          || EntityType.eqb (h_type entity) EntityType.Email in
        let full := if plainUrl then h_data entity else inText in
        let customTextLink :=
          EntityType.eqb (h_type entity) EntityType.CustomUrl in
        let internalLink :=
          customTextLink && startsWith (h_data entity) (qstr "internal:") in
        let r := tt_result st in
        let r :=
          if composeExpanded then
            let sameAsTextLink :=
              customTextLink
              && QString_eqb (h_data entity) (EncodeForOpening full) in
            if customTextLink && negb internalLink && negb sameAsTextLink
            then
              mkMime (rich_text r) (rich_entities r)
                (expanded r ++ qstr " (" ++ h_data entity ++ qstr ")")
            else r
          else r in
        let r :=
          if composeEntities && negb internalLink then
            withEntity
              (mkEntity (h_type entity) (tt_linkStart st)
                 (size (rich_text r) - tt_linkStart st)
                 (if plainUrl then [] else h_data entity))
              r
          else r in
        mkToText r (tt_linkStart st) (tt_trackers st)
  end.

Definition appendPartCallback (part customEmojiData : QString)
    (st : ToTextState) : ToTextState :=
  let r := tt_result st in
  let r :=
    mkMime (rich_text r ++ part) (rich_entities r)
      (if composeExpanded then expanded r ++ part else expanded r) in
  let r :=
    if composeEntities
       && negb match customEmojiData with [] => true | _ => false end
    then
      withEntity
        (mkEntity EntityType.CustomEmoji (size (rich_text r) - size part)
           (size part) customEmojiData)
        r
    else r in
  mkToText r (tt_linkStart st) (tt_trackers st).

(** [toText] up to the final sort. *)
Definition toTextUnsorted (s : String) (selection : TextSelection)
  : TextForMimeData :=
  tt_result
    (enumerateText appendPartCallback clickHandlerStartCallback
       clickHandlerFinishCallback flagsChangeCallback s selection
       (mkToText (mkMime [] [] []) 0
          (if composeEntities then initialTrackers else []))).

Definition toText (s : String) (selection : TextSelection)
  : TextForMimeData :=
  let r := toTextUnsorted s selection in
  if composeEntities then
    mkMime (rich_text r) (std_sort pred (rich_entities r)) (expanded r)
  else r.
End ToText.

Definition toString EncodeForOpening std_sort (s : String)
    (selection : TextSelection) : QString :=
  rich_text (toText EncodeForOpening std_sort false false s selection).

Definition toTextWithEntities EncodeForOpening std_sort (s : String)
    (selection : TextSelection) : TextForMimeData :=
  toText EncodeForOpening std_sort false true s selection.

(** ** adjustSelection *)

Inductive TextSelectType := Letters | Words | Paragraphs.

(** [while (from > 0 && !sep(_text.at(from - 1))) --from], on the
    number of characters before [from]. *)
Fixpoint scanBack (sep : QChar -> bool) (text : QString) (from : nat) : nat :=
  match from with
  | O => O
  | S k => if sep (nth k text 0) then S k else scanBack sep text k
  end.

(** [while (to < _text.size() && !sep(_text.at(to))) ++to] on a [uint16]
    [to]. The budget [fuel] is spent only while the loop runs; a text of
    at most 65535 characters never exhausts [size - to] steps. *)
Fixpoint scanForward (sep : QChar -> bool) (text : QString) (fuel : nat)
    (to : Z) : Outcome Z :=
  if (to <? size text) && negb (sep (at_ text to)) then
    match fuel with
    | O => OutOfFuel
    | S k => scanForward sep text k (uint16 (to + 1))
    end
  else Done to.

(** The adjustment shared by the word and the paragraph mode. *)
Definition snapTo (sep : QChar -> bool) (text : QString) (from to : Z)
  : Outcome TextSelection :=
  let from :=
    if negb (sep (at_ text from))
    then Z.of_nat (scanBack sep text (Z.to_nat from))
    else from in
  to <- (if to <? size text then
           if sep (at_ text to) then Done (uint16 (to + 1))
           else scanForward sep text (Z.to_nat (size text - to)) to
         else Done to) ;;
  Done (mkSel from to).

(** [while (to > 0 && IsSpace(_text.at(to - 1))) --to]. *)
Fixpoint trimSpaces (text : QString) (to : nat) : nat :=
  match to with
  | O => O
  | S k => if IsSpace (nth k text 0) then trimSpaces text k else S k
  end.

(** The search for a pre or code entity around the selection, for the
    first block at or after [from]: the selection range after it, and
    whether the function returns at once. *)
Definition monoSnap EncodeForOpening std_sort (s : String) (from to : Z)
  : TextSelection * bool :=
  match filter (fun b => negb (b_position b <? from)) (_blocks s) with
  | [] => (mkSel from to, false)
  | b :: _ =>
      if negb (IsMono (b_flags b)) then (mkSel from to, false)
      else
        let entities :=
          rich_entities
            (toTextWithEntities EncodeForOpening std_sort s AllTextSelection) in
        match
          find (fun e =>
                  (EntityType.eqb (e_type e) EntityType.Pre
                   || EntityType.eqb (e_type e) EntityType.Code)
                  && (e_offset e <=? from)
                  && (to <=? e_offset e + e_length e))
               entities
        with
        | None => (mkSel from to, false)
        | Some e =>
            let from := uint16 (e_offset e) in
            let to := uint16 (e_offset e + e_length e) in
            let to := Z.of_nat (trimSpaces (_text s) (Z.to_nat to)) in
            (mkSel from to, from <=? to)
        end
  end.

Definition adjustSelection EncodeForOpening std_sort (s : String)
    (selection : TextSelection) (selectType : TextSelectType)
  : Outcome TextSelection :=
  let from_ := from selection in
  let to_ := to selection in
  if (from_ <? size (_text s)) && (from_ <=? to_) then
    let to_ := if size (_text s) <? to_ then uint16 (size (_text s)) else to_ in
    match selectType with
    | Paragraphs =>
        let '(r, returns) := monoSnap EncodeForOpening std_sort s from_ to_ in
        if returns then Done r
        else snapTo IsParagraphSeparator (_text s) (from r) (to r)
    | Words => snapTo IsWordSeparator (_text s) from_ to_
    | Letters => Done (mkSel from_ to_)
    end
  else Done (mkSel from_ to_).

(** ** The skip block *)

(** [_blocks.back()], when there is a block. *)
Definition back (s : String) : option Block :=
  last (map Some (_blocks s)) None.

Definition hasSkipBlock (s : String) : bool :=
  match back s with
  | Some b => TextBlockType.eqb (b_type b) TextBlockType.Skip
  | None => false
  end.

Definition withContent (s : String) (text : QString) (blocks : list Block)
    (addedNewline : bool) : String :=
  mkString (_st s) text blocks (_extended s) (_minResizeWidth s)
    (_maxWidth s) (_minHeight s) (_startParagraphIndex s)
    (_endsWithParagraphDetails s) addedNewline.

Definition updateSkipBlock (s : String) (width height : Z)
  : Outcome (bool * String) :=
  let append_skip (s : String) :=
    let text := _text s ++ qstr "_" in
    let s :=
      withContent s text
        (_blocks s ++ [Block_Skip (size text - 1) width height 0 0])
        (_skipBlockAddedNewline s) in
    s <- recountNaturalSize s ;;
    Done (true, s) in
  match (if hasSkipBlock s then back s else None) with
  | Some block =>
      if (QFixed_toInt (b_width block) =? width) && (b_height block =? height)
      then Done (false, s)
      else
        append_skip
          (withContent s (resize (_text s) (b_position block))
             (removelast (_blocks s)) (_skipBlockAddedNewline s))
  | None =>
      if _endsWithParagraphDetails s then
        let text := _text s ++ [LineFeed] in
        append_skip
          (withContent s text
             (_blocks s ++ [Block_Newline (_st s) (size text - 1) 0 0 0])
             true)
      else append_skip s
  end.

Definition removeSkipBlock (s : String) : Outcome (bool * String) :=
  match (if hasSkipBlock s then back s else None) with
  | None => Done (false, s)
  | Some block =>
      let s :=
        if _skipBlockAddedNewline s then
          withContent s (resize (_text s) (b_position block - 1))
            (removelast (removelast (_blocks s))) false
        else
          withContent s (resize (_text s) (b_position block))
            (removelast (_blocks s)) (_skipBlockAddedNewline s) in
      s <- recountNaturalSize s ;;
      Done (true, s)
  end.

(** [clear()]: the members that it resets. *)
Definition clear (s : String) : String :=
  mkString (_st s) [] [] None (_minResizeWidth s) 0 0 0
    (_endsWithParagraphDetails s) (_skipBlockAddedNewline s).

(** Modelled from the spec: the parser, which is not part of this file,
    fills the backing text, the run sequence, the side table and the
    start paragraph index of the string it is given; [setText] and
    [setMarkedText] are [clear], the parser and [recountNaturalSize]. *)
Definition parsed (s : String) (text : QString) (blocks : list Block)
    (extended : option ExtendedData) (startParagraphIndex : Z) : String :=
  mkString (_st s) text blocks extended (_minResizeWidth s) (_maxWidth s)
    (_minHeight s) startParagraphIndex (_endsWithParagraphDetails s)
    (_skipBlockAddedNewline s).

Definition setText (s : String) (text : QString) (blocks : list Block)
    (extended : option ExtendedData) (startParagraphIndex : Z)
  : Outcome String :=
  recountNaturalSize (parsed (clear s) text blocks extended startParagraphIndex).

(** ** Notions used by the statements *)

(** The sum of the heights of the lines of [enumerateLines]. *)
Definition sumLineHeights (lines : list (QFixed * Z)) : Z :=
  fold_left (fun (r : Z) (l : QFixed * Z) => r + snd l) lines 0.

(** A value of a [uint16] member. *)
Definition isUint16 (z : Z) : Prop := 0 <= z <= 65535.

Definition validSelection (sel : TextSelection) : Prop :=
  isUint16 (from sel) /\ isUint16 (to sel).



(** The pieces of blocks numbered from [bi] on, in order. *)
Fixpoint atomsFrom (bi : nat) (bs : list Block) : list Atom :=
  match bs with
  | [] => []
  | b :: rest => blockAtoms bi b ++ atomsFrom (S bi) rest
  end.

Definition allAtoms (s : String) : list Atom := atomsFrom 0 (_blocks s).

(** Two sorting algorithms that [std::sort] may be: insertion sort
    taking the elements from the back, which keeps equivalent elements
    in their order, and the same insertion taking the elements from the
    front, which reverses them. *)
Fixpoint insertBefore {A : Type} (less : A -> A -> bool) (x : A) (l : list A)
  : list A :=
  match l with
  | [] => [x]
  | y :: r => if less y x then y :: insertBefore less x r else x :: y :: r
  end.

Definition stableSort {A : Type} (less : A -> A -> bool) (l : list A) : list A :=
  fold_right (insertBefore less) [] l.

Definition reversingSort {A : Type} (less : A -> A -> bool) (l : list A)
  : list A :=
  fold_left (fun acc x => insertBefore less x acc) l [].

(** [UrlClickHandler::EncodeForOpening] for the samples: the identity. *)
Definition plainEncode (url : QString) : QString := url.

(** The sort key in the words of the specification: the offset, then
    the category, in which the url-like types come before the others. *)
Definition urlLike (type : EntityType.t) : bool :=
  match type with
  | EntityType.Url | EntityType.CustomUrl | EntityType.BotCommand
  | EntityType.Mention | EntityType.MentionName | EntityType.Hashtag
  | EntityType.Cashtag => true
  | _ => false
  end.

Definition category (entity : EntityInText) : Z :=
  if urlLike (e_type entity) then 0 else 1.

Definition sortKey (entity : EntityInText) : Z * Z :=
  (e_offset entity, category entity).

Definition key_le (a b : Z * Z) : Prop :=
  fst a < fst b \/ (fst a = fst b /\ snd a <= snd b).

(** A comparator that [std::sort] accepts: a strict weak ordering. *)
Definition strictWeakOrder {A : Type} (less : A -> A -> bool) : Prop :=
  (forall a b, less a b = true -> less b a = false) /\
  (forall a b c, less a b = false -> less b c = false -> less a c = false).

(** What the standard guarantees of [std::sort]: the result is a
    permutation of the input and no element is less than one before
    it. *)
Definition stdSortContract
    (std_sort : (EntityInText -> EntityInText -> bool) ->
                list EntityInText -> list EntityInText) : Prop :=
  forall less l,
    strictWeakOrder less ->
    Permutation l (std_sort less l) /\
    StronglySorted (fun a b => less b a = false) (std_sort less l).

(** A link that [toText] never exports: a custom url whose data starts
    with [internal:]. *)
Definition internalLink (h : ClickHandler) : bool :=
  EntityType.eqb (h_type h) EntityType.CustomUrl
  && startsWith (h_data h) (qstr "internal:").

(** The entity that [toText] inserts for a completed link. *)
Definition linkEntity (h : ClickHandler) (linkStart textSize : Z)
  : EntityInText :=
  mkEntity (h_type h) linkStart (textSize - linkStart)
    (if EntityType.eqb (h_type h) EntityType.Url
        || EntityType.eqb (h_type h) EntityType.Email
     then [] else h_data h).

(** The selection meets the run [linkPosition, blockPosition), and it
    covers the whole of it. *)
Definition runMet (selection : TextSelection) (linkPosition blockPosition : Z)
  : bool :=
  Z.max (from selection) linkPosition <? Z.min (to selection) blockPosition.

Definition runCovered (selection : TextSelection)
    (linkPosition blockPosition : Z) : bool :=
  (from selection <=? linkPosition) && (blockPosition <=? to selection).

(** The invariant of the run sequence: the blocks lie in strictly
    increasing position order inside a text of at most 65535
    characters, the first one at its start (a text without blocks is
    empty); a skip block is the last block and holds the one character
    that [updateSkipBlock] appends for it. *)
Definition wellFormed (s : String) : Prop :=
  size (_text s) <= 65535 /\
  StronglySorted Z.lt (map b_position (_blocks s)) /\
  Forall (fun b => 0 <= b_position b < size (_text s)) (_blocks s) /\
  match _blocks s with
  | [] => _text s = []
  | b :: _ => b_position b = 0
  end /\
  Forall (fun b => b_type b <> TextBlockType.Skip) (removelast (_blocks s)) /\
  (forall b, back s = Some b -> b_type b = TextBlockType.Skip ->
             b_position b = size (_text s) - 1).

(** The plain text gathered so far by the callbacks of [toText]. *)
Definition textOf (st : ToTextState) : QString := rich_text (tt_result st).

(** Where the text of the blocks [bs] ends for the extraction: at a final
    skip block, or at the end of the text. *)
Definition extentEnd (s : String) (bs : list Block) : Z :=
  match last (map Some bs) None with
  | Some b =>
      if TextBlockType.eqb (b_type b) TextBlockType.Skip
      then b_position b else size (_text s)
  | None => size (_text s)
  end.




(** The frames of the style do not pull the text outwards. *)
Definition sidePaddingNonneg (st : TextStyle) : Prop :=
  0 <= m_left (padding (st_pre st)) + m_right (padding (st_pre st)) /\
  0 <= m_left (padding (st_blockquote st))
       + m_right (padding (st_blockquote st)).

(** A piece that takes room on a line: its width is not 0 (the width of
    a block is positive, that of a word is negative when the word goes
    on), its right bearing is not positive and its right padding not
    negative. *)
Definition wordTakesRoom (w : Word) : Prop :=
  w_width w <> 0 /\ w_rbearing w <= 0 /\ 0 <= w_rpadding w.

(** Content that takes room: no frame pulls the text outwards, and every
    block other than a newline has a positive width, a right bearing
    that is not positive and a right padding that is not negative; a
    text block has words, and they take room. *)
Definition takesRoom (s : String) : Prop :=
  sidePaddingNonneg (_st s) /\
  Forall (fun b =>
            b_type b <> TextBlockType.Newline ->
            0 < b_width b /\ b_rbearing b <= 0 /\ 0 <= b_rpadding b /\
            (b_type b = TextBlockType.Text ->
             b_words b <> [] /\ Forall wordTakesRoom (b_words b)))
    (_blocks s).


(** A callback invocation of [enumerateText]. *)
Inductive TextEvent :=
| EvAppend (part customEmojiData : QString)
| EvStart (type : EntityType.t)
| EvFinish (inText : QString) (handler : option ClickHandler)
    (type : EntityType.t)
| EvFlags (oldFlags newFlags : Z).

(** The callback invocations of [enumerateText], in order: the walk with
    callbacks that record their arguments. *)
Definition recordAppend (part data : QString) (acc : list TextEvent) :=
  acc ++ [EvAppend part data].
Definition recordStart (type : EntityType.t) (acc : list TextEvent) :=
  acc ++ [EvStart type].
Definition recordFinish (inText : QString) (handler : option ClickHandler)
    (type : EntityType.t) (acc : list TextEvent) :=
  acc ++ [EvFinish inText handler type].
Definition recordFlags (oldFlags newFlags : Z) (acc : list TextEvent) :=
  acc ++ [EvFlags oldFlags newFlags].

Definition textEvents (s : String) (selection : TextSelection)
  : list TextEvent :=
  enumerateText recordAppend recordStart recordFinish recordFlags s selection
    [].

Definition dispatch {St : Type}
    (appendPart : QString -> QString -> St -> St)
    (start : EntityType.t -> St -> St)
    (finish : QString -> option ClickHandler -> EntityType.t -> St -> St)
    (flagsChange : Z -> Z -> St -> St)
    (acc : St) (ev : TextEvent) : St :=
  match ev with
  | EvAppend part data => appendPart part data acc
  | EvStart type => start type acc
  | EvFinish inText handler type => finish inText handler type acc
  | EvFlags oldFlags newFlags => flagsChange oldFlags newFlags acc
  end.

Definition finishCalls (events : list TextEvent)
  : list (QString * option ClickHandler) :=
  flat_map (fun ev => match ev with
                      | EvFinish inText handler _ => [(inText, handler)]
                      | _ => []
                      end) events.

Record LinkRun := mkRun { run_link : Z; run_from : Z; run_to : Z }.

(** The link runs of the blocks [bs], [linkIndex] being the link of the
    run that is open before them (0 for none) and [linkPosition] its
    start: a run is a longest stretch of blocks of one link, and it ends
    where the next block, or the end of the text, begins. *)
Fixpoint linkRunsFrom (s : String) (bs : list Block)
    (linkIndex linkPosition : Z) : list LinkRun :=
  match bs with
  | [] =>
      if linkIndex =? 0 then []
      else [mkRun linkIndex linkPosition (uint16 (size (_text s)))]
  | b :: rest =>
      let k := blockLinkIndex s (Some b) in
      if k =? linkIndex then linkRunsFrom s rest linkIndex linkPosition
      else
        (if linkIndex =? 0 then []
         else [mkRun linkIndex linkPosition (b_position b)])
        ++ linkRunsFrom s rest k
             (if k =? 0 then linkPosition else b_position b)
  end.

Definition linkRuns (s : String) : list LinkRun :=
  linkRunsFrom s (_blocks s) 0 0.

(** The finish event of a link run under a selection: none when the
    selection does not meet the run, else the covered text with the
    handler of the link, which is null unless the whole run is
    covered. *)
Definition runFinish (s : String) (selection : TextSelection) (run : LinkRun)
  : list (QString * option ClickHandler) :=
  if runMet selection (run_from run) (run_to run) then
    let rangeFrom := Z.max (from selection) (run_from run) in
    let rangeTo := Z.min (to selection) (run_to run) in
    [(StringViewMid (_text s) rangeFrom (rangeTo - rangeFrom),
      if runCovered selection (run_from run) (run_to run)
      then linkAt s (run_link run) else None)]
  else [].

(** The callbacks applied to recorded invocations, in order. *)
Definition replay {St : Type}
    (appendPart : QString -> QString -> St -> St)
    (start : EntityType.t -> St -> St)
    (finish : QString -> option ClickHandler -> EntityType.t -> St -> St)
    (flagsChange : Z -> Z -> St -> St)
    (evs : list TextEvent) (acc : St) : St :=
  fold_left (dispatch appendPart start finish flagsChange) evs acc.

(** The entity types that [toText] gives to the entities of its
    markdown trackers and of custom emoji. *)
Definition styleType (type : EntityType.t) : bool :=
  match type with
  | EntityType.Italic | EntityType.Bold | EntityType.Semibold
  | EntityType.Underline | EntityType.Spoiler | EntityType.StrikeOut
  | EntityType.Code | EntityType.Pre | EntityType.Blockquote
  | EntityType.CustomEmoji => true
  | _ => false
  end.

(** The entities of a list that come from links: those of the other
    types. *)
Definition linkEntities (l : list EntityInText) : list EntityInText :=
  filter (fun e => negb (styleType (e_type e))) l.

(** The handler of link [index], if there is one, gives its entity no
    style type. *)
Definition linkTyped (s : String) (index : Z) : Prop :=
  forall h, linkAt s index = Some h -> styleType (h_type h) = false.

(** So do the handlers of the links of all blocks (a monospace block
    counts as a block without link, see [blockLinkIndex]). *)
Definition linksTyped (s : String) : Prop :=
  Forall (fun b => linkTyped s (blockLinkIndex s (Some b))) (_blocks s).

(** The entity that a link run leaves in the extraction of a selection,
    [textEnd] being where the extracted text ends: none unless the
    selection covers the whole run and the link is not internal, else
    the entity of the link, which spans the run in the extracted
    text. *)
Definition runEntityAt (textEnd : Z) (s : String) (selection : TextSelection)
    (run : LinkRun) : list EntityInText :=
  if runMet selection (run_from run) (run_to run)
     && runCovered selection (run_from run) (run_to run)
  then
    match linkAt s (run_link run) with
    | Some h =>
        if internalLink h then []
        else [linkEntity h (run_from run - from selection)
                (Z.min (run_to run) textEnd - from selection)]
    | None => []
    end
  else [].

(** The same for the whole string: the extracted text ends at a final
    skip block, or with the text. *)
Definition runEntity (s : String) (selection : TextSelection) (run : LinkRun)
  : list EntityInText :=
  runEntityAt (extentEnd s (_blocks s)) s selection run.

(** What a finish callback of [toText] adds to the entities. *)
Definition finishEntity (handler : option ClickHandler) (linkStart textSize : Z)
  : list EntityInText :=
  match handler with
  | Some h => if internalLink h then [] else [linkEntity h linkStart textSize]
  | None => []
  end.

(** A state of the callbacks of [toText] seen through its links: the
    size of the text, the start of the open link and the entities of
    links, in any order. *)
Definition linkView (st : ToTextState) (textSize linkStart : Z)
    (entities : list EntityInText) : Prop :=
  size (textOf st) = textSize /\
  tt_linkStart st = linkStart /\
  Permutation (linkEntities (rich_entities (tt_result st))) entities /\
  Forall (fun t => styleType (tr_type t) = true) (tt_trackers st).

(** The size of the text extracted before position [p], the extracted
    text ending at [textEnd]. *)
Definition extractedBefore (selection : TextSelection) (textEnd p : Z) : Z :=
  Z.max 0 (Z.min (to selection) (Z.min p textEnd) - from selection).

(** A text without framed paragraphs: every paragraph index is 0. *)
Definition unframed (s : String) : Prop :=
  _startParagraphIndex s = 0 /\
  Forall (fun b => b_type b = TextBlockType.Newline -> b_paragraphIndex b = 0)
    (_blocks s).

Definition lineSizes (out : list Line) : list (QFixed * Z) :=
  map (fun l => (lineWidth l, lineHeight l)) out.

(** The line breaker at the available width [width] has kept pace with
    the natural-size pass. *)
Definition inStep (width : QFixed) (n : NaturalState) (st : LineState) : Prop :=
  n_pindex n = 0 /\ n_ppadding n = noMargins /\
  l_pindex st = 0 /\ l_ppadding st = noMargins /\
  l_widthLeft st = width - n_width n /\
  l_lineHeight st = n_lineHeight n /\
  l_last_rBearing st = n_last_rBearing n /\
  l_last_rPadding st = n_last_rPadding n /\
  n_minHeight n = sumLineHeights (lineSizes (l_out st)).

(** A line with a width holds the block processed last, and is at least
    as high. *)
Definition lineHolds (prev : option Block) (n : NaturalState) : Prop :=
  0 <= n_lineHeight n /\
  (n_width n <> 0 ->
   exists b, prev = Some b /\ b_height b <= n_lineHeight n).

(** ** Sample data *)

Module Sample.
Definition framing : ParagraphStyle :=
  mkParagraphStyle (mkMargins 8 4 8 4) 0 0.

Definition style : TextStyle := mkTextStyle framing framing 16.

(** A text block of one word, [w] pixels wide. *)
Definition word (position w : Z) : Block :=
  mkBlock TextBlockType.Text position 0 0 (QFixed_ofInt w) 0 0 16 0
    [mkWord (QFixed_ofInt w) 0 0] [].

Definition plain (text : string) (blocks : list Block) : String :=
  mkString style (qstr text) blocks None 0 0 0 0 false false.

(** A text block of one word that belongs to link [lnk]. *)
Definition linked (position w lnk : Z) : Block :=
  mkBlock TextBlockType.Text position 0 lnk (QFixed_ofInt w) 0 0 16 0
    [mkWord (QFixed_ofInt w) 0 0] [].

Definition withLinks (text : string) (blocks : list Block)
    (handlers : list (option ClickHandler)) : String :=
  mkString style (qstr text) blocks (Some (mkExtended handlers [])) 0 0 0 0
    false false.

(** "one two": two links, one word each, with a plain space between. *)
Definition twoLinks : String :=
  withLinks "one two" [linked 0 30 1; word 3 4; linked 4 30 2]
    [Some (mkHandler EntityType.CustomUrl (qstr "https://a.example"));
     Some (mkHandler EntityType.CustomUrl (qstr "https://b.example"))].

(** "here", a link into the application. *)
Definition internalHere : String :=
  withLinks "here" [linked 0 30 1]
    [Some (mkHandler EntityType.CustomUrl (qstr "internal:settings"))].


(** "ab" followed by a skip block of 10 by 5 pixels. *)
Definition withSkip : String :=
  plain "ab_" [word 0 20; Block_Skip 2 10 5 0 0].

(** "ab", one block, bold and italic. *)
Definition boldItalic : String :=
  plain "ab"
    [mkBlock TextBlockType.Text 0
       (Z.lor TextBlockFlag.Bold TextBlockFlag.Italic) 0 (QFixed_ofInt 20)
       0 0 16 0 [mkWord (QFixed_ofInt 20) 0 0] []].

(** "Hello", one word of 20 pixels, inside a pre paragraph that starts
    the text. *)
Definition framedHello : String :=
  mkString style (qstr "Hello") [word 0 20]
    (Some (mkExtended [] [mkParagraphDetails true])) 0 0 0 1 false false.

(** [framedHello] after [recountNaturalSize]. *)
Definition framedHelloSized : String :=
  mkString style (qstr "Hello") [word 0 20]
    (Some (mkExtended [] [mkParagraphDetails true])) 0 36 28 1 true false.

(** "ab cd": two words of 30 pixels, the first one followed by a space
    of 4 pixels, sized by [recountNaturalSize]. *)
Definition twoWordsSized : String :=
  mkString style (qstr "ab cd")
    [mkBlock TextBlockType.Text 0 0 0 (QFixed_ofInt 64) 0 0 16 0
       [mkWord (QFixed_ofInt 30) 0 (QFixed_ofInt 4);
        mkWord (QFixed_ofInt 30) 0 0] []]
    None 0 64 16 0 false false.
End Sample.

(** ** toTextForMimeData *)

(** [toTextForMimeData(selection)]: both texts and the entities. *)
Definition toTextForMimeData EncodeForOpening std_sort (s : String)
    (selection : TextSelection) : TextForMimeData :=
  toText EncodeForOpening std_sort true true s selection.

(** ** countMaxMonospaceWidth *)

(** The locals of [countMaxMonospaceWidth] that live across iterations. *)
Record MonoState := mkMono {
  mo_result : QFixed;
  mo_paragraphWidth : QFixed;
  mo_fullMonospace : bool;
  mo_width : QFixed;
  mo_last_rBearing : QFixed;
  mo_last_rPadding : QFixed
}.

(** One iteration of the loop over the blocks. *)
Definition monoStep (m : MonoState) (b : Block) : MonoState :=
  if TextBlockType.eqb (b_type b) TextBlockType.Newline then
    let last_rBearing := b_rbearing b in
    let last_rPadding := b_rpadding b in
    let '(result, paragraphWidth) :=
      if mo_fullMonospace m then
        let paragraphWidth := Z.max (mo_paragraphWidth m) (mo_width m) in
        (Z.max (mo_result m) paragraphWidth, 0)
      else (mo_result m, mo_paragraphWidth m) in
    mkMono result paragraphWidth true (b_width b - last_rBearing)
      last_rBearing last_rPadding
  else
    let fullMonospace :=
      if (Z.land (b_flags b) (Z.lor TextBlockFlag.Pre TextBlockFlag.Code) =? 0)
         && negb (TextBlockType.eqb (b_type b) TextBlockType.Skip)
      then false else mo_fullMonospace m in
    let b__f_rbearing := b_rbearing b in
    let paragraphWidth :=
      if fullMonospace then Z.max (mo_paragraphWidth m) (mo_width m)
      else mo_paragraphWidth m in
    mkMono (mo_result m) paragraphWidth fullMonospace
      (mo_width m + (mo_last_rBearing m
                     + (mo_last_rPadding m + b_width b - b__f_rbearing)))
      b__f_rbearing (b_rpadding b).

(** [countMaxMonospaceWidth()]: the loop, then the last paragraph. *)
Definition countMaxMonospaceWidth (s : String) : Z :=
  let m := fold_left monoStep (_blocks s) (mkMono 0 0 true 0 0 0) in
  let result :=
    if (0 <? mo_width m) && mo_fullMonospace m then
      Z.max (mo_result m) (Z.max (mo_paragraphWidth m) (mo_width m))
    else mo_result m in
  QFixed_toInt (QFixed_ceil result).

(** ** countLineWidths *)

(** The options of [countLineWidths] that the function reads;
    [lw_reserve] only sizes the result vector in advance. *)
Record LineWidthsOptions := mkLineWidthsOptions {
  lw_breakEverywhere : bool;
  lw_reserve : Z
}.

(** [countLineWidths(width, options)]: the rounded width of every line
    of the line breaker, which runs whatever the width. *)
Definition countLineWidths (s : String) (width : Z)
    (options : LineWidthsOptions) : Outcome (list Z) :=
  lines <- enumerateLines s width (lw_breakEverywhere options) ;;
  Done (map (fun l : QFixed * Z => QFixed_toInt (QFixed_ceil (fst l))) lines).

(** ** SimpleGeometry *)

(** The fields of [LineGeometry] that [SimpleGeometry] reads or writes;
    its layouts copy the line they are given and leave every other field
    as it is. *)
Record LineGeometry := mkLineGeometry {
  line_top : Z;
  line_width : Z;
  line_elided : bool
}.

Record GeometryDescriptor := mkGeometryDescriptor {
  layout : LineGeometry -> LineGeometry;
  g_breakEverywhere : bool
}.

Definition SimpleGeometry (availableWidth fontHeight elisionHeight
    elisionRemoveFromEnd : Z) (elisionOneLine elisionBreakEverywhere : bool)
  : GeometryDescriptor :=
  let wrap layout breakEverywhere :=
    mkGeometryDescriptor layout breakEverywhere in
  if negb elisionOneLine && (elisionHeight =? 0) then
    wrap (fun line =>
            mkLineGeometry (line_top line) availableWidth (line_elided line))
      false
  else if elisionOneLine then
    wrap (fun line =>
            mkLineGeometry (line_top line)
              (availableWidth - elisionRemoveFromEnd) true)
      elisionBreakEverywhere
  else if elisionRemoveFromEnd =? 0 then
    wrap (fun line =>
            let elided :=
              if elisionHeight <? line_top line + fontHeight * 2 then true
              else line_elided line in
            mkLineGeometry (line_top line) availableWidth elided)
      false
  else
    wrap (fun line =>
            if elisionHeight <? line_top line + fontHeight * 2 then
              mkLineGeometry (line_top line)
                (availableWidth - elisionRemoveFromEnd) true
            else
              mkLineGeometry (line_top line) availableWidth
                (line_elided line))
      false.

(** What [getStateElided] reads of its request: the number of lines, the
    width to leave free at the end and the break-everywhere flag. *)
Record StateRequestElided := mkStateRequestElided {
  req_lines : Z;
  req_removeFromEnd : Z;
  req_breakEverywhere : bool
}.

(** The geometry that [getStateElided] hands to the renderer for a
    string that is not empty ([fontHeight] is [_st->font->height]). *)
Definition getStateElided_geometry (fontHeight width : Z)
    (request : StateRequestElided) : GeometryDescriptor :=
  SimpleGeometry width fontHeight
    (if 1 <? req_lines request then req_lines request * fontHeight else 0)
    (req_removeFromEnd request)
    (req_lines request =? 1)
    (req_breakEverywhere request).

(** ** SpoilerMessCache *)

(** A colour, by its value. *)
Definition QColor := Z.

(** [Ui::SpoilerMessCached(DefaultTextSpoilerMask(), color)]: the
    rendered spoiler animation frames, which are determined by the
    colour. *)
Record SpoilerMessCached := mkSpoilerMessCached { mess_color : QColor }.

Module SpoilerMessCache.
Record Entry := mkEntry { mess : SpoilerMessCached; color : QColor }.

Record t := mk { _cache : list Entry; _capacity : Z }.

(** The constructor: [Expects(capacity > 0)]. *)
Definition create (capacity : Z) : Outcome t :=
  if 0 <? capacity then Done (mk [] capacity) else ExpectsViolated.

(** The loop of [lookup]: the index of the first entry of the colour. *)
Fixpoint find (c : QColor) (cache : list Entry) : option nat :=
  match cache with
  | [] => None
  | entry :: rest =>
      if color entry =? c then Some 0%nat else option_map S (find c rest)
  end.

(** [lookup(color)]: the entry of the colour, as its index in [_cache]
    (the source returns a pointer to it), and the cache afterwards. A
    failed [Assert] is fatal like a failed [Expects]. The capacity is
    positive by the constructor, so the comparison of the size with it
    is that of the integers. *)
Definition lookup (c : t) (col : QColor) : Outcome (nat * t) :=
  match find col (_cache c) with
  | Some i => Done (i, c)
  | None =>
      if Z.of_nat (List.length (_cache c)) <? _capacity c then
        Done (List.length (_cache c),
              mk (_cache c ++ [mkEntry (mkSpoilerMessCached col) col])
                (_capacity c))
      else ExpectsViolated
  end.

Definition reset (c : t) : t := mk [] (_capacity c).
End SpoilerMessCache.

(** ** setLink *)

(** [v[i] = x] on a vector, for an index inside it. *)
Fixpoint assign {A : Type} (v : list A) (i : nat) (x : A) : list A :=
  match v, i with
  | [], _ => []
  | _ :: rest, O => x :: rest
  | y :: rest, S k => y :: assign rest k x
  end.

(** [setLink(index, link)]: links are numbered from 1. *)
Definition setLink (s : String) (index : Z) (link : option ClickHandler)
  : String :=
  match _extended s with
  | Some extended =>
      if (0 <? index)
         && (index <=? Z.of_nat (List.length (links extended))) then
        mkString (_st s) (_text s) (_blocks s)
          (Some (mkExtended
                   (assign (links extended) (Z.to_nat (index - 1)) link)
                   (paragraphs extended)))
          (_minResizeWidth s) (_maxWidth s) (_minHeight s)
          (_startParagraphIndex s) (_endsWithParagraphDetails s)
          (_skipBlockAddedNewline s)
      else s
  | None => s
  end.

(** ** More character classes *)

(** [IsBad]; [isMac] is [Platform::IsMac()]. *)
Definition IsBad (isMac : bool) (ch : QChar) : bool :=
  (ch =? 0)
  || ((8232 <=? ch) && (ch <? 8237))
  || ((65024 <=? ch) && (ch <? 65040) && negb (ch =? 65039))
  || ((127 <=? ch) && (ch <? 160) && negb (ch =? 156))
  || (isMac && (ch =? 6158)).

(** The cases of the [switch] of [IsAlmostLinkEnd]: question mark, comma,
    full stop, quotation mark, colon, exclamation mark and apostrophe. *)
Definition IsAlmostLinkEnd (ch : QChar) : bool :=
  existsb (Z.eqb ch) [63; 44; 46; 34; 58; 33; 39].

Definition IsNewline (ch : QChar) : bool := (ch =? LineFeed) || (ch =? 156).

(** Qt's [QChar::isLowSurrogate] and [QChar::isHighSurrogate], the
    member functions on a code unit. *)
Definition QChar_isLowSurrogate (ch : QChar) : bool :=
  Z.land ch 64512 =? 56320.

Definition QChar_isHighSurrogate (ch : QChar) : bool :=
  Z.land ch 64512 =? 55296.

Definition IsLinkEnd (isMac : bool) (ch : QChar) : bool :=
  IsBad isMac ch
  || IsSpace ch
  || IsNewline ch
  || QChar_isLowSurrogate ch
  || QChar_isHighSurrogate ch.

Definition IsReplacedBySpace (ch : QChar) : bool :=
  (ch <=? 2)
  || ((7 <=? ch) && (ch <=? 9))
  || ((11 <=? ch) && (ch <=? 31))
  || (ch =? 819)
  || (ch =? 831)
  || (ch =? 778)
  || ((8232 <=? ch) && (ch <=? 8237)).

Definition IsTrimmed (isMac : bool) (ch : QChar) : bool :=
  IsSpace ch || IsBad isMac ch.

(** ** The paint cache of a framed paragraph *)

(** [QRect(left, top, width, height)]. *)
Record QRect := mkQRect { r_left : Z; r_top : Z; r_width : Z; r_height : Z }.

(** What is painted into the corner image, in order. *)
Inductive ImagePaint :=
| FillTransparent
| SetHighQuality
| SetPenNone
| SetBrush (color : QColor)
| SetClipRect (x y w h : Z)
| DrawRoundedRect (x y w h xRadius yRadius : Z)
| PaintIcon (left top outerw : Z) (color : QColor).

(** A [QImage]: a null image has no pixels and the ratio 1. *)
Record QImage := mkQImage {
  image_null : bool;
  image_width : Z;
  image_height : Z;
  image_devicePixelRatio : Z;
  image_painted : list ImagePaint
}.

Definition QImage_null : QImage := mkQImage true 0 0 1 [].

(** [QImage(size, format)]: null unless both sides are positive. A null
    image cannot be painted on and keeps the ratio 1. *)
Definition QImage_sized (w h : Z) : QImage :=
  if (0 <? w) && (0 <? h) then mkQImage false w h 1 [] else QImage_null.

(** The fields of [style::ParagraphStyle] that only the painting reads:
    the corner radius, the outline width, the size of the icon (none for
    an empty icon) and its position. The header height is that of the
    layout. *)
Record ParagraphPaint := mkParagraphPaint {
  paint_style : ParagraphStyle;
  paint_radius : Z;
  paint_outline : Z;
  paint_icon : option (Z * Z);
  paint_iconPosition : Z * Z
}.

Record BlockPaintCache := mkBlockPaintCache {
  cache_bg : QColor;
  cache_outline : QColor;
  cache_header : QColor;
  cache_icon : QColor;
  cache_bgCached : QColor;
  cache_outlineCached : QColor;
  cache_headerCached : QColor;
  cache_iconCached : QColor;
  cache_corners : QImage
}.

(** The condition under which [ValidateBlockPaintCache] returns at
    once. *)
Definition blockPaintCacheValid (cache : BlockPaintCache)
    (st : ParagraphPaint) : bool :=
  negb (image_null (cache_corners cache))
  && (cache_bgCached cache =? cache_bg cache)
  && (cache_outlineCached cache =? cache_outline cache)
  && ((header (paint_style st) =? 0)
      || (cache_headerCached cache =? cache_header cache))
  && (match paint_icon st with None => true | Some _ => false end
      || (cache_iconCached cache =? cache_icon cache)).

(** [std::max({ header, radius, outline, iconsize })]. *)
Definition cornerSize (st : ParagraphPaint) : Z :=
  let iconsize :=
    match paint_icon st with
    | Some (w, h) =>
        Z.max (w + fst (paint_iconPosition st)) (h + snd (paint_iconPosition st))
    | None => 0
    end in
  Z.max (Z.max (Z.max (header (paint_style st)) (paint_radius st))
           (paint_outline st))
    iconsize.

(** [ValidateBlockPaintCache(cache, st)]; [lineWidth] is [st::lineWidth]
    and [ratio] is [style::DevicePixelRatio()]. *)
Definition ValidateBlockPaintCache (lineWidth ratio : Z)
    (cache : BlockPaintCache) (st : ParagraphPaint) : BlockPaintCache :=
  if blockPaintCacheValid cache st then cache
  else
    let headerCached :=
      if negb (header (paint_style st) =? 0) then cache_header cache
      else cache_headerCached cache in
    let iconCached :=
      match paint_icon st with
      | Some _ => cache_icon cache
      | None => cache_iconCached cache
      end in
    let radius := paint_radius st in
    let header_ := header (paint_style st) in
    let outline := paint_outline st in
    let corner := cornerSize st in
    let middle := lineWidth in
    let side := 2 * corner + middle in
    let image := QImage_sized (side * ratio) (side * ratio) in
    let painted :=
      [FillTransparent; SetHighQuality; SetPenNone]
      ++ (if negb (header_ =? 0) then
            [SetBrush (cache_header cache);
             SetClipRect outline 0 (side - outline) header_;
             DrawRoundedRect 0 0 side (corner + radius) radius radius]
          else [])
      ++ (if negb (outline =? 0) then
            [SetBrush (cache_outline cache);
             SetClipRect 0 0 outline side;
             DrawRoundedRect 0 0 (outline + radius * 2) side radius radius]
          else [])
      ++ [SetBrush (cache_bg cache);
          SetClipRect outline header_ (side - outline) (side - header_);
          DrawRoundedRect 0 0 side side radius radius]
      ++ match paint_icon st with
         | Some (w, _) =>
             [PaintIcon (side - w - fst (paint_iconPosition st))
                (snd (paint_iconPosition st)) side (cache_icon cache)]
         | None => []
         end in
    mkBlockPaintCache (cache_bg cache) (cache_outline cache)
      (cache_header cache) (cache_icon cache)
      (cache_bg cache) (cache_outline cache) headerCached iconCached
      (if image_null image then QImage_null
       else mkQImage false (image_width image) (image_height image) ratio
              painted).

Record SkipBlockPaintParts := mkSkipBlockPaintParts {
  skipTop : bool;
  skipBottom : bool
}.

(** What [FillBlockPaint] asks of the painter. *)
Inductive PaintCommand :=
| DrawImage (target source : QRect)
| FillRect (rect : QRect) (color : QColor).

(** [(iheight - imiddle) / 2] for the image of the cache: the side of a
    corner piece. *)
Definition cornerHalf (lineWidth : Z) (image : QImage) : Z :=
  let ratio := image_devicePixelRatio image in
  let iheight := Z.quot (image_height image) ratio in
  Z.quot (iheight - lineWidth) 2.

(** [FillBlockPaint(p, rect, cache, st, parts)]: the commands to the
    painter, in order. *)
Definition FillBlockPaint (lineWidth : Z) (rect : QRect)
    (cache : BlockPaintCache) (st : ParagraphPaint)
    (parts : SkipBlockPaintParts) : list PaintCommand :=
  let image := cache_corners cache in
  let ratio := image_devicePixelRatio image in
  let iwidth := Z.quot (image_width image) ratio in
  let iheight := Z.quot (image_height image) ratio in
  let imiddle := lineWidth in
  let ihalf := Z.quot (iheight - imiddle) 2 in
  let x := r_left rect in
  let width := r_width rect in
  let y := r_top rect in
  let height := r_height rect in
  let middle := width - 2 * ihalf in
  let top := Z.min height ihalf in
  let topPart :=
    if negb (skipTop parts) then
      [DrawImage (mkQRect x y ihalf top)
         (mkQRect 0 0 (ihalf * ratio) (top * ratio));
       DrawImage (mkQRect (x + width - ihalf) y ihalf top)
         (mkQRect ((iwidth - ihalf) * ratio) 0 (ihalf * ratio) (top * ratio))]
      ++ (if negb (middle =? 0) then
            let header_ := header (paint_style st) in
            let fillHeader := Z.min header_ top in
            (if negb (fillHeader =? 0) then
               [FillRect (mkQRect (x + ihalf) y middle fillHeader)
                  (cache_header cache)]
             else [])
            ++ (let fillBody := top - fillHeader in
                if negb (fillBody =? 0) then
                  [FillRect (mkQRect (x + ihalf) (y + fillHeader) middle
                               fillBody)
                     (cache_bg cache)]
                else [])
          else [])
    else [] in
  let height1 := if negb (skipTop parts) then height - top else height in
  let y1 := if negb (skipTop parts) then y + top else y in
  if negb (skipTop parts) && (height1 =? 0) then topPart
  else
    let bottom := Z.min height1 ihalf in
    let bottomPart :=
      if negb (skipBottom parts) then
        [DrawImage (mkQRect x (y1 + height1 - bottom) ihalf bottom)
           (mkQRect 0 ((iheight - bottom) * ratio) (ihalf * ratio)
              (bottom * ratio));
         DrawImage
           (mkQRect (x + width - ihalf) (y1 + height1 - bottom) ihalf bottom)
           (mkQRect ((iwidth - ihalf) * ratio) ((iheight - bottom) * ratio)
              (ihalf * ratio) (bottom * ratio))]
        ++ (if negb (middle =? 0) then
              [FillRect
                 (mkQRect (x + ihalf) (y1 + height1 - bottom) middle bottom)
                 (cache_bg cache)]
            else [])
      else [] in
    let height2 :=
      if negb (skipBottom parts) then height1 - bottom else height1 in
    if negb (skipBottom parts) && (height2 =? 0) then topPart ++ bottomPart
    else
      let outline := paint_outline st in
      topPart ++ bottomPart
      ++ (if negb (outline =? 0) then
            [FillRect (mkQRect x y1 outline height2) (cache_outline cache)]
          else [])
      ++ [FillRect (mkQRect (x + outline) y1 (width - outline) height2)
            (cache_bg cache)].

(** ** StringDirection *)

Inductive LayoutDirection := LeftToRight | RightToLeft | LayoutDirectionAuto.

(** [QChar::Direction], the bidirectional classes of Unicode. *)
Inductive QCharDirection :=
| DirL | DirR | DirEN | DirES | DirET | DirAN | DirCS | DirB | DirS | DirWS
| DirON | DirLRE | DirLRO | DirAL | DirRLE | DirRLO | DirPDF | DirNSM | DirBN
| DirLRI | DirRLI | DirFSI | DirPDI.

(** Qt's [QChar::isHighSurrogate], [QChar::isLowSurrogate] and
    [QChar::surrogateToUcs4], the static functions on code points. *)
Definition isHighSurrogate (ucs4 : Z) : bool :=
  Z.land ucs4 4294966272 =? 55296.

Definition isLowSurrogate (ucs4 : Z) : bool :=
  Z.land ucs4 4294966272 =? 56320.

Definition surrogateToUcs4 (high low : Z) : Z :=
  Z.shiftl high 10 + low - 56613888.

Section StringDirection.
(** [QChar::direction(ucs4)], the table of the Unicode database. *)
Variable direction : Z -> QCharDirection.

(** The loop of [StringDirection], [p] and [end_] being indices into
    [str]; every iteration moves [p] on, so [end_ - p] steps suffice. *)
Fixpoint StringDirectionLoop (fuel : nat) (str : QString) (p end_ : Z)
  : LayoutDirection :=
  match fuel with
  | O => LayoutDirectionAuto
  | S fuel' =>
      if p <? end_ then
        let ucs4 := at_ str p in
        let '(ucs4, p) :=
          if isHighSurrogate ucs4 && (p <? end_ - 1) then
            let low := at_ str (p + 1) in
            if isLowSurrogate low then (surrogateToUcs4 ucs4 low, p + 1)
            else (ucs4, p)
          else (ucs4, p) in
        match direction ucs4 with
        | DirL => LeftToRight
        | DirR | DirAL => RightToLeft
        | _ => StringDirectionLoop fuel' str (p + 1) end_
        end
      else LayoutDirectionAuto
  end.

Definition StringDirection (str : QString) (from to : Z) : LayoutDirection :=
  StringDirectionLoop (Z.to_nat (to - from)) str from to.

(** The code points that a run of UTF-16 code units encodes, a
    surrogate without its partner standing for itself. *)
Fixpoint codePoints (units : list QChar) : list Z :=
  match units with
  | [] => []
  | high :: rest =>
      match rest with
      | low :: rest' =>
          if isHighSurrogate high && isLowSurrogate low
          then surrogateToUcs4 high low :: codePoints rest'
          else high :: codePoints rest
      | [] => [high]
      end
  end.

(** The direction of the first code point of a strong class. *)
Fixpoint firstStrong (points : list Z) : LayoutDirection :=
  match points with
  | [] => LayoutDirectionAuto
  | ucs4 :: rest =>
      match direction ucs4 with
      | DirL => LeftToRight
      | DirR | DirAL => RightToLeft
      | _ => firstStrong rest
      end
  end.
End StringDirection.

(** ** Emoji-only strings *)

(** The members of [String] that only the functions of this part read:
    the three flags that the parser sets, and whether [_extended] holds
    spoiler data. *)
Record EmojiFlags := mkEmojiFlags {
  _hasCustomEmoji : bool;
  _isIsolatedEmoji : bool;
  _isOnlyCustomEmoji : bool;
  spoiler : bool
}.

Definition hasSpoilers (s : String) (f : EmojiFlags) : bool :=
  match _extended s with
  | Some _ => spoiler f
  | None => false
  end.

Definition hasPersistentAnimation (s : String) (f : EmojiFlags) : bool :=
  _hasCustomEmoji f || hasSpoilers s f.

(** [result.lines.back().push_back(item)]. *)
Definition pushToLast (lines : list (list QString)) (item : QString)
  : list (list QString) :=
  removelast lines ++ [last lines [] ++ [item]].

(** [toOnlyCustomEmoji()]: the lines of custom emoji, each item by its
    entity data; no line at all for a string that is not flagged. *)
Definition toOnlyCustomEmoji (s : String) (f : EmojiFlags)
  : list (list QString) :=
  if negb (_isOnlyCustomEmoji f) then []
  else
    fold_left
      (fun lines raw =>
         if TextBlockType.eqb (b_type raw) TextBlockType.CustomEmoji then
           pushToLast lines (b_entityData raw)
         else if TextBlockType.eqb (b_type raw) TextBlockType.Newline then
           lines ++ [[]]
         else lines)
      (_blocks s) [[]].

(** An item of [IsolatedEmoji]: nothing, an emoji or the entity data of
    a custom emoji. *)
Inductive IsolatedItem :=
| ItemNone
| ItemEmoji (emoji : Z)
| ItemCustom (entityData : QString).

Section IsolatedEmoji.
(** [kIsolatedEmojiLimit], the length of [IsolatedEmoji::items]. *)
Variable kIsolatedEmojiLimit : nat.
(** [EmojiBlock::_emoji] of an emoji block. *)
Variable _emoji : Block -> Z.

(** The loop of [toIsolatedEmoji]: the items that it writes, in the
    order of the writes (the write number [k] goes to [items[k]]), or
    [None] where it returns the empty result. *)
Fixpoint isolatedLoop (bs : list Block) (written : list IsolatedItem)
  : option (list IsolatedItem) :=
  match bs with
  | [] => Some written
  | block :: rest =>
      if negb (b_linkIndex block =? 0) then None
      else if TextBlockType.eqb (b_type block) TextBlockType.Emoji then
        isolatedLoop rest (written ++ [ItemEmoji (_emoji block)])
      else if TextBlockType.eqb (b_type block) TextBlockType.CustomEmoji then
        isolatedLoop rest (written ++ [ItemCustom (b_entityData block)])
      else if negb (TextBlockType.eqb (b_type block) TextBlockType.Skip) then
        None
      else isolatedLoop rest written
  end.

(** [toIsolatedEmoji()]: the items written to [result.items], which
    holds [ItemNone] everywhere else. *)
Definition toIsolatedEmoji (s : String) (f : EmojiFlags)
  : list IsolatedItem :=
  if negb (_isIsolatedEmoji f) then []
  else
    let skip := if hasSkipBlock s then 1%nat else 0%nat in
    if (kIsolatedEmojiLimit + skip <? List.length (_blocks s))%nat
       || hasSpoilers s f
    then []
    else
      match isolatedLoop (_blocks s) [] with
      | Some written => written
      | None => []
      end.
End IsolatedEmoji.

(** ** More notions used by the statements *)

(** An entity lies inside a text of [n] characters. *)
Definition entityWithin (n : Z) (e : EntityInText) : Prop :=
  0 <= e_offset e /\ 0 <= e_length e /\ e_offset e + e_length e <= n.

(** No link of the string is a custom url. *)
Definition noCustomLinks (s : String) : Prop :=
  forall i h, linkAt s i = Some h -> h_type h <> EntityType.CustomUrl.

(** What the callbacks of [toText] keep true of their state: the
    entities, the start of the open link and the starts of the trackers
    lie inside the text gathered so far. *)
Definition stateWithin (st : ToTextState) : Prop :=
  Forall (entityWithin (size (textOf st))) (rich_entities (tt_result st)) /\
  0 <= tt_linkStart st <= size (textOf st) /\
  Forall (fun t => 0 <= tr_start t <= size (textOf st)) (tt_trackers st).

(** No block of the string is monospace. *)
Definition noMonoBlocks (s : String) : Prop :=
  Forall (fun b => IsMono (b_flags b) = false) (_blocks s).

(** The separator that a selection mode snaps to. *)
Definition modeSeparator (mode : TextSelectType) : QChar -> bool :=
  match mode with
  | Paragraphs => IsParagraphSeparator
  | _ => IsWordSeparator
  end.

(** A newline block has no width, right bearing or right padding. *)
Definition newlinesFlat (s : String) : Prop :=
  Forall (fun b => b_type b = TextBlockType.Newline ->
                   b_width b = 0 /\ b_rbearing b = 0 /\ b_rpadding b = 0)
    (_blocks s).

(** No block that holds content is monospace or a skip block. *)
Definition noMonoContent (s : String) : Prop :=
  Forall (fun b => b_type b <> TextBlockType.Newline ->
                   IsMono (b_flags b) = false /\
                   b_type b <> TextBlockType.Skip)
    (_blocks s).

(** The natural-size pass and the monospace pass, side by side. *)
Definition monoBelow (n : NaturalState) (m : MonoState) : Prop :=
  0 <= m_left (n_ppadding n) + m_right (n_ppadding n) /\
  n_width n
  = mo_width m + QFixed_ofInt (m_left (n_ppadding n) + m_right (n_ppadding n)) /\
  n_last_rBearing n = mo_last_rBearing m /\
  n_last_rPadding n = mo_last_rPadding m /\
  0 <= n_maxWidth n /\
  mo_paragraphWidth m <= n_maxWidth n /\
  mo_result m <= n_maxWidth n.

(** Every block that holds content is monospace or a skip block. *)
Definition allMonoContent (s : String) : Prop :=
  Forall (fun b => b_type b <> TextBlockType.Newline ->
                   IsMono (b_flags b) = true \/
                   b_type b = TextBlockType.Skip)
    (_blocks s).

(** The blocks that hold content have no right bearing, and neither
    their width nor their right padding is negative. *)
Definition plainAdvances (s : String) : Prop :=
  Forall (fun b => b_type b <> TextBlockType.Newline ->
                   b_rbearing b = 0 /\ 0 <= b_width b /\ 0 <= b_rpadding b)
    (_blocks s).

(** The two passes on a text without frames whose content is all
    monospace: the largest width so far is the same. *)
Definition monoAgrees (n : NaturalState) (m : MonoState) : Prop :=
  n_pindex n = 0 /\ n_ppadding n = noMargins /\
  mo_fullMonospace m = true /\
  n_width n = mo_width m /\
  n_last_rBearing n = 0 /\ mo_last_rBearing m = 0 /\
  n_last_rPadding n = mo_last_rPadding m /\ 0 <= mo_last_rPadding m /\
  n_maxWidth n = Z.max (mo_result m) (mo_paragraphWidth m) /\
  0 <= mo_result m /\ 0 <= mo_paragraphWidth m <= mo_width m.

(** No word of the string was cut into chunks. *)
Definition wholeWords (s : String) : Prop :=
  Forall (fun b => Forall (fun w => 0 <= w_width w) (b_words b)) (_blocks s).

(** The blocks of a type. *)
Definition blocksOfType (type : TextBlockType.t) (bs : list Block)
  : list Block :=
  filter (fun b => TextBlockType.eqb (b_type b) type) bs.

(** The number of newline blocks. *)
Definition hardBreaks (s : String) : nat :=
  List.length (blocksOfType TextBlockType.Newline (_blocks s)).

(** What holds of a cache between calls: no colour has two entries, the
    entries fit the capacity, and every entry holds the frames of its
    colour. *)
Definition cacheOk (c : SpoilerMessCache.t) : Prop :=
  NoDup (map SpoilerMessCache.color (SpoilerMessCache._cache c)) /\
  Z.of_nat (List.length (SpoilerMessCache._cache c))
  <= SpoilerMessCache._capacity c /\
  Forall (fun e => SpoilerMessCache.mess e
                   = mkSpoilerMessCached (SpoilerMessCache.color e))
    (SpoilerMessCache._cache c).

(** One [lookup] after the other. *)
Fixpoint lookupAll (c : SpoilerMessCache.t) (colors : list QColor)
  : Outcome SpoilerMessCache.t :=
  match colors with
  | [] => Done c
  | col :: rest =>
      r <- SpoilerMessCache.lookup c col ;; lookupAll (snd r) rest
  end.

(** [setLink] has a slot for the index. *)
Definition linkSlot (s : String) (index : Z) : bool :=
  match _extended s with
  | Some extended =>
      (0 <? index) && (index <=? Z.of_nat (List.length (links extended)))
  | None => false
  end.

(** The pixel [(px, py)] lies in the rectangle. *)
Definition inRect (r : QRect) (px py : Z) : bool :=
  (r_left r <=? px) && (px <? r_left r + r_width r)
  && (r_top r <=? py) && (py <? r_top r + r_height r).

(** The rectangle that a command paints. *)
Definition paintTarget (c : PaintCommand) : QRect :=
  match c with
  | DrawImage target _ => target
  | FillRect rect _ => rect
  end.

(** How many of the commands paint the pixel. *)
Fixpoint paintCount (cmds : list PaintCommand) (px py : Z) : nat :=
  match cmds with
  | [] => 0
  | c :: rest =>
      ((if inRect (paintTarget c) px py then 1 else 0)
       + paintCount rest px py)%nat
  end.

(** A copy from the image takes its pixels from inside the image, at the
    scale of the image. *)
Definition copyInside (image : QImage) (c : PaintCommand) : Prop :=
  match c with
  | DrawImage target source =>
      0 <= r_left source /\ 0 <= r_top source /\
      0 <= r_width source /\ 0 <= r_height source /\
      r_left source + r_width source <= image_width image /\
      r_top source + r_height source <= image_height image /\
      r_width source = r_width target * image_devicePixelRatio image /\
      r_height source = r_height target * image_devicePixelRatio image
  | FillRect _ _ => True
  end.

(** A cache that has not been painted yet. *)
Definition freshCache (bg outline header_ icon : QColor) : BlockPaintCache :=
  mkBlockPaintCache bg outline header_ icon 0 0 0 0 QImage_null.

(** The sizes of the string are those of its content: it is as
    [recountNaturalSize] leaves it. *)
Definition sized (s : String) : Prop := recountNaturalSize s = Done s.

(** ** More sample data *)

Module MoreSamples.
(** "see a.example": a plain word, then a url that is its own text. *)
Definition urlLink : String :=
  Sample.withLinks "see a.example" [Sample.word 0 30; Sample.linked 4 70 1]
    [Some (mkHandler EntityType.Url (qstr "a.example"))].

(** "ab cd", a line feed, "ef": two paragraphs in one text block. *)
Definition twoParagraphs : String :=
  mkString Sample.style [97; 98; 32; 99; 100; 10; 101; 102]
    [Sample.word 0 30] None 0 0 0 0 false false.

(** "ab": one code block of 20 pixels. *)
Definition code : String :=
  mkString Sample.style (qstr "ab")
    [mkBlock TextBlockType.Text 0 TextBlockFlag.Code 0 (QFixed_ofInt 20) 0 0
       16 0 [mkWord (QFixed_ofInt 20) 0 0] []]
    None 0 0 0 0 false false.

(** [code] after [recountNaturalSize]. *)
Definition codeSized : String :=
  mkString Sample.style (qstr "ab")
    [mkBlock TextBlockType.Text 0 TextBlockFlag.Code 0 (QFixed_ofInt 20) 0 0
       16 0 [mkWord (QFixed_ofInt 20) 0 0] []]
    None 0 20 16 0 false false.

(** "ab cd", two words of 30 pixels, sized. *)
Definition twoWords : String := Sample.twoWordsSized.

(** The classes of the ASCII letters and of the Hebrew block, every
    other character being neutral. *)
Definition direction (ucs4 : Z) : QCharDirection :=
  if ((65 <=? ucs4) && (ucs4 <=? 90)) || ((97 <=? ucs4) && (ucs4 <=? 122))
  then DirL
  else if (1424 <=? ucs4) && (ucs4 <=? 1535) then DirR
  else DirON.

(** A custom emoji of 20 pixels. *)
Definition customEmoji (position : Z) (data : string) : Block :=
  mkBlock TextBlockType.CustomEmoji position 0 0 (QFixed_ofInt 20) 0 0 20 0
    [] (qstr data).

(** A custom emoji, a newline, two custom emoji. *)
Definition threeCustom : String :=
  mkString Sample.style [55357; 56832; 10; 55357; 56833; 55357; 56834]
    [customEmoji 0 "a"; Block_Newline Sample.style 2 0 0 0;
     customEmoji 3 "b"; customEmoji 5 "c"]
    None 0 0 0 0 false false.
End MoreSamples.

(** * Properties *)

Unset Implicit Arguments.

(** ** Natural size and line breaking *)

(** The fixed-point value of a width from -33554432 up to 33554431 is
    its product by 64; that of any other width is not. *)
Lemma QFixed_ofInt32_fits (i : Z) :
  -33554432 <= i <= 33554431 -> QFixed_ofInt32 i = QFixed_ofInt i.
Proof.
  intros H. unfold QFixed_ofInt32, QFixed_ofInt, int32.
  rewrite Z.mod_small by lia. lia.
Qed.

Lemma QFixed_ofInt32_range (i : Z) :
  -2147483648 <= QFixed_ofInt32 i <= 2147483647.
Proof.
  unfold QFixed_ofInt32, int32.
  pose proof (Z.mod_pos_bound (i * 64 + 2147483648) 4294967296). lia.
Qed.

(** The test [QFixed(width) >= _maxWidth] for a width that is not below
    -33554432: it holds only if the width has reached [_maxWidth], and
    it holds for every such width up to 33554431. *)
(** The available width of [enumerateLines] for a width that passes
    the test. *)
Lemma shortCircuit_width (maxWidth minResizeWidth W : Z) :
  -33554432 <= W -> minResizeWidth <= 33554431 ->
  (QFixed_ofInt maxWidth <=? QFixed_ofInt32 W) = true ->
  QFixed_ofInt maxWidth <= QFixed_ofInt32 (Z.max W minResizeWidth).
Proof.
  intros Hlow Hmin H. apply Z.leb_le in H.
  destruct (Z.le_gt_cases minResizeWidth W) as [Hle|Hgt].
  - rewrite Z.max_l by lia. exact H.
  - rewrite Z.max_r by lia.
    rewrite QFixed_ofInt32_fits in H by lia.
    rewrite QFixed_ofInt32_fits by lia.
    unfold QFixed_ofInt in *. lia.
Qed.

Lemma shortCircuit_test (maxWidth W : Z) :
  -33554432 <= W ->
  ((QFixed_ofInt maxWidth <=? QFixed_ofInt32 W) = true -> maxWidth <= W) /\
  (maxWidth <= W <= 33554431 ->
   (QFixed_ofInt maxWidth <=? QFixed_ofInt32 W) = true).
Proof.
  intros Hlow. split.
  - intros H. apply Z.leb_le in H.
    destruct (Z.le_gt_cases W 33554431) as [Hfit|Hbig].
    + rewrite QFixed_ofInt32_fits in H by lia. unfold QFixed_ofInt in H. lia.
    + pose proof (QFixed_ofInt32_range W). unfold QFixed_ofInt in H. lia.
  - intros H. apply Z.leb_le.
    rewrite QFixed_ofInt32_fits by lia. unfold QFixed_ofInt. lia.
Qed.




(** C2. On a text that starts inside a framed paragraph the natural-size
    pass counts the top padding of that paragraph twice: for "Hello" in a
    pre paragraph it stores the minimum height 28, while the lines of the
    line breaker at the natural maximum width 36 add up to 24. *)
Theorem framed_start_minHeight_exceeds_lines :
  recountNaturalSize Sample.framedHello = Done Sample.framedHelloSized /\
  _maxWidth Sample.framedHelloSized = 36 /\
  _minHeight Sample.framedHelloSized = 28 /\
  enumerateLines Sample.framedHelloSized 36 false = Done [(36 * 64, 24)] /\
  sumLineHeights [(36 * 64, 24)] = 24.
Proof. repeat split; vm_compute; reflexivity. Qed.

(** C3. Through the same double count a narrower width gives a smaller
    height: "Hello" in a pre paragraph is 28 high at width 36 and 24 high
    at width 35. *)
Theorem framed_start_countHeight_not_monotone :
  35 <= 36 /\
  result (countHeight Sample.framedHelloSized 35 false) = Done 24 /\
  result (countHeight Sample.framedHelloSized 36 false) = Done 28.
Proof. repeat split; vm_compute; try reflexivity; discriminate. Qed.

Lemma land_minus64 (x : Z) : Z.land x (-64) = 64 * (x / 64).
Proof.
  change (-64) with (Z.lnot (Z.ones 6)).
  rewrite <- Z.ldiff_land, Z.ldiff_ones_r by lia.
  rewrite Z.shiftl_mul_pow2, Z.shiftr_div_pow2 by lia.
  change (2 ^ 6) with 64. lia.
Qed.

Lemma QFixed_ceil_toInt (v : QFixed) :
  v <= QFixed_ofInt (QFixed_toInt (QFixed_ceil v)).
Proof.
  unfold QFixed_ofInt, QFixed_toInt, QFixed_ceil.
  rewrite !land_minus64, Z.shiftr_div_pow2 by lia.
  change (2 ^ 6) with 64.
  pose proof (Z.div_mod (v + 63) 64 ltac:(lia)).
  pose proof (Z.mod_pos_bound (v + 63) 64 ltac:(lia)).
  set (q := (v + 63) / 64) in *.
  replace ((64 * q + 32) / 64) with q
    by (apply Z.div_unique with (r := 32); lia).
  replace (64 * q / 64) with q by (apply Z.div_unique with (r := 0); lia).
  lia.
Qed.

Lemma last_cons {A : Type} (x : A) (l : list A) (d : A) :
  last (x :: l) d = last l x.
Proof.
  revert x d. induction l as [|y l IH]; intros x d; [reflexivity|].
  change (last (x :: y :: l) d) with (last (y :: l) d).
  rewrite IH. symmetry. apply IH.
Qed.

Lemma sumLineHeights_snoc lines l :
  sumLineHeights (lines ++ [l]) = sumLineHeights lines + snd l.
Proof. unfold sumLineHeights. rewrite fold_left_app. reflexivity. Qed.

Lemma naturalStep_maxWidth s n b n' :
  naturalStep s n b = Done n' ->
  n_maxWidth n' = Z.max (n_maxWidth n) (n_width n).
Proof.
  unfold naturalStep.
  destruct (TextBlockType.eqb (b_type b) TextBlockType.Newline).
  - destruct (negb (n_pindex n =? _)).
    + destruct (paragraphByIndex s _); cbn [obind]; try discriminate.
      intros H. inversion H. reflexivity.
    + cbn [obind]. intros H. inversion H. reflexivity.
  - intros H. inversion H. reflexivity.
Qed.

(** The natural maximum width bounds the width reached after every
    block. *)
Lemma naturalLoop_bound s :
  forall bs n nf,
    naturalLoop s n bs = Done nf ->
    n_maxWidth n <= n_maxWidth nf /\
    n_width n <= Z.max (n_maxWidth nf) (n_width nf).
Proof.
  induction bs as [|b rest IH]; intros n nf H.
  - inversion H. subst. lia.
  - cbn [naturalLoop] in H.
    destruct (naturalStep s n b) as [n'| |] eqn:E; cbn [obind] in H;
      try discriminate.
    apply naturalStep_maxWidth in E. apply IH in H. lia.
Qed.

Lemma unframed_loops_agree s width be :
  forall bs bi n st prev nf,
    Forall (fun b => b_type b = TextBlockType.Newline ->
                     b_paragraphIndex b = 0) bs ->
    Forall (fun b => 0 <= b_height b) bs ->
    inStep width n st -> lineHolds prev n ->
    naturalLoop s n bs = Done nf ->
    Z.max (n_maxWidth nf) (n_width nf) <= width ->
    exists st',
      lineLoop s width be bi bs st = Done st' /\
      inStep width nf st' /\
      lineHolds (last (map Some bs) prev) nf.
Proof.
  induction bs as [|b rest IH];
    intros bi n st prev nf Hidx Hh Hstep Hholds Hloop Hfit.
  - inversion Hloop. subst. exists st. repeat split; try apply Hstep;
      apply Hholds.
  - inversion Hidx as [|? ? Hb Hidx']; subst.
    inversion Hh as [|? ? Hbh Hh']; subst.
    destruct Hstep as (Hp & Hpad & Hlp & Hlpad & Hwl & Hlh & Hrb & Hrp & Hmin).
    destruct Hholds as (Hlh0 & Hline).
    cbn [naturalLoop lineLoop] in *.
    unfold naturalStep in Hloop. unfold lineStep.
    unfold CountBlockHeight in *.
    destruct (TextBlockType.eqb (b_type b) TextBlockType.Newline) eqn:Enl.
    + (* a newline: both passes close the line *)
      assert (Ht : b_type b = TextBlockType.Newline)
        by (destruct (b_type b); simpl in Enl; congruence).
      unfold paragraphIndex in *. rewrite (Hb Ht) in *.
      rewrite Hp in Hloop. rewrite Hlp. cbn [Z.eqb negb obind] in *.
      rewrite Hpad in Hloop. rewrite Hlpad, Hlh.
      cbn [m_top m_bottom m_left m_right noMargins setTop] in *.
      set (n' := mkNatural _ _ _ _ _ _ _ _) in Hloop.
      match goal with
      | |- context [lineLoop s width be (S bi) rest ?x] => set (st1 := x)
      end.
      destruct (IH (S bi) n' st1 (Some b) nf Hidx' Hh') as (st' & H1 & H2 & H3);
        auto.
      * unfold inStep, n', st1. cbn [n_pindex n_ppadding l_pindex l_ppadding
          l_widthLeft l_lineHeight l_last_rBearing l_last_rPadding l_out
          n_width n_lineHeight n_last_rBearing n_last_rPadding n_minHeight].
        repeat split; try reflexivity; try (unfold QFixed_ofInt; lia); [].
        unfold lineSizes. rewrite map_app. cbn [map].
        rewrite sumLineHeights_snoc.
        cbn [snd lineHeight]. unfold lineSizes in Hmin. lia.
      * unfold lineHolds, n'. cbn. split; [lia|]. intros H. lia.
      * exists st'. split; [exact H1|]. split; [exact H2|].
        cbn [map]. rewrite last_cons. exact H3.
    + (* any other block fits *)
      set (n' := mkNatural _ _ _ _ _ _ _ _) in Hloop. cbn [obind] in Hloop.
      pose proof (naturalLoop_bound s rest n' nf Hloop) as [_ Hbound].
      assert (Hfits : 0 <= l_widthLeft st - l_last_rBearing st
                           - (l_last_rPadding st + b_width b - b_rbearing b)).
      { rewrite Hwl, Hrb, Hrp. unfold n' in Hbound. cbn in Hbound. lia. }
      destruct (Z.leb_spec 0 (l_widthLeft st - l_last_rBearing st
                              - (l_last_rPadding st + b_width b - b_rbearing b)));
        [|lia].
      cbn [obind].
      match goal with
      | |- context [lineLoop s width be (S bi) rest ?x] => set (st1 := x)
      end.
      destruct (IH (S bi) n' st1 (Some b) nf Hidx' Hh') as (st' & H1 & H2 & H3);
        auto.
      * unfold inStep, n', st1. cbn [n_pindex n_ppadding l_pindex l_ppadding
          l_widthLeft l_lineHeight l_last_rBearing l_last_rPadding l_out
          n_width n_lineHeight n_last_rBearing n_last_rPadding n_minHeight].
        repeat split; auto; try lia.
      * unfold lineHolds, n'. cbn. split; [lia|]. intros _.
        exists b. split; [reflexivity | lia].
      * exists st'. split; [exact H1|]. split; [exact H2|].
        cbn [map]. rewrite last_cons. exact H3.
Qed.

Lemma naturalStep_same s s' n b :
  _st s = _st s' -> _extended s = _extended s' ->
  naturalStep s n b = naturalStep s' n b.
Proof.
  intros Hst Hext. unfold naturalStep, paragraphByIndex, paragraphPadding.
  rewrite Hst, Hext. reflexivity.
Qed.

Lemma naturalLoop_same s s' bs :
  _st s = _st s' -> _extended s = _extended s' ->
  forall n, naturalLoop s n bs = naturalLoop s' n bs.
Proof.
  intros Hst Hext. induction bs as [|b rest IH]; intros n; [reflexivity|].
  simpl. rewrite (naturalStep_same s s' n b Hst Hext).
  destruct (naturalStep s' n b); simpl; auto.
Qed.

Lemma last_Some_In {A : Type} (l : list A) (x : A) :
  last (map Some l) None = Some x -> In x l.
Proof.
  induction l as [|y l IH]; [discriminate|].
  cbn [map]. rewrite last_cons. destruct l as [|z l].
  - simpl. intros H. inversion H. now left.
  - intros H. right. apply IH. cbn [map]. rewrite last_cons.
    cbn [map] in H. rewrite last_cons in H. exact H.
Qed.

(** On a text without framed paragraphs the two passes agree (what C2
    asks of every text): when the available width of the line breaker
    has reached the natural maximum width, the heights of its lines add
    up to the minimum height of the natural-size pass. *)
Lemma unframed_lines_sum_minHeight s s' W breakEverywhere :
  unframed s -> Forall (fun b => 0 <= b_height b) (_blocks s) ->
  recountNaturalSize s = Done s' ->
  QFixed_ofInt (_maxWidth s')
  <= QFixed_ofInt32 (Z.max W (_minResizeWidth s')) ->
  exists lines,
    enumerateLines s' W breakEverywhere = Done lines /\
    sumLineHeights lines = _minHeight s'.
Proof.
  intros [Hstart Hidx] Hh Hrecount HW.
  unfold recountNaturalSize, naturalSize, paragraphIndex in Hrecount.
  rewrite Hstart in Hrecount. cbn [paragraphByIndex Z.eqb obind] in Hrecount.
  cbn [paragraphPadding m_top m_left m_right noMargins] in Hrecount.
  set (n0 := mkNatural _ _ _ _ _ _ _ _) in Hrecount.
  destruct (naturalLoop s n0 (_blocks s)) as [nf| |] eqn:Eloop;
    cbn [obind] in Hrecount; try discriminate.
  set (sized := if 0 <? n_width nf then _ else _) in Hrecount.
  destruct sized as [minHeight maxWidth] eqn:Esized.
  injection Hrecount as Hs'.
  assert (Hsame : naturalLoop s' n0 (_blocks s) = Done nf).
  { rewrite <- Eloop. symmetry. apply naturalLoop_same; subst s'; reflexivity. }
  pose proof (naturalLoop_bound s (_blocks s) n0 nf Eloop) as [Hmax0 _].
  cbn [n0 n_maxWidth] in Hmax0.
  set (width := QFixed_ofInt32 (Z.max W (_minResizeWidth s'))) in *.
  assert (Hwide : Z.max (n_maxWidth nf) (n_width nf) <= width).
  { assert (Hraw : Z.max (n_maxWidth nf) (n_width nf) <= maxWidth).
    { unfold sized in Esized.
      destruct (Z.ltb_spec 0 (n_width nf)); inversion Esized; subst; lia. }
    pose proof (QFixed_ceil_toInt maxWidth) as Hceil.
    assert (_maxWidth s' = QFixed_toInt (QFixed_ceil maxWidth))
      by (subst s'; reflexivity).
    unfold QFixed_ofInt in *. lia. }
  destruct (unframed_loops_agree s' width breakEverywhere (_blocks s) 0%nat n0
              (mkLineState 0 noMargins width 0 0 0 true [] []) None nf)
    as (st & Hlines & Hstep & Hholds); auto.
  { unfold inStep, n0. cbn. repeat split; try reflexivity.
    unfold QFixed_ofInt. lia. }
  { unfold lineHolds, n0. cbn. split; [lia|]. intros H. contradiction. }
  unfold enumerateLines, enumerateLinesPlaced, paragraphIndex.
  assert (Hstart' : _startParagraphIndex s' = 0) by (subst s'; reflexivity).
  assert (Hblocks' : _blocks s' = _blocks s) by (subst s'; reflexivity).
  rewrite Hstart', Hblocks'.
  cbn [paragraphByIndex Z.eqb obind paragraphPadding m_left m_right noMargins].
  fold width.
  replace (width - QFixed_ofInt 0 - QFixed_ofInt 0) with width
    by (unfold QFixed_ofInt; lia).
  fold noMargins. rewrite Hlines. cbn [obind].
  destruct Hstep as (_ & Hpad & _ & Hlpad & Hwl & Hlh & _ & _ & Hmin).
  destruct Hholds as (Hlh0 & Hline).
  assert (HminHeight : _minHeight s' = minHeight) by (subst s'; reflexivity).
  rewrite HminHeight. unfold sized in Esized.
  destruct (Z.ltb_spec 0 (n_width nf)) as [Hpos|Hnone].
  - destruct (Z.ltb_spec (l_widthLeft st) width); [|lia].
    cbn [obind fst]. eexists. split; [reflexivity|].
    rewrite map_app. cbn [map]. rewrite sumLineHeights_snoc.
    cbn [snd lineHeight]. fold (lineSizes (l_out st)). rewrite <- Hmin.
    inversion Esized as [[Hm Hw]]. rewrite Hpad, Hlpad, Hlh.
    cbn [m_top m_bottom noMargins].
    destruct (Z.eqb_spec (n_lineHeight nf) 0) as [Hzero|]; [|lia].
    destruct Hline as (b & Hlast & Hb); [lia|].
    rewrite Hlast. unfold CountBlockHeight.
    assert (0 <= b_height b).
    { apply last_Some_In in Hlast.
      rewrite Forall_forall in Hh. apply Hh. exact Hlast. }
    lia.
  - destruct (Z.ltb_spec (l_widthLeft st) width); [lia|].
    cbn [obind fst]. eexists. split; [reflexivity|].
    fold (lineSizes (l_out st)). rewrite <- Hmin.
    inversion Esized. reflexivity.
Qed.

(** ** Selection adjustment *)

Lemma scanBack_le (sep : QChar -> bool) (text : QString) n : (scanBack sep text n <= n)%nat.
Proof.
  induction n as [|k IH]; simpl; [lia|].
  destruct (sep (nth k text 0)); lia.
Qed.

Lemma scanBack_fixed (sep : QChar -> bool) (text : QString) n :
  scanBack sep text (scanBack sep text n) = scanBack sep text n.
Proof.
  induction n as [|k IH]; simpl; [reflexivity|].
  destruct (sep (nth k text 0)) eqn:E; [|exact IH].
  simpl. rewrite E. reflexivity.
Qed.

Lemma scanBack_lands_in_word (sep : QChar -> bool) (text : QString) n :
  sep (nth n text (0 : QChar)) = false ->
  sep (nth (scanBack sep text n) text (0 : QChar)) = false.
Proof.
  induction n as [|k IH]; intros H; [exact H|].
  cbn [scanBack].
  destruct (sep (nth k text 0)) eqn:E; [exact H | apply IH; reflexivity].
Qed.

Lemma uint16_small z : 0 <= z <= 65535 -> uint16 z = z.
Proof. intros H. unfold uint16. apply Z.mod_small. lia. Qed.

(** The forward scan ends, within the budget, on the first separator at
    or after [to], or at the end of the text. *)
Lemma scanForward_done (sep : QChar -> bool) (text : QString) fuel t :
  size text <= 65535 -> 0 <= t ->
  (Z.to_nat (size text - t) <= fuel)%nat ->
  exists t', scanForward sep text fuel t = Done t' /\
             t <= t' <= Z.max t (size text) /\
             (t' < size text -> sep (at_ text t') = true) /\
             (t < size text -> sep (at_ text t) = false -> t < t').
Proof.
  intros Hsz. revert t.
  induction fuel as [|k IH]; intros t Ht Hfuel.
  - simpl. destruct (Z.ltb_spec t (size text)); [lia|].
    simpl. exists t. repeat split; try lia.
  - simpl. destruct (Z.ltb_spec t (size text)) as [Hlt|Hge]; simpl.
    + destruct (sep (at_ text t)) eqn:E; simpl.
      * exists t. repeat split; try lia; auto; congruence.
      * rewrite uint16_small by lia.
        destruct (IH (t + 1)) as (t' & H1 & H2 & H4 & H5); try lia.
        exists t'. repeat split; try lia; auto.
    + exists t. repeat split; try lia.
Qed.

Lemma at_nth (text : QString) i : 0 <= i -> at_ text i = nth (Z.to_nat i) text 0.
Proof. reflexivity. Qed.

(** What the word or paragraph adjustment makes of a range that passed
    the guard of [adjustSelection]. *)
Lemma snapTo_done (sep : QChar -> bool) (text : QString) f t :
  size text <= 65535 -> 0 <= f -> f <= t ->
  exists r, snapTo sep text f t = Done r /\
            0 <= from r <= f /\
            t <= to r /\
            (t <= size text -> to r <= size text) /\
            (t < size text -> t < to r) /\
            (size text <= t -> to r = t) /\
            (sep (at_ text (from r)) = sep (at_ text f)) /\
            (sep (at_ text f) = true -> from r = f) /\
            (sep (at_ text f) = false ->
             from r = Z.of_nat (scanBack sep text (Z.to_nat f))).
Proof.
  intros Hsz Hf Hft. unfold snapTo.
  set (f' := if negb (sep (at_ text f))
             then Z.of_nat (scanBack sep text (Z.to_nat f)) else f).
  assert (Hf' : 0 <= f' <= f).
  { unfold f'. destruct (sep (at_ text f)); simpl; [lia|].
    pose proof (scanBack_le sep text (Z.to_nat f)). lia. }
  assert (Hsep : sep (at_ text f') = sep (at_ text f)).
  { unfold f'. destruct (sep (at_ text f)) eqn:E; simpl; [exact E|].
    unfold at_. rewrite Nat2Z.id. apply scanBack_lands_in_word. exact E. }
  destruct (Z.ltb_spec t (size text)) as [Hlt|Hge].
  - destruct (sep (at_ text t)) eqn:Et.
    + simpl. rewrite uint16_small by lia.
      eexists; split; [reflexivity|]. simpl.
      repeat split; try lia; auto.
      * intros H. unfold f'. rewrite H. reflexivity.
      * intros H. unfold f'. rewrite H. reflexivity.
    + destruct (scanForward_done sep text (Z.to_nat (size text - t)) t)
        as (t' & H1 & H2 & H4 & H5); try lia.
      rewrite H1. simpl.
      eexists; split; [reflexivity|]. simpl.
      repeat split; try lia; auto.
      * intros H. unfold f'. rewrite H. reflexivity.
      * intros H. unfold f'. rewrite H. reflexivity.
  - simpl. eexists; split; [reflexivity|]. simpl.
    repeat split; try lia; auto.
    + intros H. unfold f'. rewrite H. reflexivity.
    + intros H. unfold f'. rewrite H. reflexivity.
Qed.

Lemma selection_eta (a b : TextSelection) :
  from a = from b -> to a = to b -> a = b.
Proof. destruct a, b; simpl; intros; subst; reflexivity. Qed.

(** The guard of [adjustSelection] and the clamp behind it. *)
Lemma adjustSelection_guarded enc srt s sel mode :
  from sel < size (_text s) -> from sel <= to sel -> isUint16 (to sel) ->
  adjustSelection enc srt s sel mode
  = match mode with
    | Paragraphs =>
        let '(r, returns) :=
          monoSnap enc srt s (from sel) (Z.min (to sel) (size (_text s))) in
        if returns then Done r
        else snapTo IsParagraphSeparator (_text s) (from r) (to r)
    | Words =>
        snapTo IsWordSeparator (_text s) (from sel)
          (Z.min (to sel) (size (_text s)))
    | Letters => Done (mkSel (from sel) (Z.min (to sel) (size (_text s))))
    end.
Proof.
  intros H1 H2 [H3 H4]. unfold adjustSelection.
  destruct (Z.ltb_spec (from sel) (size (_text s))); [|lia].
  destruct (Z.leb_spec (from sel) (to sel)); [|lia].
  simpl.
  assert (Hsz : 0 <= size (_text s)) by (unfold size; lia).
  destruct (Z.ltb_spec (size (_text s)) (to sel)).
  - rewrite uint16_small by lia. rewrite Z.min_r by lia. reflexivity.
  - rewrite Z.min_l by lia. reflexivity.
Qed.

Lemma adjustSelection_unguarded enc srt s sel mode :
  size (_text s) <= from sel \/ to sel < from sel ->
  adjustSelection enc srt s sel mode = Done sel.
Proof.
  intros H. unfold adjustSelection.
  destruct (Z.ltb_spec (from sel) (size (_text s)));
    destruct (Z.leb_spec (from sel) (to sel)); simpl;
    try (exfalso; lia); destruct sel; reflexivity.
Qed.

(** C4, as the code has it. Adjusting a word-adjusted range again keeps
    its start; its end is kept only when it has reached the end of the
    text (or the range is degenerate): an end short of the text length
    moves further with every adjustment. *)
Theorem adjustSelection_words_again enc srt (s : String) (sel : TextSelection) :
  size (_text s) <= 65535 -> validSelection sel ->
  exists r r2,
    adjustSelection enc srt s sel Words = Done r /\
    adjustSelection enc srt s r Words = Done r2 /\
    from r2 = from r /\
    (from r <= to r < size (_text s) -> to r < to r2) /\
    (~ (from r <= to r < size (_text s)) -> r2 = r).
Proof.
  intros Hsz [[Hf0 Hf1] [Ht0 Ht1]].
  destruct (Z.ltb_spec (from sel) (size (_text s))) as [Hlt|Hge];
    [destruct (Z.leb_spec (from sel) (to sel)) as [Hle|Hgt]|].
  - (* the guard passes *)
    rewrite adjustSelection_guarded by (unfold isUint16; lia).
    set (t0 := Z.min (to sel) (size (_text s))).
    destruct (snapTo_done IsWordSeparator (_text s) (from sel) t0)
      as (r & Hr & Hfr & Htr & Htr' & _ & _ & Hsep & _ & Hback);
      try (unfold t0; lia).
    assert (Htr2 : to r <= size (_text s)) by (apply Htr'; unfold t0; lia).
    exists r.
    rewrite adjustSelection_guarded by (unfold isUint16, t0 in *; lia).
    rewrite (Z.min_l (to r)) by lia.
    destruct (snapTo_done IsWordSeparator (_text s) (from r) (to r))
      as (r2 & Hr2 & Hfr2 & Htr2a & _ & Hgrow & Hstay & _ & Hsame & Hback2);
      try (unfold t0 in *; lia).
    exists r2. split; [exact Hr|]. split; [exact Hr2|].
    assert (Hfrom : from r2 = from r).
    { destruct (IsWordSeparator (at_ (_text s) (from sel))) eqn:E.
      - apply Hsame. exact Hsep.
      - rewrite (Hback2 Hsep).
        rewrite (Hback eq_refl), Nat2Z.id, scanBack_fixed. reflexivity. }
    split; [exact Hfrom|]. split.
    + intros [_ H]. apply Hgrow. exact H.
    + intros H. apply selection_eta; [exact Hfrom|].
      apply Hstay. unfold t0 in *. lia.
  - (* from > to *)
    exists sel, sel.
    rewrite adjustSelection_unguarded by lia.
    repeat split; auto. intros H. lia.
  - (* from at or past the end *)
    exists sel, sel.
    rewrite adjustSelection_unguarded by lia.
    repeat split; auto. intros H. lia.
Qed.

Lemma adjustSelection_words_again_witness :
  exists r r2,
    adjustSelection plainEncode (@stableSort _)
      (Sample.plain "ab cd" [Sample.word 0 30]) (mkSel 0 1) Words = Done r /\
    adjustSelection plainEncode (@stableSort _)
      (Sample.plain "ab cd" [Sample.word 0 30]) r Words = Done r2 /\
    from r2 = from r /\
    (from r <= to r < 5 -> to r < to r2) /\
    (~ (from r <= to r < 5) -> r2 = r).
Proof.
  apply (adjustSelection_words_again plainEncode (@stableSort _)
           (Sample.plain "ab cd" [Sample.word 0 30]) (mkSel 0 1)).
  - vm_compute. discriminate.
  - unfold validSelection, isUint16. simpl. lia.
Defined.

(** C4, as stated, fails: in "ab cd" the range [0, 1) is adjusted to
    [0, 2), and [0, 2) is adjusted to [0, 3). *)
Lemma adjustSelection_words_not_idempotent :
  adjustSelection plainEncode (@stableSort _)
    (Sample.plain "ab cd" [Sample.word 0 30]) (mkSel 0 1) Words
  = Done (mkSel 0 2) /\
  adjustSelection plainEncode (@stableSort _)
    (Sample.plain "ab cd" [Sample.word 0 30]) (mkSel 0 2) Words
  = Done (mkSel 0 3).
Proof. split; vm_compute; reflexivity. Qed.

(** C5, as the code has it. A range with [from] past [to], or with
    [from] at or past the end of the text, is returned as it is, its [to]
    included. Any other range, the empty range [from = to] inside the
    text among them, is adjusted. A [to] beyond the text length then
    counts as the text length: the letter mode returns it clamped, the
    word mode returns the text length as the end, and every mode gives
    what it gives for the range that ends at the text length. A range
    that ends inside the text, empty or not, grows in the word mode: its
    end moves forward by one character at least, and its start does not
    move forward. *)
Theorem adjustSelection_out_of_range enc srt (s : String)
    (sel : TextSelection) (mode : TextSelectType) :
  validSelection sel ->
  (size (_text s) <= from sel \/ to sel < from sel ->
   adjustSelection enc srt s sel mode = Done sel) /\
  (from sel < size (_text s) -> size (_text s) < to sel ->
   adjustSelection enc srt s sel mode
   = adjustSelection enc srt s (mkSel (from sel) (size (_text s))) mode /\
   adjustSelection enc srt s sel Letters
   = Done (mkSel (from sel) (size (_text s))) /\
   exists r, adjustSelection enc srt s sel Words = Done r /\
             to r = size (_text s)) /\
  (size (_text s) <= 65535 ->
   from sel <= to sel -> to sel < size (_text s) ->
   exists r, adjustSelection enc srt s sel Words = Done r /\
             0 <= from r <= from sel /\
             to sel < to r <= size (_text s)).
Proof.
  intros [[Hf0 Hf1] [Ht0 Ht1]]. split; [|split].
  - apply adjustSelection_unguarded.
  - intros Hlt Hgt.
    assert (Hmin : Z.min (to sel) (size (_text s)) = size (_text s)) by lia.
    split; [|split].
    + rewrite adjustSelection_guarded by (unfold isUint16; lia).
      rewrite (adjustSelection_guarded enc srt s (mkSel _ _))
        by (unfold isUint16; simpl; lia).
      simpl. rewrite Hmin, Z.min_id. reflexivity.
    + rewrite adjustSelection_guarded by (unfold isUint16; lia).
      rewrite Hmin. reflexivity.
    + rewrite adjustSelection_guarded by (unfold isUint16; lia).
      rewrite Hmin.
      destruct (snapTo_done IsWordSeparator (_text s) (from sel)
                  (size (_text s)))
        as (r & Hr & _ & _ & _ & _ & Hstay & _); try lia.
      exists r. split; [exact Hr | apply Hstay; lia].
  - intros Hsz Hle Hin.
    rewrite adjustSelection_guarded by (unfold isUint16; lia).
    rewrite Z.min_l by lia.
    destruct (snapTo_done IsWordSeparator (_text s) (from sel) (to sel))
      as (r & Hr & Hfrom & _ & Hend & Hgrow & _); try lia.
    exists r. split; [exact Hr|]. split; [exact Hfrom|].
    split; [apply Hgrow; exact Hin | apply Hend; lia].
Qed.

(** The range [1, 9) of "a b", which ends past the text, and the empty
    range [1, 1) inside it. *)
Lemma adjustSelection_out_of_range_witness :
  ((3 <= 1 \/ 9 < 1 ->
    adjustSelection plainEncode (@stableSort _)
      (Sample.plain "a b" [Sample.word 0 30]) (mkSel 1 9) Paragraphs
    = Done (mkSel 1 9)) /\
   (1 < 3 -> 3 < 9 ->
    adjustSelection plainEncode (@stableSort _)
      (Sample.plain "a b" [Sample.word 0 30]) (mkSel 1 9) Paragraphs
    = adjustSelection plainEncode (@stableSort _)
        (Sample.plain "a b" [Sample.word 0 30]) (mkSel 1 3) Paragraphs /\
    adjustSelection plainEncode (@stableSort _)
      (Sample.plain "a b" [Sample.word 0 30]) (mkSel 1 9) Letters
    = Done (mkSel 1 3) /\
    exists r,
      adjustSelection plainEncode (@stableSort _)
        (Sample.plain "a b" [Sample.word 0 30]) (mkSel 1 9) Words = Done r /\
      to r = 3) /\
   (3 <= 65535 -> 1 <= 9 -> 9 < 3 ->
    exists r,
      adjustSelection plainEncode (@stableSort _)
        (Sample.plain "a b" [Sample.word 0 30]) (mkSel 1 9) Words = Done r /\
      0 <= from r <= 1 /\ 9 < to r <= 3)) /\
  (3 <= 65535 -> 1 <= 1 -> 1 < 3 ->
   exists r,
     adjustSelection plainEncode (@stableSort _)
       (Sample.plain "a b" [Sample.word 0 30]) (mkSel 1 1) Words = Done r /\
     0 <= from r <= 1 /\ 1 < to r <= 3).
Proof.
  split.
  - apply (adjustSelection_out_of_range plainEncode (@stableSort _)
             (Sample.plain "a b" [Sample.word 0 30]) (mkSel 1 9) Paragraphs).
    unfold validSelection, isUint16. simpl. lia.
  - apply (adjustSelection_out_of_range plainEncode (@stableSort _)
             (Sample.plain "a b" [Sample.word 0 30]) (mkSel 1 1) Words).
    unfold validSelection, isUint16. simpl. lia.
Defined.

(** C5, as stated, fails in two ways: the empty range [1, 1) in "abc" is
    not returned as it is but grows to the word [0, 3), and the [to] of
    a range that starts past the end of the text is not clamped. *)
Lemma adjustSelection_degenerate_counterexample :
  adjustSelection plainEncode (@stableSort _)
    (Sample.plain "abc" [Sample.word 0 30]) (mkSel 1 1) Words
  = Done (mkSel 0 3) /\
  adjustSelection plainEncode (@stableSort _)
    (Sample.plain "abc" [Sample.word 0 30]) (mkSel 5 10) Words
  = Done (mkSel 5 10).
Proof. split; vm_compute; reflexivity. Qed.

(** ** The order of the extracted entities *)

Lemma proj_sortKey (entity : EntityInText) : proj entity = sortKey entity.
Proof.
  unfold proj, sortKey, category. destruct (e_type entity); reflexivity.
Qed.

Lemma pair_lt_false (a b : Z * Z) : pair_lt b a = false -> key_le a b.
Proof.
  unfold pair_lt, key_le. destruct a as [a1 a2], b as [b1 b2]; simpl.
  destruct (Z.ltb_spec b1 a1), (Z.ltb_spec a1 b1), (Z.ltb_spec b2 a2);
    simpl; intros; try discriminate; lia.
Qed.

Lemma pred_strictWeakOrder : strictWeakOrder pred.
Proof.
  unfold strictWeakOrder, pred, pair_lt. split.
  - intros a b. destruct (proj a) as [a1 a2], (proj b) as [b1 b2]; simpl.
    destruct (Z.ltb_spec a1 b1), (Z.ltb_spec b1 a1), (Z.ltb_spec a2 b2),
      (Z.ltb_spec b2 a2); simpl; intros; try discriminate; try reflexivity;
      lia.
  - intros a b c.
    destruct (proj a) as [a1 a2], (proj b) as [b1 b2], (proj c) as [c1 c2];
      simpl.
    destruct (Z.ltb_spec a1 b1), (Z.ltb_spec b1 a1), (Z.ltb_spec a2 b2),
      (Z.ltb_spec b1 c1), (Z.ltb_spec c1 b1), (Z.ltb_spec b2 c2),
      (Z.ltb_spec a1 c1), (Z.ltb_spec c1 a1), (Z.ltb_spec a2 c2);
      simpl; intros; try discriminate; try reflexivity; lia.
Qed.

Lemma StronglySorted_weaken {A : Type} (R Q : A -> A -> Prop) (l : list A) :
  (forall a b, R a b -> Q a b) -> StronglySorted R l -> StronglySorted Q l.
Proof.
  intros HRQ H. induction H as [|a l Hl IH Hall]; constructor; auto.
  eapply Forall_impl; [|exact Hall]. intros b. apply HRQ.
Qed.

(** C7, as the code has it. With entities composed, the entity list of
    [toText] is a permutation of the list built during the walk and is
    in the order of the key (offset, category), the url-like types
    ranking first at an offset; this holds for whatever [std::sort] does
    within the guarantees of the standard, which leave the order of
    entities of equal key open. *)
Theorem toText_entities_sorted enc std_sort (composeExpanded : bool)
    (s : String) (selection : TextSelection) :
  stdSortContract std_sort ->
  Permutation
    (rich_entities (toTextUnsorted enc composeExpanded true s selection))
    (rich_entities (toText enc std_sort composeExpanded true s selection)) /\
  StronglySorted (fun a b => key_le (sortKey a) (sortKey b))
    (rich_entities (toText enc std_sort composeExpanded true s selection)).
Proof.
  intros Hsort. unfold toText. simpl.
  destruct (Hsort pred
              (rich_entities
                 (toTextUnsorted enc composeExpanded true s selection))
              pred_strictWeakOrder) as [Hperm Hsorted].
  split; [exact Hperm|].
  eapply StronglySorted_weaken; [|exact Hsorted].
  intros a b H. simpl in H. unfold pred in H.
  rewrite !proj_sortKey in H. apply pair_lt_false. exact H.
Qed.

Section InsertionSorts.
Context {A : Type} (less : A -> A -> bool).
Hypothesis less_order : strictWeakOrder less.

Let sorted := StronglySorted (fun a b : A => less b a = false).

Lemma insertBefore_perm x l : Permutation (x :: l) (insertBefore less x l).
Proof.
  induction l as [|y r IH]; simpl; [reflexivity|].
  destruct (less y x); [|reflexivity].
  rewrite perm_swap. apply perm_skip. exact IH.
Qed.

Lemma insertBefore_sorted x l : sorted l -> sorted (insertBefore less x l).
Proof.
  destruct less_order as [Hasym Hneg].
  unfold sorted. intros H. induction H as [|y r Hr IH Hall]; simpl.
  - constructor; constructor.
  - destruct (less y x) eqn:E.
    + constructor; [exact IH|].
      eapply Permutation_Forall; [apply insertBefore_perm|].
      constructor; [apply Hasym; exact E | exact Hall].
    + constructor; [constructor; assumption|].
      constructor; [exact E|].
      eapply Forall_impl; [|exact Hall].
      intros z Hz. simpl in Hz. eapply Hneg; eassumption.
Qed.

Lemma stableSort_ok l :
  Permutation l (stableSort less l) /\ sorted (stableSort less l).
Proof.
  unfold stableSort. induction l as [|x l [IHp IHs]]; simpl.
  - split; [reflexivity | constructor].
  - split; [|apply insertBefore_sorted; exact IHs].
    rewrite <- insertBefore_perm. apply perm_skip. exact IHp.
Qed.

Lemma reversingSort_ok l :
  Permutation l (reversingSort less l) /\ sorted (reversingSort less l).
Proof.
  unfold reversingSort.
  assert (H : forall acc,
             sorted acc ->
             Permutation (l ++ acc)
               (fold_left (fun acc x => insertBefore less x acc) l acc) /\
             sorted (fold_left (fun acc x => insertBefore less x acc) l acc)).
  { induction l as [|x l IH]; intros acc Hacc; simpl.
    - split; [reflexivity | exact Hacc].
    - destruct (IH (insertBefore less x acc)) as [Hp Hs];
        [apply insertBefore_sorted; exact Hacc|].
      split; [|exact Hs].
      rewrite <- Hp. rewrite <- insertBefore_perm.
      apply Permutation_middle. }
  destruct (H []) as [Hp Hs]; [constructor|].
  rewrite app_nil_r in Hp. split; assumption.
Qed.
End InsertionSorts.

Lemma stableSort_contract : stdSortContract (@stableSort _).
Proof. intros less l H. apply stableSort_ok. exact H. Qed.

Lemma reversingSort_contract : stdSortContract (@reversingSort _).
Proof. intros less l H. apply reversingSort_ok. exact H. Qed.

Lemma toText_entities_sorted_witness :
  Permutation
    (rich_entities
       (toTextUnsorted plainEncode false true Sample.boldItalic
          AllTextSelection))
    (rich_entities
       (toText plainEncode (@stableSort _) false true Sample.boldItalic
          AllTextSelection)) /\
  StronglySorted (fun a b => key_le (sortKey a) (sortKey b))
    (rich_entities
       (toText plainEncode (@stableSort _) false true Sample.boldItalic
          AllTextSelection)).
Proof.
  apply (toText_entities_sorted plainEncode (@stableSort _) false
           Sample.boldItalic AllTextSelection).
  exact stableSort_contract.
Defined.

(** C7, as stated, fails: a sort within the guarantees of [std::sort]
    need not keep entities of equal key in their order. For the bold and
    italic "ab" the walk builds the italic entity before the bold one,
    both with the key (0, 1), and a sort that reverses ties returns the
    bold one first. *)
Lemma toText_sort_not_stable :
  stdSortContract (@reversingSort _) /\
  rich_entities
    (toTextUnsorted plainEncode false true Sample.boldItalic AllTextSelection)
  = [mkEntity EntityType.Italic 0 2 []; mkEntity EntityType.Bold 0 2 []] /\
  sortKey (mkEntity EntityType.Italic 0 2 [])
  = sortKey (mkEntity EntityType.Bold 0 2 []) /\
  rich_entities
    (toText plainEncode (@reversingSort _) false true Sample.boldItalic
       AllTextSelection)
  = [mkEntity EntityType.Bold 0 2 []; mkEntity EntityType.Italic 0 2 []].
Proof.
  split; [exact reversingSort_contract|].
  repeat split; vm_compute; reflexivity.
Qed.

(** ** Links under a selection *)

Lemma withEntity_text entity r : rich_text (withEntity entity r) = rich_text r.
Proof. reflexivity. Qed.

(** The finish callback of [toText]: a null handler changes nothing, and
    a handler adds its entity exactly when entities are composed and the
    link is not internal. *)
Lemma clickHandlerFinishCallback_entities enc (ce centities : bool) inText
    handler type st :
  rich_entities
    (tt_result (clickHandlerFinishCallback enc ce centities inText handler
                  type st))
  = match handler with
    | Some h =>
        if centities && negb (internalLink h) then
          insertEntity
            (linkEntity h (tt_linkStart st) (size (rich_text (tt_result st))))
            (rich_entities (tt_result st))
        else rich_entities (tt_result st)
    | None => rich_entities (tt_result st)
    end.
Proof.
  unfold clickHandlerFinishCallback, internalLink, linkEntity.
  destruct handler as [h|]; [|reflexivity].
  set (custom := EntityType.eqb (h_type h) EntityType.CustomUrl).
  set (internal := startsWith (h_data h) (qstr "internal:")).
  destruct ce, centities, custom, internal; cbn [negb andb orb];
    try reflexivity;
    match goal with
    | |- context [QString_eqb ?a ?b] => destruct (QString_eqb a b)
    end; reflexivity.
Qed.

Section Events.
Context {St : Type}.
Variable appendPart : QString -> QString -> St -> St.
Variable start : EntityType.t -> St -> St.
Variable finish : QString -> option ClickHandler -> EntityType.t -> St -> St.
Variable flagsChange : Z -> Z -> St -> St.

Lemma replay_append part data evs acc :
  appendPart part data (replay appendPart start finish flagsChange evs acc)
  = replay appendPart start finish flagsChange (recordAppend part data evs) acc.
Proof. unfold replay, recordAppend. rewrite fold_left_app. reflexivity. Qed.

Lemma replay_start type evs acc :
  start type (replay appendPart start finish flagsChange evs acc) = replay appendPart start finish flagsChange (recordStart type evs) acc.
Proof. unfold replay, recordStart. rewrite fold_left_app. reflexivity. Qed.

Lemma replay_finish inText handler type evs acc :
  finish inText handler type (replay appendPart start finish flagsChange evs acc)
  = replay appendPart start finish flagsChange (recordFinish inText handler type evs) acc.
Proof. unfold replay, recordFinish. rewrite fold_left_app. reflexivity. Qed.

Lemma replay_flags oldFlags newFlags evs acc :
  flagsChange oldFlags newFlags (replay appendPart start finish flagsChange evs acc)
  = replay appendPart start finish flagsChange (recordFlags oldFlags newFlags evs) acc.
Proof. unfold replay, recordFlags. rewrite fold_left_app. reflexivity. Qed.

Lemma linkBoundary_events s selection blockPosition k linkIndex linkPosition
    evs acc :
  linkBoundary start finish s selection blockPosition k linkIndex linkPosition
    (replay appendPart start finish flagsChange evs acc)
  = let '(lk, lp, evs') :=
      linkBoundary recordStart recordFinish s selection blockPosition k
        linkIndex linkPosition evs in
    (lk, lp, replay appendPart start finish flagsChange evs' acc).
Proof.
  unfold linkBoundary.
  destruct (negb (k =? linkIndex)); [|reflexivity].
  destruct (negb (linkIndex =? 0)); cbn [negb];
    [destruct (_ <? _)|];
    destruct (negb (k =? 0));
    rewrite ?replay_finish, ?replay_start; reflexivity.
Qed.

Lemma enumerateTextLoop_events s selection :
  forall bs linkIndex linkPosition flags evs acc,
    enumerateTextLoop appendPart start finish flagsChange s selection bs
      linkIndex linkPosition flags (replay appendPart start finish flagsChange evs acc)
    = replay appendPart start finish flagsChange
        (enumerateTextLoop recordAppend recordStart recordFinish recordFlags
           s selection bs linkIndex linkPosition flags evs) acc.
Proof.
  induction bs as [|b rest IH]; intros lk lp fl evs acc.
  - cbn [enumerateTextLoop hd_error].
    rewrite linkBoundary_events.
    destruct (linkBoundary recordStart recordFinish _ _ _ _ _ _ _)
      as [[lk' lp'] evs'].
    destruct (_ && _); rewrite ?replay_flags; reflexivity.
  - cbn [enumerateTextLoop hd_error].
    rewrite linkBoundary_events.
    destruct (linkBoundary recordStart recordFinish _ _ _ _ _ _ _)
      as [[lk' lp'] evs'].
    destruct (_ && negb (b_flags b =? fl)); cbv beta iota;
      rewrite ?replay_flags;
      (destruct (to selection <=? _); [reflexivity|]);
      (destruct (TextBlockType.eqb _ _); [apply IH|]);
      (destruct (_ <? _); rewrite ?replay_append; apply IH).
Qed.

Lemma enumerateText_events s selection acc :
  enumerateText appendPart start finish flagsChange s selection acc
  = replay appendPart start finish flagsChange (textEvents s selection) acc.
Proof.
  unfold textEvents, enumerateText.
  destruct (isEmpty s || sel_empty selection); [reflexivity|].
  apply (enumerateTextLoop_events s selection (_blocks s) 0 0 0 [] acc).
Qed.
End Events.


Lemma finishCalls_app a b : finishCalls (a ++ b) = finishCalls a ++ finishCalls b.
Proof. unfold finishCalls. apply flat_map_app. Qed.

Lemma finishHandler_covered s selection linkIndex linkPosition blockPosition :
  finishHandler s linkIndex linkPosition blockPosition
    (Z.max (from selection) linkPosition) (Z.min (to selection) blockPosition)
  = if runCovered selection linkPosition blockPosition
    then linkAt s linkIndex else None.
Proof.
  unfold finishHandler, runCovered, linkAt.
  destruct (_extended s) as [ext|].
  - rewrite orb_false_r.
    destruct (Z.leb_spec (from selection) linkPosition);
      destruct (Z.leb_spec blockPosition (to selection)); simpl.
    + rewrite Z.max_r, Z.min_r, !Z.eqb_refl by lia. reflexivity.
    + rewrite Z.max_r, Z.eqb_refl by lia. simpl.
      destruct (Z.eqb_spec blockPosition (Z.min (to selection) blockPosition));
        [lia | reflexivity].
    + destruct (Z.eqb_spec linkPosition (Z.max (from selection) linkPosition));
        [lia | reflexivity].
    + destruct (Z.eqb_spec linkPosition (Z.max (from selection) linkPosition));
        [lia | reflexivity].
  - rewrite orb_true_r. destruct (_ && _); reflexivity.
Qed.

Lemma linkBoundary_finishCalls s selection blockPosition k linkIndex
    linkPosition evs :
  let '(lk, lp, evs') :=
    linkBoundary recordStart recordFinish s selection blockPosition k
      linkIndex linkPosition evs in
  lk = k /\
  lp = (if (k =? linkIndex) || (k =? 0) then linkPosition else blockPosition) /\
  finishCalls evs'
  = finishCalls evs
    ++ (if (k =? linkIndex) || (linkIndex =? 0) then []
        else runFinish s selection (mkRun linkIndex linkPosition blockPosition)).
Proof.
  unfold linkBoundary.
  destruct (Z.eqb_spec k linkIndex) as [->|Hne]; cbn [negb orb].
  - repeat split; auto. now rewrite app_nil_r.
  - unfold runFinish, runMet. cbn [run_from run_to run_link].
    rewrite <- finishHandler_covered.
    destruct (linkIndex =? 0); cbn [negb];
      [|destruct (_ <? _)];
      destruct (k =? 0); cbn [negb orb]; repeat split;
      unfold recordStart, recordFinish;
      rewrite ?finishCalls_app; simpl; rewrite ?app_nil_r; reflexivity.
Qed.

Lemma runs_unmet s selection :
  forall bs linkIndex linkPosition,
    (linkIndex <> 0 -> to selection <= linkPosition) ->
    Forall (fun b => to selection <= b_position b) bs ->
    flat_map (runFinish s selection) (linkRunsFrom s bs linkIndex linkPosition)
    = [].
Proof.
  assert (Hrun : forall lk lp e, to selection <= lp ->
                   runFinish s selection (mkRun lk lp e) = []).
  { intros lk lp e H. unfold runFinish, runMet. simpl.
    destruct (Z.ltb_spec (Z.max (from selection) lp) (Z.min (to selection) e));
      [lia | reflexivity]. }
  induction bs as [|b rest IH]; intros lk lp Hlp Hall; cbn [linkRunsFrom].
  - destruct (Z.eqb_spec lk 0); [reflexivity|].
    simpl. rewrite Hrun by auto. reflexivity.
  - inversion Hall as [|? ? Hb Hrest]; subst.
    destruct (Z.eqb_spec (blockLinkIndex s (Some b)) lk) as [E|E];
      [apply IH; auto|].
    rewrite flat_map_app, IH; auto.
    + rewrite app_nil_r. destruct (Z.eqb_spec lk 0); [reflexivity|].
      simpl. rewrite Hrun by auto. reflexivity.
    + intros Hk. destruct (Z.eqb_spec (blockLinkIndex s (Some b)) 0);
        [contradiction | exact Hb].
Qed.

Lemma enumerateTextLoop_finishCalls s selection :
  forall bs linkIndex linkPosition flags evs,
    StronglySorted Z.le (map b_position bs) ->
    (linkIndex <> 0 -> Forall (fun b => linkPosition <= b_position b) bs) ->
    finishCalls
      (enumerateTextLoop recordAppend recordStart recordFinish recordFlags s
         selection bs linkIndex linkPosition flags evs)
    = finishCalls evs
      ++ flat_map (runFinish s selection)
           (linkRunsFrom s bs linkIndex linkPosition).
Proof.
  induction bs as [|b rest IH]; intros lk lp fl evs Hsorted Hlp.
  - cbn [enumerateTextLoop hd_error blockLinkIndex linkRunsFrom].
    pose proof (linkBoundary_finishCalls s selection
                  (uint16 (size (_text s))) 0 lk lp evs) as Hb.
    destruct (linkBoundary recordStart recordFinish _ _ _ _ _ _ _)
      as [[lk' lp'] evs'].
    destruct Hb as (_ & _ & Hcalls).
    assert (Hflags : forall c : bool,
              finishCalls
                (snd (if c
                      then (0, recordFlags fl 0 evs')
                      else (fl, evs')))
              = finishCalls evs').
    { intros []; simpl; [|reflexivity].
      unfold recordFlags. rewrite finishCalls_app. simpl. apply app_nil_r. }
    match goal with
    | |- context [if ?c then (0, recordFlags fl 0 evs') else (fl, evs')] =>
        specialize (Hflags c);
        destruct (if c then (0, recordFlags fl 0 evs') else (fl, evs'))
    end.
    simpl in Hflags. rewrite Hflags, Hcalls. f_equal.
    destruct (Z.eqb_spec 0 lk) as [<-|Hne]; [reflexivity|].
    destruct (Z.eqb_spec lk 0); [congruence|].
    simpl. now rewrite app_nil_r.
  - cbn [enumerateTextLoop hd_error linkRunsFrom].
    set (k := blockLinkIndex s (Some b)).
    pose proof (linkBoundary_finishCalls s selection (b_position b) k lk lp evs)
      as Hb.
    destruct (linkBoundary recordStart recordFinish _ _ _ _ _ _ _)
      as [[lk' lp'] evs'].
    destruct Hb as (-> & -> & Hcalls).
    inversion Hsorted as [|? ? Hsorted' Hall]; subst.
    assert (Hall' : Forall (fun b' => b_position b <= b_position b') rest).
    { apply (proj1 (Forall_map b_position (Z.le (b_position b)) rest)).
      exact Hall. }
    (* the state that the next iteration starts from *)
    assert (Hnext : k <> 0 ->
                    Forall (fun b' =>
                              (if (k =? lk) || (k =? 0) then lp
                               else b_position b) <= b_position b') rest).
    { intros Hk. destruct (Z.eqb_spec k lk) as [->|Hne]; cbn [orb].
      - specialize (Hlp Hk). inversion Hlp; subst. assumption.
      - destruct (Z.eqb_spec k 0); [contradiction | exact Hall']. }
    assert (Hrest : forall fl' evs'',
              finishCalls evs'' = finishCalls evs' ->
              finishCalls
                (enumerateTextLoop recordAppend recordStart recordFinish
                   recordFlags s selection rest k
                   (if (k =? lk) || (k =? 0) then lp else b_position b)
                   fl' evs'')
              = finishCalls evs
                ++ flat_map (runFinish s selection)
                     (if k =? lk then linkRunsFrom s rest lk lp
                      else
                        (if lk =? 0 then []
                         else [mkRun lk lp (b_position b)])
                        ++ linkRunsFrom s rest k
                             (if k =? 0 then lp else b_position b))).
    { intros fl' evs'' He. rewrite IH, He, Hcalls; auto.
      rewrite <- app_assoc. f_equal.
      destruct (Z.eqb_spec k lk) as [->|Hne]; cbn [orb].
      - reflexivity.
      - rewrite flat_map_app.
        destruct (Z.eqb_spec lk 0); simpl; rewrite ?app_nil_r; reflexivity. }
    assert (Hstop : forall evs'',
              finishCalls evs'' = finishCalls evs' ->
              to selection
              <= (if negb (k =? 0)
                  then (if (k =? lk) || (k =? 0) then lp else b_position b)
                  else b_position b) ->
              finishCalls evs''
              = finishCalls evs
                ++ flat_map (runFinish s selection)
                     (if k =? lk then linkRunsFrom s rest lk lp
                      else
                        (if lk =? 0 then []
                         else [mkRun lk lp (b_position b)])
                        ++ linkRunsFrom s rest k
                             (if k =? 0 then lp else b_position b))).
    { intros evs'' He Hto. rewrite He, Hcalls. f_equal.
      destruct (Z.eqb_spec k lk) as [->|Hne]; cbn [orb] in *.
      - symmetry. apply runs_unmet.
        + intros Hk. destruct (Z.eqb_spec lk 0); [contradiction|].
          simpl in Hto. exact Hto.
        + destruct (Z.eqb_spec lk 0) as [->|Hk]; simpl in Hto.
          * eapply Forall_impl; [|exact Hall']. simpl. intros. lia.
          * specialize (Hlp Hk). inversion Hlp; subst.
            eapply Forall_impl; [|exact Hall']. simpl. intros. lia.
      - rewrite flat_map_app, (runs_unmet s selection rest k).
        + destruct (Z.eqb_spec lk 0); simpl; rewrite ?app_nil_r; reflexivity.
        + intros Hk. destruct (Z.eqb_spec k 0); [contradiction|].
          simpl in Hto. exact Hto.
        + destruct (Z.eqb_spec k 0); simpl in Hto;
            (eapply Forall_impl; [|exact Hall']); simpl; intros; lia. }
    assert (Hflagsev : finishCalls (recordFlags fl (b_flags b) evs')
                       = finishCalls evs').
    { unfold recordFlags. rewrite finishCalls_app. simpl. apply app_nil_r. }
    assert (Happ : forall p d evs'',
              finishCalls evs'' = finishCalls evs' ->
              finishCalls (recordAppend p d evs'') = finishCalls evs').
    { intros p d evs'' He. unfold recordAppend. rewrite finishCalls_app, He.
      simpl. apply app_nil_r. }
    destruct (_ && negb (b_flags b =? fl)); cbv beta iota;
      (destruct (Z.leb_spec (to selection)
                   (if negb (k =? 0)
                    then (if (k =? lk) || (k =? 0) then lp else b_position b)
                    else b_position b));
       [apply Hstop; auto|]);
      (destruct (TextBlockType.eqb _ _); [apply Hrest; auto|]);
      (destruct (_ <? _); apply Hrest; auto).
Qed.

Lemma runFinish_empty_selection s selection run :
  sel_empty selection = true -> runFinish s selection run = [].
Proof.
  unfold sel_empty, runFinish, runMet. intros H. apply Z.eqb_eq in H.
  destruct (Z.ltb_spec (Z.max (from selection) (run_from run))
              (Z.min (to selection) (run_to run))); [lia | reflexivity].
Qed.

(** ** The extracted plain text *)

Lemma linkBoundary_text enc s selection blockPosition blockLinkIndex
    linkIndex linkPosition st :
  textOf
    (snd (linkBoundary clickHandlerStartCallback
            (clickHandlerFinishCallback enc false false) s selection
            blockPosition blockLinkIndex linkIndex linkPosition st))
  = textOf st.
Proof.
  unfold linkBoundary, clickHandlerFinishCallback, textOf.
  destruct (negb (blockLinkIndex =? linkIndex)); [|reflexivity].
  destruct (negb (linkIndex =? 0)); simpl.
  - destruct (_ <? _); simpl;
      [destruct (finishHandler _ _ _ _ _ _); simpl|];
      destruct (negb (blockLinkIndex =? 0)); reflexivity.
  - destruct (negb (blockLinkIndex =? 0)); reflexivity.
Qed.

Lemma linkBoundary_position {St : Type} (start : EntityType.t -> St -> St)
    finish s selection blockPosition blockLinkIndex linkIndex linkPosition
    (st : St) bound :
  blockPosition < bound -> linkPosition < bound ->
  snd (fst (linkBoundary start finish s selection blockPosition
              blockLinkIndex linkIndex linkPosition st))
  < bound.
Proof.
  intros H1 H2. unfold linkBoundary.
  destruct (negb (blockLinkIndex =? linkIndex)); [|exact H2].
  destruct (negb (blockLinkIndex =? 0)); simpl; assumption.
Qed.

Lemma firstn_plus {A : Type} (n m : nat) (l : list A) :
  firstn (n + m) l = firstn n l ++ firstn m (skipn n l).
Proof.
  revert l. induction n as [|n IH]; intros l; [reflexivity|].
  destruct l as [|x l]; simpl; [now rewrite firstn_nil|].
  rewrite IH. reflexivity.
Qed.

Lemma StringViewMid_app (text : QString) a b c :
  0 <= a <= b -> b <= c ->
  StringViewMid text a (b - a) ++ StringViewMid text b (c - b)
  = StringViewMid text a (c - a).
Proof.
  intros Hab Hbc. unfold StringViewMid.
  replace (Z.to_nat (c - a)) with (Z.to_nat (b - a) + Z.to_nat (c - b))%nat by lia.
  replace (Z.to_nat b) with (Z.to_nat (b - a) + Z.to_nat a)%nat by lia.
  rewrite <- skipn_skipn.
  generalize (skipn (Z.to_nat a) text) as l. intros l.
  rewrite firstn_plus. reflexivity.
Qed.

Lemma StringViewMid_empty (text : QString) a : StringViewMid text a 0 = [].
Proof. reflexivity. Qed.

Lemma StringViewMid_size (text : QString) a n :
  0 <= a -> 0 <= n -> a + n <= size text -> size (StringViewMid text a n) = n.
Proof.
  intros Ha Hn H. unfold StringViewMid, size in *.
  rewrite length_firstn, length_skipn. lia.
Qed.

Lemma extentEnd_cons s b b' rest :
  extentEnd s (b :: b' :: rest) = extentEnd s (b' :: rest).
Proof. reflexivity. Qed.

Lemma extentEnd_bounds s b rest :
  StronglySorted Z.lt (map b_position (b :: rest)) ->
  Forall (fun b => 0 <= b_position b < size (_text s)) (b :: rest) ->
  b_position b <= extentEnd s (b :: rest) <= size (_text s).
Proof.
  revert b. induction rest as [|b' rest IH]; intros b Hs Hp.
  - unfold extentEnd. simpl. inversion Hp; subst.
    destruct (TextBlockType.eqb _ _); lia.
  - rewrite extentEnd_cons.
    inversion Hs as [|? ? Hs' Hall]; subst.
    inversion Hp as [|? ? Hb Hp']; subst.
    specialize (IH b' Hs' Hp').
    inversion Hall; subst. lia.
Qed.

Lemma appendPartCallback_text part data st :
  textOf (appendPartCallback false false part data st) = textOf st ++ part.
Proof. reflexivity. Qed.

Lemma enumerateTextLoop_text enc s selection :
  from selection = 0 -> size (_text s) <= to selection ->
  size (_text s) <= 65535 ->
  forall bs linkIndex linkPosition flags st,
    linkPosition < size (_text s) ->
    StronglySorted Z.lt (map b_position bs) ->
    Forall (fun b => 0 <= b_position b < size (_text s)) bs ->
    Forall (fun b => b_type b <> TextBlockType.Skip) (removelast bs) ->
    textOf
      (enumerateTextLoop (appendPartCallback false false)
         clickHandlerStartCallback (clickHandlerFinishCallback enc false false)
         (flagsChangeCallback false) s selection bs linkIndex linkPosition
         flags st)
    = textOf st
      ++ match bs with
         | [] => []
         | b :: _ =>
             StringViewMid (_text s) (b_position b)
               (extentEnd s bs - b_position b)
         end.
Proof.
  intros Hfrom Hto Hsz.
  induction bs as [|b rest IH]; intros lk lp fl st Hlp Hsorted Hpos Hskip.
  - cbn [enumerateTextLoop hd_error blockLinkIndex].
    destruct (linkBoundary _ _ _ _ _ _ _ _ _) as [[lk' lp'] st'] eqn:E.
    pose proof (linkBoundary_text enc s selection (uint16 (size (_text s)))
                  0 lk lp st) as Ht.
    rewrite E in Ht. simpl in Ht.
    rewrite app_nil_r.
    destruct (_ && _); simpl; unfold flagsChangeCallback; simpl; exact Ht.
  - cbn [enumerateTextLoop hd_error].
    set (bli := blockLinkIndex s (Some b)).
    destruct (linkBoundary _ _ _ _ _ _ _ _ _) as [[lk' lp'] st'] eqn:E.
    pose proof (linkBoundary_text enc s selection (b_position b) bli lk lp st)
      as Ht.
    pose proof (linkBoundary_position clickHandlerStartCallback
                  (clickHandlerFinishCallback enc false false) s selection
                  (b_position b) bli lk lp st (size (_text s))) as Hp.
    rewrite E in Ht, Hp. simpl in Ht, Hp.
    inversion Hpos as [|? ? Hb Hrest]; subst.
    inversion Hsorted as [|? ? Hsorted' Hall]; subst.
    specialize (Hp ltac:(lia) Hlp).
    assert (Hnobreak :
              (to selection <=? (if negb (lk' =? 0) then lp' else b_position b))
              = false).
    { destruct (negb (lk' =? 0)); apply Z.leb_gt; lia. }
    assert (Hstep : forall fl',
              textOf
                (if TextBlockType.eqb (b_type b) TextBlockType.Skip
                 then
                   enumerateTextLoop (appendPartCallback false false)
                     clickHandlerStartCallback
                     (clickHandlerFinishCallback enc false false)
                     (flagsChangeCallback false) s selection rest lk' lp' fl'
                     st'
                 else
                   enumerateTextLoop (appendPartCallback false false)
                     clickHandlerStartCallback
                     (clickHandlerFinishCallback enc false false)
                     (flagsChangeCallback false) s selection rest lk' lp' fl'
                     (if Z.max (from selection) (b_position b)
                         <? Z.min (to selection)
                              (uint16 (b_position b
                                       + countBlockLength s b rest))
                      then
                        appendPartCallback false false
                          (StringViewMid (_text s)
                             (Z.max (from selection) (b_position b))
                             (Z.min (to selection)
                                (uint16 (b_position b
                                         + countBlockLength s b rest))
                              - Z.max (from selection) (b_position b)))
                          (if TextBlockType.eqb (b_type b)
                                TextBlockType.CustomEmoji
                           then b_entityData b else [])
                          st'
                      else st'))
              = textOf st
                ++ StringViewMid (_text s) (b_position b)
                     (extentEnd s (b :: rest) - b_position b)).
    { intros fl'.
      destruct (TextBlockType.eqb (b_type b) TextBlockType.Skip) eqn:Eskip.
      - (* a skip block is the last block *)
        destruct rest as [|b' rest'].
        + rewrite IH; auto. rewrite Ht, app_nil_r.
          unfold extentEnd. simpl. rewrite Eskip, Z.sub_diag.
          rewrite StringViewMid_empty, app_nil_r. reflexivity.
        + exfalso. simpl in Hskip. inversion Hskip as [|? ? Hns _]; subst.
          apply Hns. destruct (b_type b); simpl in Eskip; congruence.
      - assert (Hend : b_position b < countBlockEnd s rest <= size (_text s)).
        { unfold countBlockEnd. destruct rest as [|b' rest'].
          - rewrite uint16_small by (unfold size in *; lia). lia.
          - simpl in Hall. inversion Hall; subst.
            inversion Hrest; subst. lia. }
        unfold countBlockLength.
        rewrite (uint16_small (countBlockEnd s rest - b_position b)) by lia.
        replace (b_position b + (countBlockEnd s rest - b_position b))
          with (countBlockEnd s rest) by lia.
        rewrite (uint16_small (countBlockEnd s rest)) by lia.
        rewrite Hfrom, Z.max_r, Z.min_r by lia.
        destruct (Z.ltb_spec (b_position b) (countBlockEnd s rest)); [|lia].
        rewrite IH; auto.
        + rewrite appendPartCallback_text, Ht, <- app_assoc. f_equal.
          destruct rest as [|b' rest'].
          * unfold countBlockEnd, extentEnd. simpl. rewrite Eskip.
            rewrite uint16_small by (unfold size in *; lia).
            apply app_nil_r.
          * rewrite extentEnd_cons. unfold countBlockEnd.
            pose proof (extentEnd_bounds s b' rest' Hsorted' Hrest).
            apply StringViewMid_app; unfold countBlockEnd in Hend; lia.
        + destruct rest as [|b' rest']; [constructor|].
          simpl in Hskip. inversion Hskip; subst. assumption. }
    match goal with
    | |- context [if ?c && negb (b_flags b =? fl) then _ else _] =>
        destruct (c && negb (b_flags b =? fl))
    end; cbv beta iota; rewrite Hnobreak;
      replace (flagsChangeCallback false fl (b_flags b) st') with st'
        by reflexivity; apply Hstep.
Qed.

(** C8. The plain text over the full range has the length of the
    backing text, less the one character of a final skip block. *)
Theorem toString_full_length enc srt (s : String) (selection : TextSelection) :
  wellFormed s ->
  from selection = 0 -> size (_text s) <= to selection ->
  size (toString enc srt s selection)
  = size (_text s) - (if hasSkipBlock s then 1 else 0).
Proof.
  intros (Hsz & Hsorted & Hpos & Hfirst & Hskip & Hlast) Hfrom Hto.
  unfold toString, toText, toTextUnsorted, enumerateText.
  cbn [rich_text].
  unfold isEmpty, hasSkipBlock in *.
  destruct (_blocks s) as [|b rest] eqn:Eblocks.
  - (* a text without blocks is empty *)
    rewrite Hfirst. unfold back. rewrite Eblocks. reflexivity.
  - inversion Hpos as [|? ? Hb Hrest]; subst.
    destruct (TextBlockType.eqb (b_type b) TextBlockType.Skip) eqn:Eskip.
    + (* a leading skip block is the only block *)
      assert (Htype : b_type b = TextBlockType.Skip)
        by (destruct (b_type b); simpl in Eskip; congruence).
      destruct rest as [|b' rest'].
      * assert (Hback : back s = Some b) by (unfold back; now rewrite Eblocks).
        rewrite Hback, Eskip. specialize (Hlast b Hback Htype).
        simpl. unfold size in *. simpl. lia.
      * exfalso. simpl in Hskip. inversion Hskip; subst. contradiction.
    + assert (Hne : sel_empty selection = false).
      { unfold sel_empty. apply Z.eqb_neq. lia. }
      rewrite Hne. cbn [orb].
      pose proof (enumerateTextLoop_text enc s selection Hfrom Hto Hsz
                    (b :: rest) 0 0 0
                    (mkToText (mkMime [] [] []) 0 [])) as Hloop.
      unfold textOf in Hloop at 1. rewrite Hloop; auto; try lia.
      cbn [textOf tt_result rich_text app].
      pose proof (extentEnd_bounds s b rest Hsorted Hpos) as Hext.
      rewrite Hfirst in *. rewrite Z.sub_0_r.
      rewrite StringViewMid_size by lia.
      unfold extentEnd in *. unfold back. rewrite Eblocks.
      destruct (last (map Some (b :: rest)) None) as [bl|] eqn:El; [|lia].
      destruct (TextBlockType.eqb (b_type bl) TextBlockType.Skip) eqn:Eb;
        [|lia].
      rewrite (Hlast bl).
      * lia.
      * unfold back. rewrite Eblocks. exact El.
      * destruct (b_type bl); simpl in Eb; congruence.
Qed.

Lemma toString_full_length_witness :
  size (toString plainEncode (@stableSort _) Sample.withSkip AllTextSelection)
  = size (_text Sample.withSkip)
    - (if hasSkipBlock Sample.withSkip then 1 else 0).
Proof.
  apply (toString_full_length plainEncode (@stableSort _) Sample.withSkip
           AllTextSelection).
  - unfold wellFormed. simpl. repeat split.
    + vm_compute. discriminate.
    + repeat constructor.
    + repeat constructor; vm_compute; discriminate.
    + repeat constructor. discriminate.
    + intros b Hb _. vm_compute in Hb. inversion Hb. reflexivity.
  - reflexivity.
  - vm_compute. discriminate.
Defined.

Example toString_withSkip :
  toString plainEncode (@stableSort _) Sample.withSkip AllTextSelection
  = qstr "ab".
Proof. vm_compute. reflexivity. Qed.

(** ** Every piece of content is placed *)















Lemma paragraphPadding_sides s p :
  sidePaddingNonneg (_st s) ->
  0 <= m_left (paragraphPadding s p) + m_right (paragraphPadding s p).
Proof.
  intros [Hpre Hquote]. unfold paragraphPadding.
  destruct p as [pd|]; [|simpl; lia].
  destruct (pd_pre pd); simpl; lia.
Qed.







(** "Hello" in a pre paragraph takes room, and at the width 36 its one
    word is on the one line that the callback sees. *)
Example framedHello_takesRoom :
  takesRoom Sample.framedHelloSized /\
  enumerateLinesPlaced Sample.framedHelloSized 36 false
  = Done ([mkLine (36 * 64) 24 [(0%nat, 0%nat)]], []).
Proof.
  split; [|vm_compute; reflexivity].
  split; [split; simpl; lia|].
  constructor; [|constructor]. intros _.
  simpl. unfold QFixed_ofInt. repeat split; try lia; try discriminate.
  constructor; [|constructor]. unfold wordTakesRoom. simpl. lia.
Qed.


(** ** The skip block *)

Lemma size_app (a b : QString) : size (a ++ b) = size a + size b.
Proof. unfold size. rewrite length_app. lia. Qed.

Lemma back_snoc s text blocks b flag :
  back (withContent s text (blocks ++ [b]) flag) = Some b.
Proof.
  unfold back, withContent. simpl. rewrite map_app. simpl.
  apply last_last.
Qed.

(** A skip block of the requested size is left alone. *)
Lemma updateSkipBlock_same_size s b width height :
  back s = Some b -> b_type b = TextBlockType.Skip ->
  QFixed_toInt (b_width b) = width -> b_height b = height ->
  updateSkipBlock s width height = Done (false, s).
Proof.
  intros Hback Htype Hw Hh. unfold updateSkipBlock, hasSkipBlock.
  rewrite Hback, Htype. simpl. rewrite Hw, Hh, !Z.eqb_refl. reflexivity.
Qed.

Lemma removeSkipBlock_without_skip s :
  hasSkipBlock s = false -> removeSkipBlock s = Done (false, s).
Proof. intros H. unfold removeSkipBlock. rewrite H. reflexivity. Qed.

Lemma removeSkipBlock_false_only s s' :
  removeSkipBlock s = Done (false, s') -> hasSkipBlock s = false.
Proof.
  unfold removeSkipBlock. destruct (hasSkipBlock s) eqn:E; [|reflexivity].
  unfold hasSkipBlock in E. destruct (back s) as [b|]; [|discriminate].
  destruct (recountNaturalSize _); simpl; discriminate.
Qed.

Lemma naturalLoop_app s a b :
  forall n, naturalLoop s n (a ++ b)
            = (n' <- naturalLoop s n a ;; naturalLoop s n' b).
Proof.
  induction a as [|x a IH]; intros n; [reflexivity|].
  simpl. destruct (naturalStep s n x); simpl; auto.
Qed.

Lemma paragraphByIndex_same s s' index :
  _extended s = _extended s' ->
  paragraphByIndex s index = paragraphByIndex s' index.
Proof. intros H. unfold paragraphByIndex. rewrite H. reflexivity. Qed.

Lemma paragraphPadding_same s s' p :
  _st s = _st s' -> paragraphPadding s p = paragraphPadding s' p.
Proof. intros H. unfold paragraphPadding. rewrite H. reflexivity. Qed.

(** A natural size exists for the blocks of a string when it exists for
    them and more blocks. *)
Lemma naturalSize_prefix s s' more r :
  _st s = _st s' -> _extended s = _extended s' ->
  _startParagraphIndex s = _startParagraphIndex s' ->
  _blocks s = _blocks s' ++ more ->
  naturalSize s = Done r -> exists r', naturalSize s' = Done r'.
Proof.
  intros Hst Hext Hstart Hblocks. unfold naturalSize, paragraphIndex.
  rewrite (paragraphByIndex_same s s' _ Hext), Hstart, Hblocks.
  destruct (paragraphByIndex s' (_startParagraphIndex s')) as [p| |];
    cbn [obind]; try discriminate.
  rewrite (paragraphPadding_same s s' p Hst).
  rewrite naturalLoop_app.
  rewrite (naturalLoop_same s s' (_blocks s') Hst Hext).
  destruct (naturalLoop s' _ (_blocks s')) as [n| |];
    cbn [obind]; try discriminate.
  intros _. destruct (0 <? n_width n); eexists; reflexivity.
Qed.

Lemma recountNaturalSize_sized s s1 :
  recountNaturalSize s = Done s1 -> exists r1, naturalSize s1 = Done r1.
Proof.
  unfold recountNaturalSize.
  destruct (naturalSize s) as [[[mw mh] e]| |] eqn:E; cbn [obind];
    try discriminate.
  intros H. inversion H; subst.
  eapply naturalSize_prefix with (more := []); [| | | |exact E];
    try reflexivity.
  simpl. now rewrite app_nil_r.
Qed.

Lemma recountNaturalSize_content s s1 :
  recountNaturalSize s = Done s1 ->
  _text s1 = _text s /\ _blocks s1 = _blocks s /\
  _skipBlockAddedNewline s1 = _skipBlockAddedNewline s /\
  _st s1 = _st s /\ _extended s1 = _extended s /\
  _startParagraphIndex s1 = _startParagraphIndex s.
Proof.
  unfold recountNaturalSize.
  destruct (naturalSize s) as [[[mw mh] e]| |]; cbn [obind]; try discriminate.
  intros H. inversion H. repeat split.
Qed.

(** Without a skip block, [updateSkipBlock] appends one, behind a
    newline when the text ends in a framed paragraph. *)
Lemma updateSkipBlock_appends s width height r s1 :
  hasSkipBlock s = false ->
  updateSkipBlock s width height = Done (r, s1) ->
  r = true /\ hasSkipBlock s1 = true /\
  _text s1
  = _text s ++ (if _endsWithParagraphDetails s then [LineFeed] else [])
    ++ qstr "_" /\
  _blocks s1
  = _blocks s
    ++ (if _endsWithParagraphDetails s
        then [Block_Newline (_st s) (size (_text s)) 0 0 0] else [])
    ++ [Block_Skip
          (size (_text s) + (if _endsWithParagraphDetails s then 1 else 0))
          width height 0 0] /\
  _skipBlockAddedNewline s1
  = _endsWithParagraphDetails s || _skipBlockAddedNewline s.
Proof.
  intros Hskip. unfold updateSkipBlock. rewrite Hskip.
  destruct (_endsWithParagraphDetails s);
    match goal with
    | |- context [recountNaturalSize ?x] =>
        destruct (recountNaturalSize x) as [s'| |] eqn:E
    end; cbn [obind]; try discriminate;
    intros H; inversion H; subst;
    destruct (recountNaturalSize_content _ _ E) as (Ht & Hb & Hf & _);
    cbn [withContent _text _blocks _skipBlockAddedNewline] in Ht, Hb, Hf;
    (split; [reflexivity|]); (split; [|split; [|split]]).
  - unfold hasSkipBlock, back. rewrite Hb, map_app. simpl.
    rewrite last_last. reflexivity.
  - rewrite Ht, <- app_assoc. reflexivity.
  - rewrite Hb, <- app_assoc. simpl. rewrite !size_app.
    change (size [LineFeed]) with 1. change (size [95]) with 1.
    replace (size (_text s) + 1 - 1) with (size (_text s)) by lia.
    replace (size (_text s) + 1 + 1 - 1) with (size (_text s) + 1) by lia.
    reflexivity.
  - rewrite Hf. reflexivity.
  - unfold hasSkipBlock, back. rewrite Hb, map_app. simpl.
    rewrite last_last. reflexivity.
  - rewrite Ht. reflexivity.
  - rewrite Hb. simpl. rewrite !size_app.
    change (size [95]) with 1.
    replace (size (_text s) + 1 - 1) with (size (_text s) + 0) by lia.
    reflexivity.
  - rewrite Hf. reflexivity.
Qed.

(** For a string whose [_skipBlockAddedNewline] is clear,
    [removeSkipBlock] takes back what [updateSkipBlock] appended. *)
Lemma removeSkipBlock_undoes_update s width height r s1 :
  hasSkipBlock s = false -> _skipBlockAddedNewline s = false ->
  updateSkipBlock s width height = Done (r, s1) ->
  exists s2,
    removeSkipBlock s1 = Done (true, s2) /\
    _text s2 = _text s /\ _blocks s2 = _blocks s /\
    _skipBlockAddedNewline s2 = false.
Proof.
  intros Hskip Hflag Hupdate.
  destruct (updateSkipBlock_appends s width height r s1 Hskip Hupdate)
    as (_ & Hhas & Htext & Hblocks & Hflag1).
  rewrite Hflag, orb_false_r in Hflag1.
  assert (Hsize : exists r1, naturalSize s1 = Done r1).
  { unfold updateSkipBlock in Hupdate. rewrite Hskip in Hupdate.
    destruct (_endsWithParagraphDetails s);
      match type of Hupdate with
      | context [recountNaturalSize ?x] =>
          destruct (recountNaturalSize x) as [s'| |] eqn:E
      end; cbn [obind] in Hupdate; try discriminate;
      inversion Hupdate; subst;
      exact (recountNaturalSize_sized _ _ E). }
  unfold removeSkipBlock. rewrite Hhas.
  assert (Hback : exists b, back s1 = Some b /\
                            b_position b
                            = size (_text s)
                              + (if _endsWithParagraphDetails s then 1 else 0)).
  { unfold back. rewrite Hblocks, app_assoc, map_app. simpl.
    rewrite last_last. eexists. split; reflexivity. }
  destruct Hback as (b & Hback & Hpos). rewrite Hback, Hflag1.
  destruct Hsize as [r1 Hsize].
  set (restored :=
         if _endsWithParagraphDetails s
         then withContent s1 (resize (_text s1) (b_position b - 1))
                (removelast (removelast (_blocks s1))) false
         else withContent s1 (resize (_text s1) (b_position b))
                (removelast (_blocks s1)) (_endsWithParagraphDetails s)).
  assert (Hrestored : _text restored = _text s /\ _blocks restored = _blocks s
                      /\ _skipBlockAddedNewline restored = false
                      /\ _st restored = _st s1
                      /\ _extended restored = _extended s1
                      /\ _startParagraphIndex restored
                         = _startParagraphIndex s1).
  { unfold restored. rewrite Htext, Hblocks, Hpos.
    destruct (_endsWithParagraphDetails s); cbn [withContent _text _blocks
      _skipBlockAddedNewline _st _extended _startParagraphIndex];
      repeat split.
    - unfold resize, size.
      replace (Z.to_nat (Z.of_nat (List.length (_text s)) + 1 - 1))
        with (List.length (_text s) + 0)%nat by lia.
      rewrite firstn_app_2. simpl. apply app_nil_r.
    - rewrite app_assoc, removelast_last.
      simpl. rewrite removelast_last. reflexivity.
    - unfold resize, size.
      replace (Z.to_nat (Z.of_nat (List.length (_text s)) + 0))
        with (List.length (_text s) + 0)%nat by lia.
      rewrite firstn_app_2. simpl. apply app_nil_r.
    - simpl. rewrite removelast_last. reflexivity. }
  destruct Hrestored as (Ht & Hb & Hf & Hst & Hext & Hstart).
  destruct (naturalSize_prefix s1 restored
              ((if _endsWithParagraphDetails s
                then [Block_Newline (_st s) (size (_text s)) 0 0 0] else [])
               ++ [Block_Skip
                     (size (_text s)
                      + (if _endsWithParagraphDetails s then 1 else 0))
                     width height 0 0])
              r1) as [[[mw mh] e] Hnat]; auto.
  { rewrite Hb. exact Hblocks. }
  fold restored. unfold recountNaturalSize. rewrite Hnat. cbn [obind].
  eexists. split; [reflexivity|]. cbn [_text _blocks _skipBlockAddedNewline].
  auto.
Qed.

(** C10. [removeSkipBlock] trusts [_skipBlockAddedNewline], which
    [clear] does not reset. A string that ended in a framed paragraph
    and got its skip block behind an inserted newline keeps the flag
    through [setText]; for the new text "ab", which needs no newline,
    [updateSkipBlock] appends the skip block alone, and
    [removeSkipBlock] then takes the last character and the last block
    of the text away with it. *)
Theorem removeSkipBlock_after_setText_drops_content :
  exists s1 s2 s3 s4,
    updateSkipBlock Sample.framedHelloSized 10 5 = Done (true, s1) /\
    _skipBlockAddedNewline s1 = true /\
    setText s1 (qstr "ab") [Sample.word 0 20] None 0 = Done s2 /\
    (_text s2, _blocks s2) = (qstr "ab", [Sample.word 0 20]) /\
    (_endsWithParagraphDetails s2, _skipBlockAddedNewline s2) = (false, true) /\
    updateSkipBlock s2 10 5 = Done (true, s3) /\
    (_text s3, _blocks s3)
    = (qstr "ab_", [Sample.word 0 20; Block_Skip 2 10 5 0 0]) /\
    removeSkipBlock s3 = Done (true, s4) /\
    (_text s4, _blocks s4) = (qstr "a", []).
Proof.
  do 4 eexists.
  split; [vm_compute; reflexivity|].
  split; [reflexivity|].
  split; [vm_compute; reflexivity|].
  split; [reflexivity|].
  split; [reflexivity|].
  split; [vm_compute; reflexivity|].
  split; [reflexivity|].
  split; vm_compute; reflexivity.
Qed.

(** ** The entities of links *)

Section EnumerateInvariant.
Context {St : Type}.
Variable appendPart : QString -> QString -> St -> St.
Variable start : EntityType.t -> St -> St.
Variable finish : QString -> option ClickHandler -> EntityType.t -> St -> St.
Variable flagsChange : Z -> Z -> St -> St.
Variable P : St -> Prop.
Variable s : String.
Hypothesis Happend : forall part data st, P st -> P (appendPart part data st).
Hypothesis Hstart : forall type st, P st -> P (start type st).
Hypothesis Hfinish :
  forall inText handler type st,
    (forall h, handler = Some h -> exists i, linkAt s i = Some h) ->
    P st -> P (finish inText handler type st).
Hypothesis Hflags : forall o n st, P st -> P (flagsChange o n st).

Lemma linkBoundary_invariant selection blockPosition k linkIndex linkPosition
    acc :
  P acc ->
  P (snd (linkBoundary start finish s selection blockPosition k linkIndex
            linkPosition acc)).
Proof.
  intros H. unfold linkBoundary.
  destruct (negb (k =? linkIndex)); [|exact H].
  assert (H' : P (if negb (linkIndex =? 0)
                  then
                    if Z.max (from selection) linkPosition
                       <? Z.min (to selection) blockPosition
                    then
                      finish
                        (StringViewMid (_text s)
                           (Z.max (from selection) linkPosition)
                           (Z.min (to selection) blockPosition
                            - Z.max (from selection) linkPosition))
                        (finishHandler s linkIndex linkPosition blockPosition
                           (Z.max (from selection) linkPosition)
                           (Z.min (to selection) blockPosition))
                        (handlerType
                           (finishHandler s linkIndex linkPosition
                              blockPosition
                              (Z.max (from selection) linkPosition)
                              (Z.min (to selection) blockPosition)))
                        acc
                    else acc
                  else acc)).
  { destruct (negb (linkIndex =? 0)); [|exact H].
    destruct (_ <? _); [|exact H].
    apply Hfinish; [|exact H].
    intros h Hh. unfold finishHandler in Hh.
    destruct (_ || _); [discriminate|]. exists linkIndex. exact Hh. }
  destruct (negb (k =? 0)); simpl; [apply Hstart|]; exact H'.
Qed.

Lemma enumerateTextLoop_invariant selection :
  forall bs linkIndex linkPosition flags acc,
    P acc ->
    P (enumerateTextLoop appendPart start finish flagsChange s selection bs
         linkIndex linkPosition flags acc).
Proof.
  induction bs as [|b rest IH]; intros lk lp fl acc H.
  - cbn [enumerateTextLoop hd_error].
    pose proof (linkBoundary_invariant selection (uint16 (size (_text s)))
                  (blockLinkIndex s None) lk lp acc H) as Hb.
    destruct (linkBoundary _ _ _ _ _ _ _ _ _) as [[lk' lp'] acc'].
    simpl in Hb.
    destruct (_ && _); [apply Hflags|]; exact Hb.
  - cbn [enumerateTextLoop hd_error].
    pose proof (linkBoundary_invariant selection (b_position b)
                  (blockLinkIndex s (Some b)) lk lp acc H) as Hb.
    destruct (linkBoundary _ _ _ _ _ _ _ _ _) as [[lk' lp'] acc'].
    simpl in Hb.
    destruct (_ && negb (b_flags b =? fl)); cbv beta iota;
      (destruct (to selection <=? _); [try apply Hflags; exact Hb|]);
      (destruct (TextBlockType.eqb _ _);
       [apply IH; try apply Hflags; exact Hb|]);
      (destruct (_ <? _); apply IH; try apply Happend; try apply Hflags;
       exact Hb).
Qed.

Lemma enumerateText_invariant selection acc :
  P acc ->
  P (enumerateText appendPart start finish flagsChange s selection acc).
Proof.
  intros H. unfold enumerateText.
  destruct (isEmpty s || sel_empty selection); [exact H|].
  apply enumerateTextLoop_invariant. exact H.
Qed.
End EnumerateInvariant.

Lemma insertEntityRev_perm entity rl :
  Permutation (entity :: rl) (insertEntityRev entity rl).
Proof.
  induction rl as [|j before IH]; simpl; [apply Permutation_refl|].
  destruct (e_offset j <=? e_offset entity); [apply Permutation_refl|].
  eapply perm_trans; [apply perm_swap|]. apply perm_skip. exact IH.
Qed.

Lemma insertEntity_perm entity l :
  Permutation (entity :: l) (insertEntity entity l).
Proof.
  unfold insertEntity.
  eapply perm_trans; [|apply Permutation_rev].
  eapply perm_trans; [|apply insertEntityRev_perm].
  apply perm_skip. apply Permutation_rev.
Qed.

Lemma trackFlags_text oldFlags newFlags trackers r :
  rich_text (snd (trackFlags oldFlags newFlags trackers r)) = rich_text r /\
  expanded (snd (trackFlags oldFlags newFlags trackers r)) = expanded r.
Proof.
  revert r. induction trackers as [|t rest IH]; intros r; [split; reflexivity|].
  cbn [trackFlags].
  destruct (hasFlag oldFlags (tr_flag t) && negb (hasFlag newFlags (tr_flag t))).
  - specialize (IH (withEntity
                      (mkEntity (tr_type t) (tr_start t)
                         (size (rich_text r) - tr_start t) []) r)).
    destruct (trackFlags oldFlags newFlags rest _) as [rest' r']. exact IH.
  - destruct (hasFlag newFlags (tr_flag t) && negb (hasFlag oldFlags (tr_flag t)));
      specialize (IH r);
      destruct (trackFlags oldFlags newFlags rest r) as [rest' r']; exact IH.
Qed.

Lemma flagsChangeCallback_text cen o n st :
  textOf (flagsChangeCallback cen o n st) = textOf st.
Proof.
  unfold flagsChangeCallback, textOf. destruct cen; [|reflexivity].
  cbn [negb]. pose proof (trackFlags_text o n (tt_trackers st) (tt_result st)) as [H _].
  destruct (trackFlags o n (tt_trackers st) (tt_result st)). exact H.
Qed.

Lemma clickHandlerFinishCallback_text enc ce cen inText handler type st :
  textOf (clickHandlerFinishCallback enc ce cen inText handler type st)
  = textOf st.
Proof.
  unfold clickHandlerFinishCallback, textOf.
  destruct handler as [h|]; [|reflexivity].
  destruct (negb ce && negb cen); [reflexivity|].
  destruct ce, cen; cbn [andb negb tt_result];
    repeat match goal with
           | |- context [if ?c then _ else _] => destruct c
           end; reflexivity.
Qed.

Lemma appendPartCallback_text_any ce cen part data st :
  textOf (appendPartCallback ce cen part data st) = textOf st ++ part.
Proof.
  unfold appendPartCallback, textOf.
  destruct (cen && _); reflexivity.
Qed.

Lemma filter_Permutation {A : Type} (f : A -> bool) (l l' : list A) :
  Permutation l l' -> Permutation (filter f l) (filter f l').
Proof.
  induction 1 as [|x l l' H IH|x y l|l l' l'' H1 IH1 H2 IH2]; simpl.
  - constructor.
  - destruct (f x); [constructor|]; exact IH.
  - destruct (f x), (f y); try reflexivity. constructor.
  - eapply perm_trans; eassumption.
Qed.

Lemma linkEntities_insert entity l :
  Permutation (linkEntities (insertEntity entity l))
    ((if styleType (e_type entity) then [] else [entity]) ++ linkEntities l).
Proof.
  unfold linkEntities.
  eapply perm_trans.
  - apply filter_Permutation. apply Permutation_sym. apply insertEntity_perm.
  - simpl. destruct (styleType (e_type entity)); reflexivity.
Qed.

Lemma trackFlags_linkEntities o n trackers r :
  Forall (fun t => styleType (tr_type t) = true) trackers ->
  Permutation (linkEntities (rich_entities (snd (trackFlags o n trackers r))))
    (linkEntities (rich_entities r)) /\
  Forall (fun t => styleType (tr_type t) = true)
    (fst (trackFlags o n trackers r)).
Proof.
  revert r. induction trackers as [|t rest IH]; intros r Hall.
  - split; [reflexivity | constructor].
  - inversion Hall as [|? ? Ht Hrest]; subst.
    cbn [trackFlags].
    destruct (hasFlag o (tr_flag t) && negb (hasFlag n (tr_flag t))).
    + specialize (IH (withEntity
                        (mkEntity (tr_type t) (tr_start t)
                           (size (rich_text r) - tr_start t) []) r) Hrest).
      destruct (trackFlags o n rest _) as [rest' r'].
      destruct IH as [IH1 IH2]. cbn [fst snd] in *. split.
      * eapply perm_trans; [exact IH1|].
        cbn [withEntity rich_entities].
        eapply perm_trans; [apply linkEntities_insert|].
        cbn [e_type]. rewrite Ht. reflexivity.
      * constructor; assumption.
    + destruct (hasFlag n (tr_flag t) && negb (hasFlag o (tr_flag t)));
        specialize (IH r Hrest);
        destruct (trackFlags o n rest r) as [rest' r'];
        destruct IH as [IH1 IH2]; cbn [fst snd] in *;
        (split; [exact IH1 | constructor; assumption]).
Qed.

Section LinkView.
Variable enc : QString -> QString.
Variable ce : bool.

Lemma appendPart_linkView part data st T ls L :
  linkView st T ls L ->
  linkView (appendPartCallback ce true part data st) (T + size part) ls L.
Proof.
  intros (HT & Hls & HL & Htr). unfold linkView.
  rewrite appendPartCallback_text_any, size_app, HT.
  split; [reflexivity|]. unfold appendPartCallback. cbn [andb].
  destruct (negb match data with [] => true | _ :: _ => false end);
    cbn [tt_linkStart tt_result tt_trackers withEntity rich_entities];
    (split; [exact Hls|]); (split; [|exact Htr]); [|exact HL].
  eapply perm_trans; [apply linkEntities_insert|]. exact HL.
Qed.

Lemma flagsChange_linkView o n st T ls L :
  linkView st T ls L -> linkView (flagsChangeCallback true o n st) T ls L.
Proof.
  intros (HT & Hls & HL & Htr). unfold linkView.
  rewrite flagsChangeCallback_text. split; [exact HT|].
  unfold flagsChangeCallback. cbn [negb].
  pose proof (trackFlags_linkEntities o n (tt_trackers st) (tt_result st) Htr)
    as [H1 H2].
  destruct (trackFlags o n (tt_trackers st) (tt_result st)) as [tr r].
  cbn [fst snd] in *. cbn [tt_linkStart tt_result tt_trackers].
  split; [exact Hls|]. split; [|exact H2].
  eapply perm_trans; eassumption.
Qed.

Lemma start_linkView type st T ls L :
  linkView st T ls L -> linkView (clickHandlerStartCallback type st) T T L.
Proof.
  intros (HT & Hls & HL & Htr). unfold linkView, clickHandlerStartCallback.
  unfold textOf in *. cbn [tt_linkStart tt_result tt_trackers].
  repeat split; assumption.
Qed.

Lemma finish_linkView inText handler type st T ls L :
  (forall h, handler = Some h -> styleType (h_type h) = false) ->
  linkView st T ls L ->
  linkView (clickHandlerFinishCallback enc ce true inText handler type st)
    T ls (L ++ finishEntity handler ls T).
Proof.
  intros Hh (HT & Hls & HL & Htr). unfold linkView.
  rewrite clickHandlerFinishCallback_text. split; [exact HT|].
  rewrite clickHandlerFinishCallback_entities.
  unfold finishEntity.
  destruct handler as [h|].
  - assert (Hkeep : tt_linkStart
                      (clickHandlerFinishCallback enc ce true inText (Some h)
                         type st) = tt_linkStart st
                    /\ tt_trackers
                         (clickHandlerFinishCallback enc ce true inText
                            (Some h) type st) = tt_trackers st).
    { unfold clickHandlerFinishCallback. rewrite andb_false_r.
      split; reflexivity. }
    destruct Hkeep as [-> ->].
    split; [exact Hls|]. split; [|exact Htr].
    cbn [andb]. destruct (internalLink h); cbn [negb].
    + rewrite app_nil_r. exact HL.
    + eapply perm_trans; [apply linkEntities_insert|].
      unfold linkEntity at 1. cbn [e_type]. rewrite (Hh h eq_refl).
      unfold textOf in HT. rewrite HT, Hls.
      eapply perm_trans; [|apply Permutation_app_comm].
      simpl. constructor. exact HL.
  - cbn [clickHandlerFinishCallback]. rewrite app_nil_r.
    repeat split; assumption.
Qed.

Variable s : String.
Variable selection : TextSelection.

(** The part of an iteration that runs when the link index changes. *)
Lemma linkBoundary_linkView blockPosition k linkIndex linkPosition st T ls L :
  linkTyped s linkIndex ->
  linkView st T ls L ->
  let '(lk, lp, st') :=
    linkBoundary clickHandlerStartCallback
      (clickHandlerFinishCallback enc ce true) s selection blockPosition k
      linkIndex linkPosition st in
  lk = k /\
  lp = (if (k =? linkIndex) || (k =? 0) then linkPosition else blockPosition) /\
  linkView st' T
    (if (k =? linkIndex) || (k =? 0) then ls else T)
    (L ++ (if (k =? linkIndex) || (linkIndex =? 0) then []
           else if runMet selection linkPosition blockPosition
                then finishEntity
                       (if runCovered selection linkPosition blockPosition
                        then linkAt s linkIndex else None) ls T
                else [])).
Proof.
  intros Htyped Hview. unfold linkBoundary.
  destruct (Z.eqb_spec k linkIndex) as [->|Hne]; cbn [negb orb].
  - repeat split; try apply Hview.
    rewrite app_nil_r. apply Hview.
  - set (acc := if negb (linkIndex =? 0) then _ else st).
    assert (Hacc : linkView acc T ls
                     (L ++ (if linkIndex =? 0 then []
                            else if runMet selection linkPosition blockPosition
                                 then finishEntity
                                        (if runCovered selection linkPosition
                                              blockPosition
                                         then linkAt s linkIndex else None)
                                        ls T
                                 else []))).
    { unfold acc. destruct (linkIndex =? 0); cbn [negb].
      - rewrite app_nil_r. exact Hview.
      - unfold runMet.
        destruct (_ <? _).
        + rewrite finishHandler_covered.
          apply finish_linkView; [|exact Hview].
          intros h Hh.
          destruct (runCovered selection linkPosition blockPosition);
            [|discriminate].
          apply (Htyped h Hh).
        + rewrite app_nil_r. exact Hview. }
    clearbody acc.
    destruct (k =? 0); cbn [negb].
    + repeat split; apply Hacc.
    + split; [reflexivity|]. split; [reflexivity|].
      apply start_linkView with (ls := ls). exact Hacc.
Qed.
End LinkView.

Lemma flat_map_nil_impl {A B C : Type} (f : A -> list B) (g : A -> list C)
    (l : list A) :
  (forall x, f x = [] -> g x = []) -> flat_map f l = [] -> flat_map g l = [].
Proof.
  intros Hfg. induction l as [|x l IH]; [reflexivity|].
  simpl. intros H. apply app_eq_nil in H. destruct H as [Hx Hl].
  rewrite (Hfg x Hx), (IH Hl). reflexivity.
Qed.

(** A block of [p, p') adds its part under the selection to the
    extracted text. *)
Lemma extractedBefore_block selection textEnd p p' :
  0 <= from selection -> p <= p' -> p' <= textEnd ->
  extractedBefore selection textEnd p'
  = extractedBefore selection textEnd p
    + Z.max 0 (Z.min (to selection) p' - Z.max (from selection) p).
Proof. intros H1 H2 H3. unfold extractedBefore. lia. Qed.

Section LinkLoop.
Variable enc : QString -> QString.
Variable ce : bool.
Variable s : String.
Variable selection : TextSelection.
Variable textEnd : Z.
Hypothesis Hsz : size (_text s) <= 65535.
Hypothesis Hfrom : 0 <= from selection.
Hypothesis HtextEnd : textEnd <= size (_text s).

(** The finish callback at the end of a run adds the entity of the
    run. *)
Lemma finish_runEntity lk lp bp :
  lp <= bp -> lp <= textEnd ->
  (if runMet selection lp bp
   then finishEntity
          (if runCovered selection lp bp then linkAt s lk else None)
          (extractedBefore selection textEnd lp)
          (extractedBefore selection textEnd bp)
   else [])
  = runEntityAt textEnd s selection (mkRun lk lp bp).
Proof.
  intros Hle Hend. unfold runEntityAt, finishEntity, extractedBefore.
  cbn [run_from run_to run_link].
  destruct (runMet selection lp bp); [|reflexivity]. cbn [andb].
  destruct (runCovered selection lp bp) eqn:Ec; [|reflexivity].
  unfold runCovered in Ec. apply andb_true_iff in Ec.
  destruct Ec as [E1 E2]. apply Z.leb_le in E1, E2.
  destruct (linkAt s lk) as [h|]; [|reflexivity].
  destruct (internalLink h); [reflexivity|].
  f_equal. f_equal; lia.
Qed.

Lemma runs_unmet_entities bs lk lp :
  (lk <> 0 -> to selection <= lp) ->
  Forall (fun b => to selection <= b_position b) bs ->
  flat_map (runEntityAt textEnd s selection) (linkRunsFrom s bs lk lp) = [].
Proof.
  intros H1 H2.
  apply (flat_map_nil_impl (runFinish s selection)).
  - intros run H. unfold runFinish in H. unfold runEntityAt.
    destruct (runMet selection (run_from run) (run_to run));
      [discriminate | reflexivity].
  - apply runs_unmet; assumption.
Qed.

(** The runs from a block on: the run that ends at the block, then the
    runs from the next block on. *)
Lemma linkRunsFrom_step {B : Type} (R : LinkRun -> list B) b rest lk lp :
  flat_map R (linkRunsFrom s (b :: rest) lk lp)
  = (if (blockLinkIndex s (Some b) =? lk) || (lk =? 0) then []
     else R (mkRun lk lp (b_position b)))
    ++ flat_map R
         (linkRunsFrom s rest (blockLinkIndex s (Some b))
            (if (blockLinkIndex s (Some b) =? lk)
                || (blockLinkIndex s (Some b) =? 0)
             then lp else b_position b)).
Proof.
  cbn [linkRunsFrom]. set (k := blockLinkIndex s (Some b)).
  destruct (Z.eqb_spec k lk) as [->|Hne]; cbn [orb]; [reflexivity|].
  rewrite flat_map_app.
  destruct (lk =? 0); simpl; rewrite ?app_nil_r; reflexivity.
Qed.

Lemma enumerateTextLoop_linkEntities :
  forall bs lk lp fl st T ls L,
    StronglySorted Z.lt (map b_position bs) ->
    Forall (fun b => 0 <= b_position b < size (_text s)) bs ->
    Forall (fun b => b_type b <> TextBlockType.Skip) (removelast bs) ->
    (bs <> [] -> textEnd = extentEnd s bs) ->
    Forall (fun b => linkTyped s (blockLinkIndex s (Some b))) bs ->
    linkTyped s lk ->
    linkView st T ls L ->
    T = extractedBefore selection textEnd
          (match bs with [] => size (_text s) | b :: _ => b_position b end) ->
    (lk <> 0 ->
     ls = extractedBefore selection textEnd lp /\
     lp <= match bs with [] => size (_text s) | b :: _ => b_position b end /\
     lp <= textEnd) ->
    Permutation
      (linkEntities
         (rich_entities
            (tt_result
               (enumerateTextLoop (appendPartCallback ce true)
                  clickHandlerStartCallback
                  (clickHandlerFinishCallback enc ce true)
                  (flagsChangeCallback true) s selection bs lk lp fl st))))
      (L ++ flat_map (runEntityAt textEnd s selection)
              (linkRunsFrom s bs lk lp)).
Proof.
  assert (Hsz0 : 0 <= size (_text s)) by (unfold size; lia).
  induction bs as [|b rest IH];
    intros lk lp fl st T ls L Hsorted Hpos Hskip Hend Htyped Hlk Hview HT
      Hlink.
  - cbn [enumerateTextLoop hd_error blockLinkIndex linkRunsFrom].
    rewrite uint16_small by lia.
    pose proof (linkBoundary_linkView enc ce s selection
                  (size (_text s)) 0 lk lp st T ls L Hlk Hview) as Hb.
    destruct (linkBoundary _ _ _ _ _ _ _ _ _) as [[lk' lp'] st'].
    destruct Hb as (Hlk' & Hlp' & Hv').
    assert (Hfinal : forall st'',
              linkView st'' T
                (if (0 =? lk) || (0 =? 0) then ls else T)
                (L ++ (if (0 =? lk) || (lk =? 0) then []
                       else if runMet selection lp (size (_text s))
                            then finishEntity
                                   (if runCovered selection lp
                                         (size (_text s))
                                    then linkAt s lk else None) ls T
                            else [])) ->
              Permutation (linkEntities (rich_entities (tt_result st'')))
                (L ++ flat_map (runEntityAt textEnd s selection)
                        (if lk =? 0 then []
                         else [mkRun lk lp (size (_text s))]))).
    { intros st'' (_ & _ & HL & _).
      eapply perm_trans; [exact HL|]. apply Permutation_app_head.
      destruct (Z.eqb_spec lk 0) as [E0|Hne];
        [rewrite orb_true_r; reflexivity|].
      destruct (Z.eqb_spec 0 lk); [congruence|]. cbn [orb].
      destruct (Hlink Hne) as (Hls & Hle & Hle').
      simpl. rewrite app_nil_r. rewrite HT, Hls.
      rewrite finish_runEntity by assumption. reflexivity. }
    destruct (_ && _); cbv beta iota; apply Hfinal;
      [apply flagsChange_linkView|]; exact Hv'.
  - cbn [enumerateTextLoop hd_error].
    rewrite linkRunsFrom_step, app_assoc.
    set (k := blockLinkIndex s (Some b)).
    pose proof (linkBoundary_linkView enc ce s selection
                  (b_position b) k lk lp st T ls L Hlk Hview) as Hb.
    destruct (linkBoundary _ _ _ _ _ _ _ _ _) as [[lk' lp'] st'].
    destruct Hb as (Hlk' & Hlp' & Hv').
    pose proof (Forall_inv Hpos) as Hb. cbv beta in Hb.
    pose proof (Forall_inv Htyped) as Hk. cbv beta in Hk. fold k in Hk.
    pose proof (Forall_inv_tail Htyped) as Htyped'.
    pose proof (Forall_inv_tail Hpos) as Hrest.
    cbn [map] in Hsorted.
    pose proof (StronglySorted_inv Hsorted) as [Hsorted' Hall].
    pose proof (extentEnd_bounds s b rest Hsorted Hpos) as Hext.
    rewrite <- Hend in Hext by discriminate.
    assert (Hall' : Forall (fun b' => b_position b < b_position b') rest).
    { apply (proj1 (Forall_map b_position (Z.lt (b_position b)) rest)).
      exact Hall. }
    assert (Hadded :
              (if (k =? lk) || (lk =? 0) then []
               else if runMet selection lp (b_position b)
                    then finishEntity
                           (if runCovered selection lp (b_position b)
                            then linkAt s lk else None) ls T
                    else [])
              = (if (k =? lk) || (lk =? 0) then []
                 else runEntityAt textEnd s selection
                        (mkRun lk lp (b_position b)))).
    { destruct ((k =? lk) || (lk =? 0)) eqn:Ek; [reflexivity|].
      apply orb_false_iff in Ek. destruct Ek as [_ Ek].
      apply Z.eqb_neq in Ek.
      destruct (Hlink Ek) as (Hls & Hle & Hle').
      rewrite HT, Hls. apply finish_runEntity; assumption. }
    rewrite Hadded in Hv'. clear Hadded.
    set (L' := L ++ (if (k =? lk) || (lk =? 0) then []
                     else runEntityAt textEnd s selection
                            (mkRun lk lp (b_position b)))) in *.
    assert (Hlinked : k <> 0 ->
              (if (k =? lk) || (k =? 0) then ls else T)
              = extractedBefore selection textEnd lp' /\
              lp' <= b_position b /\ lp' <= textEnd).
    { intros Hk0. rewrite Hlp'.
      destruct (Z.eqb_spec k lk) as [E|E]; cbn [orb].
      - apply Hlink. congruence.
      - destruct (Z.eqb_spec k 0); [contradiction|].
        rewrite HT. repeat split; lia. }
    subst lk'. rewrite Hlp' in *. clear Hlp' lp'.
    set (lp' := if (k =? lk) || (k =? 0) then lp else b_position b) in *.
    set (ls' := if (k =? lk) || (k =? 0) then ls else T) in *.
    assert (Hstep : forall fl' st'',
              linkView st'' T ls' L' ->
              Permutation
                (linkEntities
                   (rich_entities
                      (tt_result
                         (if to selection
                             <=? (if negb (k =? 0) then lp' else b_position b)
                          then st''
                          else
                            if TextBlockType.eqb (b_type b) TextBlockType.Skip
                            then
                              enumerateTextLoop (appendPartCallback ce true)
                                clickHandlerStartCallback
                                (clickHandlerFinishCallback enc ce true)
                                (flagsChangeCallback true) s selection rest k
                                lp' fl' st''
                            else
                              enumerateTextLoop (appendPartCallback ce true)
                                clickHandlerStartCallback
                                (clickHandlerFinishCallback enc ce true)
                                (flagsChangeCallback true) s selection rest k
                                lp' fl'
                                (if Z.max (from selection) (b_position b)
                                    <? Z.min (to selection)
                                         (uint16 (b_position b
                                                  + countBlockLength s b rest))
                                 then
                                   appendPartCallback ce true
                                     (StringViewMid (_text s)
                                        (Z.max (from selection) (b_position b))
                                        (Z.min (to selection)
                                           (uint16
                                              (b_position b
                                               + countBlockLength s b rest))
                                         - Z.max (from selection)
                                             (b_position b)))
                                     (if TextBlockType.eqb (b_type b)
                                           TextBlockType.CustomEmoji
                                      then b_entityData b else [])
                                     st''
                                 else st'')))))
                (L' ++ flat_map (runEntityAt textEnd s selection)
                         (linkRunsFrom s rest k lp'))).
    { intros fl' st'' Hv''.
      destruct (Z.leb_spec (to selection)
                  (if negb (k =? 0) then lp' else b_position b))
        as [Hstop|Hgo].
      { (* the walk stops: no later run is met *)
        rewrite runs_unmet_entities, app_nil_r; [apply Hv''| |].
        - intros Hk0. destruct (Z.eqb_spec k 0); [contradiction|].
          exact Hstop.
        - destruct (Z.eqb_spec k 0) as [E0|E0]; cbn [negb] in Hstop.
          + eapply Forall_impl; [|exact Hall']. simpl. intros. lia.
          + destruct (Hlinked E0) as (_ & Hle & _).
            eapply Forall_impl; [|exact Hall']. simpl. intros. lia. }
      destruct (TextBlockType.eqb (b_type b) TextBlockType.Skip) eqn:Eskip.
      - (* a skip block is the last block *)
        destruct rest as [|b' rest'].
        2:{ exfalso. simpl in Hskip. inversion Hskip as [|? ? Hns _]; subst.
            apply Hns. destruct (b_type b); simpl in Eskip; congruence. }
        assert (HE : textEnd = b_position b).
        { rewrite Hend by discriminate. unfold extentEnd. simpl.
          rewrite Eskip. reflexivity. }
        eapply IH with (T := T) (ls := ls');
          [constructor | constructor | constructor
           | intros H; contradiction | constructor | exact Hk | exact Hv''
           | |].
        + rewrite HT. unfold extractedBefore. lia.
        + intros Hk0. destruct (Hlinked Hk0) as (H1 & H2 & H3).
          repeat split; [exact H1 | lia | exact H3].
      - assert (Hnext : b_position b < countBlockEnd s rest <= size (_text s)
                        /\ countBlockEnd s rest <= textEnd
                        /\ countBlockEnd s rest
                           = match rest with
                             | [] => size (_text s)
                             | b' :: _ => b_position b'
                             end).
        { unfold countBlockEnd. destruct rest as [|b' rest'].
          - rewrite uint16_small by lia.
            assert (HE : textEnd = size (_text s)).
            { rewrite Hend by discriminate. unfold extentEnd. simpl.
              rewrite Eskip. reflexivity. }
            lia.
          - pose proof (Forall_inv Hall') as H1.
            pose proof (Forall_inv Hrest) as H2. cbv beta in H1, H2.
            pose proof (extentEnd_bounds s b' rest' Hsorted' Hrest) as H3.
            rewrite Hend in * by discriminate.
            rewrite extentEnd_cons. lia. }
        destruct Hnext as (Hcbe & Hcbe' & Hhead).
        unfold countBlockLength.
        rewrite (uint16_small (countBlockEnd s rest - b_position b)) by lia.
        replace (b_position b + (countBlockEnd s rest - b_position b))
          with (countBlockEnd s rest) by lia.
        rewrite (uint16_small (countBlockEnd s rest)) by lia.
        set (rangeFrom := Z.max (from selection) (b_position b)).
        set (rangeTo := Z.min (to selection) (countBlockEnd s rest)).
        eapply IH with
            (T := extractedBefore selection textEnd (countBlockEnd s rest))
            (ls := ls').
        + exact Hsorted'.
        + exact Hrest.
        + destruct rest as [|b' rest']; [constructor|].
          simpl in Hskip. inversion Hskip; subst. assumption.
        + intros Hne. destruct rest as [|b' rest']; [contradiction|].
          rewrite Hend by discriminate. apply extentEnd_cons.
        + exact Htyped'.
        + exact Hk.
        + destruct (Z.ltb_spec rangeFrom rangeTo) as [Hlt|Hge].
          * pose proof (appendPart_linkView ce
                          (StringViewMid (_text s) rangeFrom
                             (rangeTo - rangeFrom))
                          (if TextBlockType.eqb (b_type b)
                                TextBlockType.CustomEmoji
                           then b_entityData b else [])
                          st'' T ls' L' Hv'') as Hv3.
            rewrite StringViewMid_size in Hv3
              by (unfold rangeFrom, rangeTo; lia).
            replace (T + (rangeTo - rangeFrom))
              with (extractedBefore selection textEnd (countBlockEnd s rest))
              in Hv3; [exact Hv3|].
            rewrite HT.
            rewrite (extractedBefore_block selection textEnd (b_position b)
                       (countBlockEnd s rest)) by lia.
            fold rangeFrom rangeTo. clear - Hlt. lia.
          * replace (extractedBefore selection textEnd (countBlockEnd s rest))
              with T; [exact Hv''|].
            rewrite HT.
            rewrite (extractedBefore_block selection textEnd (b_position b)
                       (countBlockEnd s rest)) by lia.
            fold rangeFrom rangeTo. clear - Hge. lia.
        + rewrite Hhead. reflexivity.
        + intros Hk0. destruct (Hlinked Hk0) as (H1 & H2 & H3).
          rewrite <- Hhead. repeat split; [exact H1 | lia | exact H3]. }
    match goal with
    | |- context [if ?c && negb (b_flags b =? fl) then _ else _] =>
        destruct (c && negb (b_flags b =? fl))
    end; cbv beta iota; apply Hstep;
      [apply flagsChange_linkView|]; exact Hv'.
Qed.
End LinkLoop.

Lemma runEntity_empty_selection s selection run :
  sel_empty selection = true -> runEntity s selection run = [].
Proof.
  intros H. unfold runEntity, runEntityAt.
  pose proof (runFinish_empty_selection s selection run H) as Hf.
  unfold runFinish in Hf.
  destruct (runMet selection (run_from run) (run_to run));
    [discriminate | reflexivity].
Qed.

(** C6, as the code has it. The finish events of the walk are, in order,
    one for each link run that the selection meets, and the event of a
    run carries the handler of its link only when the selection covers
    the whole run, else the null handler. With entities composed, the
    entities of links in the list that [toText] returns are those of the
    runs that the selection covers wholly and whose link is not
    internal, one entity each, which spans the run in the extracted
    text: a run covered in part leaves no entity, and neither does an
    internal link. Without entities composed the list is empty. *)
Theorem link_runs_entities enc srt (composeExpanded : bool)
    (s : String) (selection : TextSelection) :
  stdSortContract srt -> wellFormed s -> isEmpty s = false ->
  validSelection selection -> linksTyped s ->
  finishCalls (textEvents s selection)
  = flat_map (runFinish s selection) (linkRuns s) /\
  Permutation
    (linkEntities
       (rich_entities (toText enc srt composeExpanded true s selection)))
    (flat_map (runEntity s selection) (linkRuns s)) /\
  rich_entities (toText enc srt composeExpanded false s selection) = [].
Proof.
  intros Hsort (Hsz & Hsorted & Hpos & Hfirst & Hskip & Hlast) Hne
    [[Hf0 Hf1] [Ht0 Ht1]] Htyped.
  split; [|split].
  - unfold textEvents, enumerateText, linkRuns. rewrite Hne. cbn [orb].
    destruct (sel_empty selection) eqn:Esel.
    + simpl. symmetry.
      induction (linkRunsFrom s (_blocks s) 0 0) as [|run runs IH];
        [reflexivity|].
      simpl. rewrite IH, runFinish_empty_selection by exact Esel.
      reflexivity.
    + rewrite enumerateTextLoop_finishCalls; [reflexivity | |].
      * eapply StronglySorted_weaken; [|exact Hsorted]. intros; lia.
      * intros H. contradiction.
  - unfold toText.
    eapply perm_trans.
    { apply filter_Permutation. apply Permutation_sym.
      apply (Hsort pred). apply pred_strictWeakOrder. }
    unfold toTextUnsorted, enumerateText. rewrite Hne. cbn [orb].
    destruct (sel_empty selection) eqn:Esel.
    + simpl. symmetry.
      induction (linkRuns s) as [|run runs IH]; [reflexivity|].
      simpl. rewrite runEntity_empty_selection by exact Esel. exact IH.
    + destruct (_blocks s) as [|b rest] eqn:Eblocks.
      { unfold isEmpty in Hne. rewrite Eblocks in Hne. discriminate. }
      pose proof (extentEnd_bounds s b rest Hsorted Hpos) as Hext.
      assert (Hsz0 : 0 <= size (_text s)) by (unfold size; lia).
      unfold linkRuns, runEntity. rewrite Eblocks.
      eapply perm_trans;
        [apply (enumerateTextLoop_linkEntities enc composeExpanded s selection
                  (extentEnd s (b :: rest)) Hsz Hf0 (proj2 Hext)
                  (b :: rest) 0 0 0 _ 0 0 [] Hsorted Hpos Hskip)
        | apply Permutation_refl].
      * intros _. reflexivity.
      * unfold linksTyped in Htyped. rewrite Eblocks in Htyped.
        exact Htyped.
      * intros h Hh. unfold linkAt in Hh.
        destruct (_extended s); discriminate.
      * unfold linkView. cbn. repeat split; try reflexivity.
        repeat constructor.
      * rewrite Hfirst. unfold extractedBefore. lia.
      * intros H. contradiction.
  - unfold toText, toTextUnsorted.
    apply (enumerateText_invariant (appendPartCallback composeExpanded false)
             clickHandlerStartCallback
             (clickHandlerFinishCallback enc composeExpanded false)
             (flagsChangeCallback false)
             (fun st => rich_entities (tt_result st) = []) s).
    + intros part data st H. unfold appendPartCallback. cbn. exact H.
    + intros type st H. exact H.
    + intros inText handler type st _ H.
      rewrite clickHandlerFinishCallback_entities. cbn [andb].
      destruct handler; exact H.
    + intros o n st H. exact H.
    + reflexivity.
Qed.

Lemma link_runs_entities_witness :
  finishCalls (textEvents Sample.twoLinks (mkSel 0 5))
  = flat_map (runFinish Sample.twoLinks (mkSel 0 5))
      (linkRuns Sample.twoLinks) /\
  Permutation
    (linkEntities
       (rich_entities
          (toText plainEncode (@stableSort _) false true Sample.twoLinks
             (mkSel 0 5))))
    (flat_map (runEntity Sample.twoLinks (mkSel 0 5))
       (linkRuns Sample.twoLinks)) /\
  rich_entities
    (toText plainEncode (@stableSort _) false false Sample.twoLinks
       (mkSel 0 5)) = [].
Proof.
  apply (link_runs_entities plainEncode (@stableSort _) false Sample.twoLinks
           (mkSel 0 5)).
  - apply stableSort_contract.
  - unfold wellFormed. simpl. repeat split.
    + vm_compute. discriminate.
    + repeat constructor.
    + repeat constructor; vm_compute; discriminate.
    + repeat constructor; discriminate.
    + intros b Hb Ht. vm_compute in Hb. inversion Hb. subst b.
      discriminate.
  - reflexivity.
  - unfold validSelection, isUint16. simpl. lia.
  - repeat constructor; intros h H; vm_compute in H; inversion H;
      reflexivity.
Defined.

(** The link runs of "one two" and their finish events under the
    selection [0, 5): the first run whole, with its handler, the second
    in part, with the null handler; the first run alone leaves an
    entity. *)
Example twoLinks_finishCalls :
  linkRuns Sample.twoLinks = [mkRun 1 0 3; mkRun 2 4 7] /\
  finishCalls (textEvents Sample.twoLinks (mkSel 0 5))
  = [(qstr "one",
      Some (mkHandler EntityType.CustomUrl (qstr "https://a.example")));
     (qstr "t", None)] /\
  flat_map (runEntity Sample.twoLinks (mkSel 0 5)) (linkRuns Sample.twoLinks)
  = [mkEntity EntityType.CustomUrl 0 3 (qstr "https://a.example")].
Proof. repeat split; vm_compute; reflexivity. Qed.

(** The scenario of the specification: the selection [0, 5) of
    "one two" covers the first link and a part of the second, and the
    entity list holds the first link alone. *)
Example toText_full_and_partial_link :
  rich_entities
    (toText plainEncode (@stableSort _) false true Sample.twoLinks (mkSel 0 5))
  = [mkEntity EntityType.CustomUrl 0 3 (qstr "https://a.example")].
Proof. vm_compute. reflexivity. Qed.

(** C6, as stated, fails for an internal link: the selection covers the
    whole of the link "here" and the entity list stays empty. *)
Lemma toText_covered_internal_link_no_entity :
  runCovered AllTextSelection 0 4 = true /\
  rich_text
    (toText plainEncode (@stableSort _) false true Sample.internalHere
       AllTextSelection) = qstr "here" /\
  rich_entities
    (toText plainEncode (@stableSort _) false true Sample.internalHere
       AllTextSelection) = [].
Proof. repeat split; vm_compute; reflexivity. Qed.

(** ** More on the extraction *)

(** *** The text of the callbacks under any flags *)

(** The plain text that the callbacks of [toText] gather from recorded
    invocations does not depend on the two flags. *)
Lemma replay_text enc ce cen evs :
  forall st1 st2,
    textOf st1 = textOf st2 ->
    textOf (replay (appendPartCallback ce cen) clickHandlerStartCallback
              (clickHandlerFinishCallback enc ce cen)
              (flagsChangeCallback cen) evs st1)
    = textOf (replay (appendPartCallback false false) clickHandlerStartCallback
                (clickHandlerFinishCallback enc false false)
                (flagsChangeCallback false) evs st2).
Proof.
  unfold replay. induction evs as [|ev evs IH]; intros st1 st2 H; [exact H|].
  cbn [fold_left]. apply IH.
  destruct ev; cbn [dispatch].
  - rewrite !appendPartCallback_text_any. now rewrite H.
  - exact H.
  - rewrite !clickHandlerFinishCallback_text. exact H.
  - rewrite !flagsChangeCallback_text. exact H.
Qed.

Lemma toText_text enc srt ce cen s selection :
  rich_text (toText enc srt ce cen s selection) = toString enc srt s selection.
Proof.
  unfold toString, toText, toTextUnsorted.
  rewrite !enumerateText_events.
  assert (H : forall r : TextForMimeData,
             rich_text (if cen
                        then mkMime (rich_text r) (srt pred (rich_entities r))
                               (expanded r)
                        else r) = rich_text r)
    by (intros r; destruct cen; reflexivity).
  rewrite H. cbn [rich_text].
  apply (replay_text enc ce cen (textEvents s selection)).
  reflexivity.
Qed.

(** X1. The three extraction functions return the same plain text. *)
Theorem extraction_functions_agree_on_text enc srt (s : String)
    (selection : TextSelection) :
  rich_text (toTextWithEntities enc srt s selection)
  = toString enc srt s selection /\
  rich_text (toTextForMimeData enc srt s selection)
  = toString enc srt s selection.
Proof.
  split; [unfold toTextWithEntities | unfold toTextForMimeData];
    apply toText_text.
Qed.

(** *** The selected slice *)

Lemma StringViewMid_nonpos (text : QString) a n :
  n <= 0 -> StringViewMid text a n = [].
Proof.
  intros H. unfold StringViewMid.
  replace (Z.to_nat n) with 0%nat by lia. reflexivity.
Qed.

Lemma StringViewMid_nil a n : StringViewMid [] a n = [].
Proof. unfold StringViewMid. rewrite skipn_nil. apply firstn_nil. Qed.

(** The part of [a, b) under a selection, then the part of [b, c) under
    it, is the part of [a, c). *)
Lemma slice_split (text : QString) f t a b c :
  0 <= a <= b -> b <= c ->
  StringViewMid text (Z.max f a) (Z.min t b - Z.max f a)
  ++ StringViewMid text (Z.max f b) (Z.min t c - Z.max f b)
  = StringViewMid text (Z.max f a) (Z.min t c - Z.max f a).
Proof.
  intros Hab Hbc.
  destruct (Z.le_gt_cases t b) as [Htb|Htb].
  - rewrite (StringViewMid_nonpos text (Z.max f b)) by lia.
    rewrite app_nil_r. f_equal. lia.
  - destruct (Z.le_gt_cases b f) as [Hbf|Hbf].
    + rewrite (StringViewMid_nonpos text (Z.max f a) (Z.min t b - _)) by lia.
      simpl. f_equal; lia.
    + replace (Z.min t b) with b by lia.
      replace (Z.max f b) with b by lia.
      apply StringViewMid_app; lia.
Qed.

Lemma linkBoundary_position_le {St : Type} (start : EntityType.t -> St -> St)
    finish s selection blockPosition blockLinkIndex linkIndex linkPosition
    (st : St) :
  linkPosition <= blockPosition ->
  snd (fst (linkBoundary start finish s selection blockPosition
              blockLinkIndex linkIndex linkPosition st))
  <= blockPosition.
Proof.
  intros H. unfold linkBoundary.
  destruct (negb (blockLinkIndex =? linkIndex)); [|exact H].
  destruct (negb (blockLinkIndex =? 0)); simpl; lia.
Qed.

Lemma enumerateTextLoop_slice enc s selection :
  size (_text s) <= 65535 ->
  forall bs linkIndex linkPosition flags st,
    linkPosition <= match bs with
                    | [] => size (_text s)
                    | b :: _ => b_position b
                    end ->
    StronglySorted Z.lt (map b_position bs) ->
    Forall (fun b => 0 <= b_position b < size (_text s)) bs ->
    Forall (fun b => b_type b <> TextBlockType.Skip) (removelast bs) ->
    textOf
      (enumerateTextLoop (appendPartCallback false false)
         clickHandlerStartCallback (clickHandlerFinishCallback enc false false)
         (flagsChangeCallback false) s selection bs linkIndex linkPosition
         flags st)
    = textOf st
      ++ match bs with
         | [] => []
         | b :: _ =>
             StringViewMid (_text s) (Z.max (from selection) (b_position b))
               (Z.min (to selection) (extentEnd s bs)
                - Z.max (from selection) (b_position b))
         end.
Proof.
  intros Hsz.
  assert (Hsz0 : 0 <= size (_text s)) by (unfold size; lia).
  induction bs as [|b rest IH]; intros lk lp fl st Hlp Hsorted Hpos Hskip.
  - cbn [enumerateTextLoop hd_error blockLinkIndex].
    destruct (linkBoundary _ _ _ _ _ _ _ _ _) as [[lk' lp'] st'] eqn:E.
    pose proof (linkBoundary_text enc s selection (uint16 (size (_text s)))
                  0 lk lp st) as Ht.
    rewrite E in Ht. simpl in Ht.
    rewrite app_nil_r.
    destruct (_ && _); simpl; unfold flagsChangeCallback; simpl; exact Ht.
  - cbn [enumerateTextLoop hd_error].
    set (bli := blockLinkIndex s (Some b)).
    destruct (linkBoundary _ _ _ _ _ _ _ _ _) as [[lk' lp'] st'] eqn:E.
    pose proof (linkBoundary_text enc s selection (b_position b) bli lk lp st)
      as Ht.
    pose proof (linkBoundary_position_le clickHandlerStartCallback
                  (clickHandlerFinishCallback enc false false) s selection
                  (b_position b) bli lk lp st Hlp) as Hp.
    rewrite E in Ht, Hp. simpl in Ht, Hp.
    inversion Hpos as [|? ? Hb Hrest]; subst.
    inversion Hsorted as [|? ? Hsorted' Hall]; subst.
    pose proof (extentEnd_bounds s b rest Hsorted Hpos) as Hext.
    assert (Hstep : forall fl',
              textOf
                (if to selection
                    <=? (if negb (lk' =? 0) then lp' else b_position b)
                 then st'
                 else
                   if TextBlockType.eqb (b_type b) TextBlockType.Skip
                   then
                     enumerateTextLoop (appendPartCallback false false)
                       clickHandlerStartCallback
                       (clickHandlerFinishCallback enc false false)
                       (flagsChangeCallback false) s selection rest lk' lp'
                       fl' st'
                   else
                     enumerateTextLoop (appendPartCallback false false)
                       clickHandlerStartCallback
                       (clickHandlerFinishCallback enc false false)
                       (flagsChangeCallback false) s selection rest lk' lp'
                       fl'
                       (if Z.max (from selection) (b_position b)
                           <? Z.min (to selection)
                                (uint16 (b_position b
                                         + countBlockLength s b rest))
                        then
                          appendPartCallback false false
                            (StringViewMid (_text s)
                               (Z.max (from selection) (b_position b))
                               (Z.min (to selection)
                                  (uint16 (b_position b
                                           + countBlockLength s b rest))
                                - Z.max (from selection) (b_position b)))
                            (if TextBlockType.eqb (b_type b)
                                  TextBlockType.CustomEmoji
                             then b_entityData b else [])
                            st'
                        else st'))
              = textOf st
                ++ StringViewMid (_text s)
                     (Z.max (from selection) (b_position b))
                     (Z.min (to selection) (extentEnd s (b :: rest))
                      - Z.max (from selection) (b_position b))).
    { intros fl'.
      destruct (Z.leb_spec (to selection)
                  (if negb (lk' =? 0) then lp' else b_position b))
        as [Hbreak|Hgo].
      { (* the walk stops: nothing of this block or a later one is selected *)
        rewrite StringViewMid_nonpos
          by (destruct (negb (lk' =? 0)); lia).
        rewrite app_nil_r. exact Ht. }
      destruct (TextBlockType.eqb (b_type b) TextBlockType.Skip) eqn:Eskip.
      - (* a skip block is the last block *)
        destruct rest as [|b' rest'].
        + rewrite IH; auto; [|lia]. rewrite Ht, app_nil_r.
          unfold extentEnd. simpl. rewrite Eskip.
          rewrite StringViewMid_nonpos by lia. now rewrite app_nil_r.
        + exfalso. simpl in Hskip. inversion Hskip as [|? ? Hns _]; subst.
          apply Hns. destruct (b_type b); simpl in Eskip; congruence.
      - assert (Hend : b_position b < countBlockEnd s rest <= size (_text s)).
        { unfold countBlockEnd. destruct rest as [|b' rest'].
          - rewrite uint16_small by lia. lia.
          - simpl in Hall. inversion Hall; subst.
            inversion Hrest; subst. lia. }
        unfold countBlockLength.
        rewrite (uint16_small (countBlockEnd s rest - b_position b)) by lia.
        replace (b_position b + (countBlockEnd s rest - b_position b))
          with (countBlockEnd s rest) by lia.
        rewrite (uint16_small (countBlockEnd s rest)) by lia.
        set (rangeFrom := Z.max (from selection) (b_position b)).
        set (rangeTo := Z.min (to selection) (countBlockEnd s rest)).
        assert (Hpart :
                  textOf
                    (if rangeFrom <? rangeTo
                     then
                       appendPartCallback false false
                         (StringViewMid (_text s) rangeFrom
                            (rangeTo - rangeFrom))
                         (if TextBlockType.eqb (b_type b)
                               TextBlockType.CustomEmoji
                          then b_entityData b else [])
                         st'
                     else st')
                  = textOf st
                    ++ StringViewMid (_text s) rangeFrom (rangeTo - rangeFrom)).
        { destruct (Z.ltb_spec rangeFrom rangeTo).
          - rewrite appendPartCallback_text, Ht. reflexivity.
          - rewrite StringViewMid_nonpos by lia. rewrite app_nil_r. exact Ht. }
        rewrite IH; auto.
        + rewrite Hpart, <- app_assoc. f_equal.
          destruct rest as [|b' rest'].
          * unfold rangeTo, countBlockEnd, extentEnd. simpl. rewrite Eskip.
            rewrite uint16_small by lia.
            apply app_nil_r.
          * rewrite extentEnd_cons. unfold rangeFrom, rangeTo, countBlockEnd.
            pose proof (extentEnd_bounds s b' rest' Hsorted' Hrest).
            unfold countBlockEnd in Hend.
            apply slice_split; lia.
        + destruct rest as [|b' rest']; [lia|].
          unfold countBlockEnd in Hend. lia.
        + destruct rest as [|b' rest']; [constructor|].
          simpl in Hskip. inversion Hskip; subst. assumption. }
    match goal with
    | |- context [if ?c && negb (b_flags b =? fl) then _ else _] =>
        destruct (c && negb (b_flags b =? fl))
    end; cbv beta iota;
      replace (flagsChangeCallback false fl (b_flags b) st') with st'
        by reflexivity; apply Hstep.
Qed.

(** X2. [toString] of a selection is that slice of the backing text, cut
    at a final skip block. *)
Theorem toString_selection_slice enc srt (s : String)
    (selection : TextSelection) :
  wellFormed s -> validSelection selection ->
  toString enc srt s selection
  = StringViewMid (_text s) (from selection)
      (Z.min (to selection) (extentEnd s (_blocks s)) - from selection).
Proof.
  intros (Hsz & Hsorted & Hpos & Hfirst & Hskip & Hlast) [[Hf0 Hf1] [Ht0 Ht1]].
  unfold toString, toText, toTextUnsorted, enumerateText.
  cbn [rich_text].
  unfold isEmpty in *.
  destruct (_blocks s) as [|b rest] eqn:Eblocks.
  - rewrite Hfirst. rewrite StringViewMid_nil. reflexivity.
  - inversion Hpos as [|? ? Hb Hrest]; subst.
    pose proof (extentEnd_bounds s b rest Hsorted Hpos) as Hext.
    destruct (TextBlockType.eqb (b_type b) TextBlockType.Skip) eqn:Eskip.
    + (* a leading skip block is the only block *)
      destruct rest as [|b' rest'].
      * unfold extentEnd. simpl. rewrite Eskip.
        rewrite StringViewMid_nonpos by lia. reflexivity.
      * exfalso. simpl in Hskip. inversion Hskip as [|? ? Hns _]; subst.
        apply Hns. destruct (b_type b); simpl in Eskip; congruence.
    + cbn [orb]. unfold sel_empty.
      destruct (Z.eqb_spec (from selection) (to selection)) as [Heq|Hne].
      * rewrite StringViewMid_nonpos by lia. reflexivity.
      * pose proof (enumerateTextLoop_slice enc s selection Hsz (b :: rest)
                      0 0 0 (mkToText (mkMime [] [] []) 0 [])) as Hloop.
        unfold textOf in Hloop at 1. rewrite Hloop; auto; try lia.
        cbn [textOf tt_result rich_text app].
        rewrite Hfirst. rewrite Z.max_l by lia. reflexivity.
Qed.

Lemma toString_selection_slice_witness :
  toString plainEncode (@stableSort _) Sample.withSkip (mkSel 1 9)
  = StringViewMid (_text Sample.withSkip) 1
      (Z.min 9 (extentEnd Sample.withSkip (_blocks Sample.withSkip)) - 1).
Proof.
  apply (toString_selection_slice plainEncode (@stableSort _) Sample.withSkip
           (mkSel 1 9)).
  - unfold wellFormed. simpl. repeat split.
    + vm_compute. discriminate.
    + repeat constructor.
    + repeat constructor; vm_compute; discriminate.
    + repeat constructor. discriminate.
    + intros b Hb _. vm_compute in Hb. inversion Hb. reflexivity.
  - unfold validSelection, isUint16. simpl. lia.
Defined.

(** *** Entities inside the text *)

Lemma size_nonneg (t : QString) : 0 <= size t.
Proof. unfold size. lia. Qed.

Lemma entityWithin_mono n m e : n <= m -> entityWithin n e -> entityWithin m e.
Proof. unfold entityWithin. lia. Qed.

Lemma Forall_insertEntity (P : EntityInText -> Prop) entity l :
  P entity -> Forall P l -> Forall P (insertEntity entity l).
Proof.
  intros He Hl.
  apply (Permutation_Forall (insertEntity_perm entity l)).
  constructor; assumption.
Qed.

Lemma trackFlags_within o n trackers r :
  Forall (entityWithin (size (rich_text r))) (rich_entities r) ->
  Forall (fun t => 0 <= tr_start t <= size (rich_text r)) trackers ->
  Forall (entityWithin (size (rich_text r)))
    (rich_entities (snd (trackFlags o n trackers r))) /\
  Forall (fun t => 0 <= tr_start t <= size (rich_text r))
    (fst (trackFlags o n trackers r)).
Proof.
  revert r. induction trackers as [|t rest IH]; intros r He Ht.
  - split; [exact He | constructor].
  - inversion Ht as [|? ? Ht0 Hrest]; subst.
    cbn [trackFlags].
    destruct (hasFlag o (tr_flag t) && negb (hasFlag n (tr_flag t))).
    + set (r1 := withEntity _ r).
      assert (Hr1 : rich_text r1 = rich_text r) by reflexivity.
      destruct (IH r1) as [H1 H2].
      * rewrite Hr1. apply Forall_insertEntity; [|exact He].
        unfold entityWithin. simpl. lia.
      * rewrite Hr1. exact Hrest.
      * rewrite Hr1 in *.
        destruct (trackFlags o n rest r1) as [rest' r']. simpl in *.
        split; [exact H1 | constructor; assumption].
    + destruct (IH r He Hrest) as [H1 H2].
      destruct (hasFlag n (tr_flag t) && negb (hasFlag o (tr_flag t)));
        destruct (trackFlags o n rest r) as [rest' r']; simpl in *;
        (split; [exact H1 | constructor; [simpl|exact H2]]);
        try exact Ht0.
      pose proof (size_nonneg (rich_text r)). lia.
Qed.

Lemma appendPartCallback_within ce cen part data st :
  stateWithin st -> stateWithin (appendPartCallback ce cen part data st).
Proof.
  intros (He & Hl & Ht).
  assert (Htext : textOf (appendPartCallback ce cen part data st)
                  = textOf st ++ part) by apply appendPartCallback_text_any.
  unfold stateWithin. rewrite Htext, size_app.
  pose proof (size_nonneg part) as Hp.
  pose proof (size_nonneg (textOf st)) as Hs.
  assert (He' : Forall (entityWithin (size (textOf st) + size part))
                  (rich_entities (tt_result st))).
  { eapply Forall_impl; [|exact He]. intros e. apply entityWithin_mono. lia. }
  repeat split.
  - unfold appendPartCallback. cbn [tt_result].
    destruct (cen && _); cbn [rich_entities withEntity rich_text];
      [|exact He'].
    apply Forall_insertEntity; [|exact He'].
    unfold entityWithin. cbn [e_offset e_length]. rewrite size_app.
    unfold textOf in *. lia.
  - unfold appendPartCallback. simpl. lia.
  - unfold appendPartCallback. simpl. lia.
  - unfold appendPartCallback. cbn [tt_trackers].
    eapply Forall_impl; [|exact Ht]. simpl. intros. lia.
Qed.

Lemma clickHandlerStartCallback_within type st :
  stateWithin st -> stateWithin (clickHandlerStartCallback type st).
Proof.
  intros (He & Hl & Ht). unfold stateWithin, clickHandlerStartCallback, textOf in *.
  simpl. pose proof (size_nonneg (rich_text (tt_result st))).
  repeat split; auto; lia.
Qed.

Lemma clickHandlerFinishCallback_within enc ce cen inText handler type st :
  stateWithin st ->
  stateWithin (clickHandlerFinishCallback enc ce cen inText handler type st).
Proof.
  intros (He & Hl & Ht).
  pose proof (clickHandlerFinishCallback_text enc ce cen inText handler type st)
    as Htext.
  pose proof (clickHandlerFinishCallback_entities enc ce cen inText handler
                type st) as Hents.
  unfold stateWithin. rewrite Htext, Hents.
  assert (Hrest : tt_linkStart (clickHandlerFinishCallback enc ce cen inText
                                  handler type st) = tt_linkStart st /\
                  tt_trackers (clickHandlerFinishCallback enc ce cen inText
                                 handler type st) = tt_trackers st).
  { unfold clickHandlerFinishCallback. destruct handler; [|split; reflexivity].
    destruct (negb ce && negb cen); split; reflexivity. }
  destruct Hrest as [H1 H2]. rewrite H1, H2.
  repeat split; try tauto; try lia.
  destruct handler as [h|]; [|exact He].
  destruct (cen && negb (internalLink h)); [|exact He].
  apply Forall_insertEntity; [|exact He].
  unfold entityWithin, linkEntity, textOf in *. simpl. lia.
Qed.

Lemma flagsChangeCallback_within cen o n st :
  stateWithin st -> stateWithin (flagsChangeCallback cen o n st).
Proof.
  intros (He & Hl & Ht). unfold flagsChangeCallback, stateWithin, textOf in *.
  destruct cen; cbn [negb]; [|tauto].
  pose proof (trackFlags_within o n (tt_trackers st) (tt_result st) He Ht)
    as [H1 H2].
  pose proof (trackFlags_text o n (tt_trackers st) (tt_result st)) as [H3 _].
  destruct (trackFlags o n (tt_trackers st) (tt_result st)) as [trackers r].
  simpl in *. rewrite H3. tauto.
Qed.

Lemma toTextUnsorted_within enc ce cen s selection :
  Forall (entityWithin (size (rich_text (toTextUnsorted enc ce cen s selection))))
    (rich_entities (toTextUnsorted enc ce cen s selection)).
Proof.
  unfold toTextUnsorted.
  set (init := mkToText _ _ _).
  assert (H : stateWithin
                (enumerateText (appendPartCallback ce cen)
                   clickHandlerStartCallback
                   (clickHandlerFinishCallback enc ce cen)
                   (flagsChangeCallback cen) s selection init)).
  { apply (enumerateText_invariant _ _ _ _ stateWithin s).
    - intros. now apply appendPartCallback_within.
    - intros. now apply clickHandlerStartCallback_within.
    - intros. now apply clickHandlerFinishCallback_within.
    - intros. now apply flagsChangeCallback_within.
    - unfold stateWithin, init, textOf.
      cbn [tt_result rich_text rich_entities tt_linkStart tt_trackers].
      change (size []) with 0.
      split; [constructor|]. split; [lia|].
      destruct cen; unfold initialTrackers; repeat constructor;
        simpl; lia. }
  apply H.
Qed.

(** X3. Every entity that [toText] returns lies inside the text that it
    returns. *)
Theorem toText_entities_within_text enc srt (ce cen : bool) (s : String)
    (selection : TextSelection) :
  stdSortContract srt ->
  Forall (entityWithin (size (rich_text (toText enc srt ce cen s selection))))
    (rich_entities (toText enc srt ce cen s selection)).
Proof.
  intros Hsort. unfold toText.
  pose proof (toTextUnsorted_within enc ce cen s selection) as H.
  destruct cen; [|exact H].
  cbn [rich_text rich_entities].
  destruct (Hsort pred (rich_entities (toTextUnsorted enc ce true s selection))
              pred_strictWeakOrder) as [Hperm _].
  apply (Permutation_Forall Hperm). exact H.
Qed.

Lemma toText_entities_within_text_witness :
  Forall
    (entityWithin
       (size (rich_text (toText plainEncode (@stableSort _) true true
                           Sample.twoLinks (mkSel 0 5)))))
    (rich_entities (toText plainEncode (@stableSort _) true true
                      Sample.twoLinks (mkSel 0 5))).
Proof.
  apply (toText_entities_within_text plainEncode (@stableSort _) true true
           Sample.twoLinks (mkSel 0 5)).
  exact stableSort_contract.
Defined.

(** *** The expanded text *)

Lemma toText_expanded_empty enc srt cen s selection :
  expanded (toText enc srt false cen s selection) = [].
Proof.
  assert (H : expanded (toTextUnsorted enc false cen s selection) = []).
  { unfold toTextUnsorted.
    apply (enumerateText_invariant _ _ _ _
             (fun st => expanded (tt_result st) = []) s).
    - intros part data st H. unfold appendPartCallback. cbn [tt_result].
      destruct (cen && _); exact H.
    - intros type st H. exact H.
    - intros inText handler type st _ H. unfold clickHandlerFinishCallback.
      destruct handler as [h|]; [|exact H].
      destruct (negb false && negb cen); [exact H|]. cbn [tt_result].
      destruct (cen && _); exact H.
    - intros o n st H. unfold flagsChangeCallback.
      destruct (negb cen); [exact H|].
      pose proof (trackFlags_text o n (tt_trackers st) (tt_result st)) as [_ H2].
      destruct (trackFlags o n (tt_trackers st) (tt_result st)).
      simpl in *. congruence.
    - reflexivity. }
  unfold toText. destruct cen; exact H.
Qed.

Lemma toText_expanded_plain enc srt cen s selection :
  noCustomLinks s ->
  expanded (toText enc srt true cen s selection)
  = rich_text (toText enc srt true cen s selection).
Proof.
  intros Hlinks.
  assert (H : expanded (toTextUnsorted enc true cen s selection)
              = rich_text (toTextUnsorted enc true cen s selection)).
  { unfold toTextUnsorted.
    apply (enumerateText_invariant _ _ _ _
             (fun st => expanded (tt_result st) = rich_text (tt_result st)) s).
    - intros part data st H. unfold appendPartCallback. cbn [tt_result].
      destruct (cen && _); simpl; now rewrite H.
    - intros type st H. exact H.
    - intros inText handler type st Hfrom H.
      unfold clickHandlerFinishCallback.
      destruct handler as [h|]; [|exact H].
      destruct (Hfrom h eq_refl) as [i Hi].
      apply Hlinks in Hi.
      assert (Hc : EntityType.eqb (h_type h) EntityType.CustomUrl = false)
        by (destruct (h_type h); try reflexivity; congruence).
      rewrite Hc. cbn [andb negb tt_result].
      destruct (cen && true); exact H.
    - intros o n st H. unfold flagsChangeCallback.
      destruct (negb cen); [exact H|].
      pose proof (trackFlags_text o n (tt_trackers st) (tt_result st))
        as [H1 H2].
      destruct (trackFlags o n (tt_trackers st) (tt_result st)).
      simpl in *. congruence.
    - reflexivity. }
  unfold toText. destruct cen; exact H.
Qed.

(** X4. The expanded text is empty unless asked for, and it is the plain
    text when the string has no custom-url link. *)
Theorem expanded_text_without_custom_links enc srt (s : String)
    (selection : TextSelection) :
  noCustomLinks s ->
  expanded (toTextWithEntities enc srt s selection) = [] /\
  expanded (toTextForMimeData enc srt s selection)
  = rich_text (toTextForMimeData enc srt s selection).
Proof.
  intros H. split.
  - apply toText_expanded_empty.
  - apply toText_expanded_plain. exact H.
Qed.

Lemma expanded_text_without_custom_links_witness :
  expanded (toTextWithEntities plainEncode (@stableSort _) MoreSamples.urlLink
              AllTextSelection) = [] /\
  expanded (toTextForMimeData plainEncode (@stableSort _) MoreSamples.urlLink
              AllTextSelection)
  = rich_text (toTextForMimeData plainEncode (@stableSort _) MoreSamples.urlLink
                 AllTextSelection).
Proof.
  apply (expanded_text_without_custom_links plainEncode (@stableSort _)
           MoreSamples.urlLink AllTextSelection).
  intros i h H. unfold linkAt in H. simpl in H.
  destruct (1 <=? i); [|discriminate].
  destruct (Z.to_nat (i - 1)) as [|[|n]]; simpl in H; try discriminate.
  inversion H. subst. simpl. discriminate.
Defined.

Example urlLink_extracted :
  toTextForMimeData plainEncode (@stableSort _) MoreSamples.urlLink
    AllTextSelection
  = mkMime (qstr "see a.example")
      [mkEntity EntityType.Url 4 9 []] (qstr "see a.example").
Proof. vm_compute. reflexivity. Qed.

(** *** Where [insertEntity] puts an entity *)

Lemma insertEntityRev_split entity rl :
  exists a b,
    rl = a ++ b /\ insertEntityRev entity rl = a ++ entity :: b /\
    Forall (fun x => e_offset entity < e_offset x) a /\
    (forall y, hd_error b = Some y -> e_offset y <= e_offset entity).
Proof.
  induction rl as [|j before IH].
  - exists [], []. repeat split; try constructor. discriminate.
  - cbn [insertEntityRev].
    destruct (Z.leb_spec (e_offset j) (e_offset entity)) as [Hle|Hgt].
    + exists [], (j :: before). repeat split; try constructor.
      intros y Hy. inversion Hy. subst. exact Hle.
    + destruct IH as (a & b & H1 & H2 & H3 & H4).
      exists (j :: a), b. rewrite H2, H1.
      repeat split; auto.
Qed.

Lemma hd_error_last_rev {A : Type} (l : list A) :
  last (map Some (rev l)) None = hd_error l.
Proof.
  destruct l as [|x l]; [reflexivity|].
  simpl. rewrite map_app. simpl. apply last_last.
Qed.

(** X5. [insertEntity] puts the new entity behind the last entity whose
    offset is not greater than its own, so a list in offset order stays in
    offset order. *)
Theorem insertEntity_keeps_offset_order (entity : EntityInText)
    (l : list EntityInText) :
  (exists l1 l2,
     l = l1 ++ l2 /\ insertEntity entity l = l1 ++ entity :: l2 /\
     (forall y, last (map Some l1) None = Some y ->
                e_offset y <= e_offset entity) /\
     Forall (fun x => e_offset entity < e_offset x) l2) /\
  (StronglySorted (fun a b => e_offset a <= e_offset b) l ->
   StronglySorted (fun a b => e_offset a <= e_offset b)
     (insertEntity entity l)).
Proof.
  destruct (insertEntityRev_split entity (rev l)) as (a & b & H1 & H2 & H3 & H4).
  assert (Hl : l = rev b ++ rev a).
  { rewrite <- rev_app_distr, <- H1. symmetry. apply rev_involutive. }
  assert (Hins : insertEntity entity l = rev b ++ entity :: rev a).
  { unfold insertEntity. rewrite H2, rev_app_distr. simpl.
    rewrite <- app_assoc. reflexivity. }
  assert (Hbig : Forall (fun x => e_offset entity < e_offset x) (rev a)).
  { apply Forall_rev. exact H3. }
  split.
  - exists (rev b), (rev a). repeat split; auto.
    intros y Hy. rewrite hd_error_last_rev in Hy. apply H4. exact Hy.
  - intros Hsorted. rewrite Hins. rewrite Hl in Hsorted.
    clear Hl Hins H1 H2 H3.
    revert Hsorted. generalize (rev a) Hbig. clear Hbig.
    intros l2 Hbig.
    assert (Hlast : forall y, In y (rev b) -> 
                    StronglySorted (fun a b => e_offset a <= e_offset b)
                      (rev b ++ l2) ->
                    e_offset y <= e_offset entity).
    { intros y Hy Hs.
      destruct b as [|z b']; [contradiction|].
      specialize (H4 z eq_refl).
      simpl in Hy, Hs. apply in_app_or in Hy. destruct Hy as [Hy|[Hy|[]]].
      - rewrite <- app_assoc in Hs. simpl in Hs.
        clear -Hs Hy H4. induction (rev b') as [|w r IH]; [contradiction|].
        simpl in Hs. inversion Hs as [|? ? Hs' Hall]; subst.
        destruct Hy as [->|Hy]; [|now apply IH].
        rewrite Forall_forall in Hall.
        specialize (Hall z ltac:(apply in_or_app; right; now left)). lia.
      - subst. exact H4. }
    intros Hs. specialize (fun y Hy => Hlast y Hy Hs). clear H4.
    induction (rev b) as [|w r IH].
    + simpl in *. constructor; [exact Hs|].
      eapply Forall_impl; [|exact Hbig]. simpl. intros. lia.
    + simpl in *. inversion Hs as [|? ? Hs' Hall]; subst.
      constructor.
      * apply IH; auto.
      * rewrite Forall_forall in *. intros x Hx.
        apply in_app_or in Hx. destruct Hx as [Hx|[Hx|Hx]].
        -- apply Hall. apply in_or_app. now left.
        -- subst. apply Hlast. now left.
        -- apply Hall. apply in_or_app. now right.
Qed.

(** ** More on the selection adjustment *)

Lemma monoSnap_plain enc srt s f t :
  noMonoBlocks s -> monoSnap enc srt s f t = (mkSel f t, false).
Proof.
  intros H. unfold monoSnap.
  destruct (filter _ (_blocks s)) as [|b rest] eqn:E; [reflexivity|].
  assert (Hin : In b (_blocks s)).
  { assert (Hb : In b (filter (fun b => negb (b_position b <? f)) (_blocks s)))
      by (rewrite E; now left).
    apply filter_In in Hb. apply Hb. }
  unfold noMonoBlocks in H. rewrite Forall_forall in H.
  rewrite (H b Hin). reflexivity.
Qed.

Lemma adjustSelection_snap enc srt s sel mode :
  mode <> Letters -> noMonoBlocks s ->
  from sel < size (_text s) -> from sel <= to sel -> isUint16 (to sel) ->
  adjustSelection enc srt s sel mode
  = snapTo (modeSeparator mode) (_text s) (from sel)
      (Z.min (to sel) (size (_text s))).
Proof.
  intros Hmode Hmono H1 H2 H3.
  rewrite adjustSelection_guarded by assumption.
  destruct mode; [contradiction|reflexivity|].
  rewrite monoSnap_plain by assumption. reflexivity.
Qed.

(** X6. Adjusting to words or paragraphs only widens a range, and keeps
    it inside the text. *)
Theorem adjustSelection_widens enc srt (s : String) (sel : TextSelection)
    (mode : TextSelectType) :
  size (_text s) <= 65535 -> validSelection sel -> noMonoBlocks s ->
  from sel < size (_text s) -> from sel <= to sel ->
  exists r,
    adjustSelection enc srt s sel mode = Done r /\
    0 <= from r <= from sel /\
    Z.min (to sel) (size (_text s)) <= to r <= size (_text s).
Proof.
  intros Hsz [[Hf0 Hf1] [Ht0 Ht1]] Hmono Hlt Hle.
  destruct (snapTo_done (modeSeparator mode) (_text s) (from sel)
              (Z.min (to sel) (size (_text s))))
    as (r & Hr & Hfr & Htr & Htr' & _); try lia.
  destruct mode.
  - rewrite adjustSelection_guarded by (unfold isUint16; lia).
    eexists. split; [reflexivity|]. simpl. lia.
  - rewrite (adjustSelection_snap enc srt s sel Words)
      by (unfold isUint16; auto; try lia; discriminate).
    exists r. split; [exact Hr|]. lia.
  - rewrite (adjustSelection_snap enc srt s sel Paragraphs)
      by (unfold isUint16; auto; try lia; discriminate).
    exists r. split; [exact Hr|]. lia.
Qed.

Lemma scanBack_stops (sep : QChar -> bool) (text : QString) n :
  scanBack sep text n = 0%nat \/
  exists k, scanBack sep text n = S k /\ sep (nth k text (0 : QChar)) = true.
Proof.
  induction n as [|k IH]; [now left|].
  cbn [scanBack]. destruct (sep (nth k text 0)) eqn:E; [|exact IH].
  right. exists k. split; [reflexivity | exact E].
Qed.

(** What the forward scan passes over holds no separator. *)
Lemma scanForward_passes (sep : QChar -> bool) (text : QString) fuel t t' :
  size text <= 65535 -> 0 <= t ->
  scanForward sep text fuel t = Done t' ->
  forall i, t <= i < t' -> sep (at_ text i) = false.
Proof.
  intros Hsz. revert t.
  induction fuel as [|k IH]; intros t Ht H i Hi.
  - simpl in H.
    destruct ((t <? size text) && negb (sep (at_ text t))); [discriminate|].
    inversion H. lia.
  - simpl in H.
    destruct (Z.ltb_spec t (size text)) as [Hlt|Hge]; simpl in H.
    + destruct (sep (at_ text t)) eqn:E; simpl in H.
      * inversion H. lia.
      * rewrite uint16_small in H by lia.
        destruct (Z.eq_dec i t) as [->|Hne]; [exact E|].
        apply (IH (t + 1)); auto; lia.
    + inversion H. lia.
Qed.

(** X7. On a text of at most 65535 characters without monospace blocks,
    a range that begins inside the text and not behind its own end, once
    adjusted to words or paragraphs, begins at the start of the text,
    behind a separator or on one, and ends at the end of the text, on a
    separator or behind one; no separator lies between the given end and
    the adjusted one. (With a monospace block the paragraph mode may
    return the extent of a code entity instead.) *)
Theorem adjustSelection_lands_on_separators enc srt (s : String)
    (sel : TextSelection) (mode : TextSelectType) :
  size (_text s) <= 65535 -> validSelection sel -> noMonoBlocks s ->
  mode <> Letters ->
  from sel < size (_text s) -> from sel <= to sel ->
  exists r,
    adjustSelection enc srt s sel mode = Done r /\
    (from r = 0 \/
     modeSeparator mode (at_ (_text s) (from r - 1)) = true \/
     (from r = from sel /\ modeSeparator mode (at_ (_text s) (from r)) = true)) /\
    (to r = size (_text s) \/
     modeSeparator mode (at_ (_text s) (to r)) = true \/
     modeSeparator mode (at_ (_text s) (to r - 1)) = true) /\
    (forall i, Z.min (to sel) (size (_text s)) < i < to r ->
               modeSeparator mode (at_ (_text s) i) = false).
Proof.
  intros Hsz [[Hf0 Hf1] [Ht0 Ht1]] Hmono Hmode Hlt Hle.
  rewrite adjustSelection_snap by (unfold isUint16; auto; lia).
  set (sep := modeSeparator mode).
  set (t := Z.min (to sel) (size (_text s))).
  assert (Htle : from sel <= t <= size (_text s)) by (unfold t; lia).
  unfold snapTo.
  assert (Hfrom :
            let f' := if negb (sep (at_ (_text s) (from sel)))
                      then Z.of_nat (scanBack sep (_text s)
                                       (Z.to_nat (from sel)))
                      else from sel in
            f' = 0 \/ sep (at_ (_text s) (f' - 1)) = true \/
            (f' = from sel /\ sep (at_ (_text s) f') = true)).
  { destruct (sep (at_ (_text s) (from sel))) eqn:E; simpl.
    - right. right. split; [reflexivity | exact E].
    - destruct (scanBack_stops sep (_text s) (Z.to_nat (from sel)))
        as [H0|(k & Hk & Hsep)].
      + left. rewrite H0. reflexivity.
      + right. left. rewrite Hk. unfold at_.
        replace (Z.to_nat (Z.of_nat (S k) - 1)) with k by lia. exact Hsep. }
  destruct (Z.ltb_spec t (size (_text s))) as [Htlt|Htge].
  - destruct (sep (at_ (_text s) t)) eqn:Et.
    + cbn [obind]. rewrite uint16_small by lia.
      eexists. split; [reflexivity|]. cbn [from to].
      split; [exact Hfrom|]. split.
      * right. right. replace (t + 1 - 1) with t by lia. exact Et.
      * intros i Hi. lia.
    + destruct (scanForward_done sep (_text s) (Z.to_nat (size (_text s) - t)) t)
        as (t' & H1 & H2 & H4 & H5); try lia.
      rewrite H1. cbn [obind].
      eexists. split; [reflexivity|]. cbn [from to].
      split; [exact Hfrom|]. split.
      * destruct (Z.eq_dec t' (size (_text s))) as [->|Hne]; [now left|].
        right. left. apply H4. lia.
      * intros i Hi.
        apply (scanForward_passes sep (_text s) _ t t' Hsz ltac:(lia) H1).
        lia.
  - cbn [obind]. eexists. split; [reflexivity|]. cbn [from to].
    split; [exact Hfrom|]. split; [left; lia|]. intros i Hi. lia.
Qed.

Lemma scanBack_fewer (sep1 sep2 : QChar -> bool) (text : QString) n :
  (forall ch, sep1 ch = true -> sep2 ch = true) ->
  (scanBack sep1 text n <= scanBack sep2 text n)%nat.
Proof.
  intros Hsub. induction n as [|k IH]; [simpl; lia|].
  cbn [scanBack].
  destruct (sep1 (nth k text 0)) eqn:E1.
  - rewrite (Hsub _ E1). lia.
  - destruct (sep2 (nth k text 0)); [|exact IH].
    pose proof (scanBack_le sep1 text k). lia.
Qed.

Lemma scanForward_result (sep : QChar -> bool) (text : QString) fuel t t' :
  size text <= 65535 -> 0 <= t ->
  scanForward sep text fuel t = Done t' ->
  t <= t' /\ (t' < size text -> sep (at_ text t') = true).
Proof.
  intros Hsz. revert t.
  induction fuel as [|k IH]; intros t Ht H1; simpl in H1.
  - destruct (Z.ltb_spec t (size text)); simpl in H1.
    + destruct (sep (at_ text t)) eqn:E; simpl in H1; [|discriminate].
      inversion H1. subst. split; [lia | intros _; exact E].
    + inversion H1. lia.
  - destruct (Z.ltb_spec t (size text)); simpl in H1.
    + destruct (sep (at_ text t)) eqn:E; simpl in H1.
      * inversion H1. subst. split; [lia | intros _; exact E].
      * rewrite uint16_small in H1 by lia. apply IH in H1; [|lia].
        split; [lia | apply H1].
    + inversion H1. lia.
Qed.

Lemma scanForward_fewer (sep1 sep2 : QChar -> bool) (text : QString)
    fuel1 fuel2 t t1 t2 :
  (forall ch, sep1 ch = true -> sep2 ch = true) ->
  size text <= 65535 -> 0 <= t ->
  scanForward sep1 text fuel1 t = Done t1 ->
  scanForward sep2 text fuel2 t = Done t2 ->
  (Z.to_nat (size text - t) <= fuel2)%nat ->
  t2 <= t1.
Proof.
  intros Hsub Hsz Ht H1 H2 Hfuel.
  destruct (scanForward_done sep2 text fuel2 t Hsz Ht Hfuel)
    as (t2' & E2 & Hb2 & Hs2 & _).
  rewrite E2 in H2. inversion H2. subst t2'.
  destruct (Z.le_gt_cases t2 t1) as [|Hgt]; [assumption|exfalso].
  (* the first scan stopped at t1 < t2: at a separator, which the second
     scan cannot have passed *)
  pose proof (scanForward_passes sep2 text fuel2 t t2 Hsz Ht E2 t1) as Hpass.
  destruct (scanForward_result sep1 text fuel1 t t1 Hsz Ht H1)
    as [Hrange Hstop].
  specialize (Hpass ltac:(lia)). specialize (Hstop ltac:(lia)).
  rewrite (Hsub _ Hstop) in Hpass. discriminate.
Qed.

Lemma IsParagraphSeparator_word ch :
  IsParagraphSeparator ch = true -> IsWordSeparator ch = true.
Proof.
  unfold IsParagraphSeparator, LineFeed. intros H.
  apply Z.eqb_eq in H. subst. reflexivity.
Qed.

(** X8. The paragraph adjustment of a range contains its word
    adjustment. *)
Theorem adjustSelection_paragraph_contains_word enc srt (s : String)
    (sel : TextSelection) :
  size (_text s) <= 65535 -> validSelection sel -> noMonoBlocks s ->
  exists w p,
    adjustSelection enc srt s sel Words = Done w /\
    adjustSelection enc srt s sel Paragraphs = Done p /\
    from p <= from w /\ to w <= to p.
Proof.
  intros Hsz [[Hf0 Hf1] [Ht0 Ht1]] Hmono.
  destruct (Z.ltb_spec (from sel) (size (_text s))) as [Hlt|Hge];
    [destruct (Z.leb_spec (from sel) (to sel)) as [Hle|Hgt]|].
  - rewrite !adjustSelection_snap
      by (unfold isUint16; auto; try lia; discriminate).
    cbn [modeSeparator].
    set (t := Z.min (to sel) (size (_text s))).
    unfold snapTo.
    set (fw := if negb (IsWordSeparator (at_ (_text s) (from sel))) then _
               else _).
    set (fp := if negb (IsParagraphSeparator (at_ (_text s) (from sel)))
               then _ else _).
    assert (Hfrom : fp <= fw).
    { unfold fp, fw.
      destruct (IsParagraphSeparator (at_ (_text s) (from sel))) eqn:Ep.
      - rewrite (IsParagraphSeparator_word _ Ep). simpl. lia.
      - cbn [negb].
        destruct (IsWordSeparator (at_ (_text s) (from sel))); cbn [negb].
        + pose proof (scanBack_le IsParagraphSeparator (_text s)
                        (Z.to_nat (from sel))). lia.
        + pose proof (scanBack_fewer IsParagraphSeparator IsWordSeparator
                        (_text s) (Z.to_nat (from sel))
                        IsParagraphSeparator_word). lia. }
    destruct (Z.ltb_spec t (size (_text s))) as [Htlt|Htge].
    + assert (Ht : from sel <= t) by (unfold t; lia).
      destruct (scanForward_done IsParagraphSeparator (_text s)
                  (Z.to_nat (size (_text s) - t)) t)
        as (tp & Hp1 & Hp2 & Hp4 & Hp5); try lia.
      destruct (scanForward_done IsWordSeparator (_text s)
                  (Z.to_nat (size (_text s) - t)) t)
        as (tw & Hw1 & Hw2 & Hw4 & Hw5); try lia.
      destruct (IsParagraphSeparator (at_ (_text s) t)) eqn:Ep.
      * rewrite (IsParagraphSeparator_word _ Ep). cbn [obind].
        eexists. eexists. split; [reflexivity|]. split; [reflexivity|].
        cbn [from to]. lia.
      * destruct (IsWordSeparator (at_ (_text s) t)) eqn:Ew.
        -- rewrite Hp1. cbn [obind]. rewrite uint16_small by lia.
           eexists. eexists. split; [reflexivity|]. split; [reflexivity|].
           cbn [from to]. specialize (Hp5 Htlt eq_refl). lia.
        -- rewrite Hp1, Hw1. cbn [obind].
           eexists. eexists. split; [reflexivity|]. split; [reflexivity|].
           cbn [from to]. split; [exact Hfrom|].
           apply (scanForward_fewer IsParagraphSeparator IsWordSeparator
                    (_text s) _ _ t tp tw IsParagraphSeparator_word Hsz
                    ltac:(lia) Hp1 Hw1). lia.
    + cbn [obind].
      eexists. eexists. split; [reflexivity|]. split; [reflexivity|].
      cbn [from to]. lia.
  - exists sel, sel. rewrite !adjustSelection_unguarded by lia.
    repeat split; lia.
  - exists sel, sel. rewrite !adjustSelection_unguarded by lia.
    repeat split; lia.
Qed.

Lemma adjustSelection_widens_witness :
  exists r,
    adjustSelection plainEncode (@stableSort _) MoreSamples.twoParagraphs
      (mkSel 4 4) Paragraphs = Done r /\
    0 <= from r <= 4 /\
    Z.min 4 (size (_text MoreSamples.twoParagraphs)) <= to r
    <= size (_text MoreSamples.twoParagraphs).
Proof.
  apply (adjustSelection_widens plainEncode (@stableSort _)
           MoreSamples.twoParagraphs (mkSel 4 4) Paragraphs).
  - vm_compute. discriminate.
  - unfold validSelection, isUint16. simpl. lia.
  - repeat constructor.
  - vm_compute. reflexivity.
  - simpl. lia.
Defined.

Lemma adjustSelection_lands_on_separators_witness :
  exists r,
    adjustSelection plainEncode (@stableSort _) MoreSamples.twoParagraphs
      (mkSel 4 4) Words = Done r /\
    (from r = 0 \/
     IsWordSeparator (at_ (_text MoreSamples.twoParagraphs) (from r - 1)) = true \/
     (from r = 4 /\
      IsWordSeparator (at_ (_text MoreSamples.twoParagraphs) (from r)) = true)) /\
    (to r = size (_text MoreSamples.twoParagraphs) \/
     IsWordSeparator (at_ (_text MoreSamples.twoParagraphs) (to r)) = true \/
     IsWordSeparator (at_ (_text MoreSamples.twoParagraphs) (to r - 1)) = true) /\
    (forall i, Z.min 4 (size (_text MoreSamples.twoParagraphs)) < i < to r ->
               IsWordSeparator (at_ (_text MoreSamples.twoParagraphs) i) = false).
Proof.
  apply (adjustSelection_lands_on_separators plainEncode (@stableSort _)
           MoreSamples.twoParagraphs (mkSel 4 4) Words).
  - vm_compute. discriminate.
  - unfold validSelection, isUint16. simpl. lia.
  - repeat constructor.
  - discriminate.
  - vm_compute. reflexivity.
  - simpl. lia.
Defined.

Lemma adjustSelection_paragraph_contains_word_witness :
  exists w p,
    adjustSelection plainEncode (@stableSort _) MoreSamples.twoParagraphs
      (mkSel 4 4) Words = Done w /\
    adjustSelection plainEncode (@stableSort _) MoreSamples.twoParagraphs
      (mkSel 4 4) Paragraphs = Done p /\
    from p <= from w /\ to w <= to p.
Proof.
  apply (adjustSelection_paragraph_contains_word plainEncode (@stableSort _)
           MoreSamples.twoParagraphs (mkSel 4 4)).
  - vm_compute. discriminate.
  - unfold validSelection, isUint16. simpl. lia.
  - repeat constructor.
Defined.

Example twoParagraphs_adjusted :
  adjustSelection plainEncode (@stableSort _) MoreSamples.twoParagraphs
    (mkSel 4 4) Words = Done (mkSel 3 5) /\
  adjustSelection plainEncode (@stableSort _) MoreSamples.twoParagraphs
    (mkSel 4 4) Paragraphs = Done (mkSel 0 5).
Proof. split; vm_compute; reflexivity. Qed.

(** ** More on the natural size and the lines *)

(** X9. On a text without framed paragraphs, [countHeight] is the sum of
    the line heights of the line breaker at every width from -33554432
    up, the widths that it answers from the cache included. (The bounds
    keep the fixed-point values of a negative width and of the minimal
    resize width from wrapping.) *)
Theorem countHeight_unframed_is_line_sum (s s' : String) (W : Z)
    (breakEverywhere : bool) :
  unframed s -> Forall (fun b => 0 <= b_height b) (_blocks s) ->
  recountNaturalSize s = Done s' ->
  -33554432 <= W -> _minResizeWidth s <= 33554431 ->
  result (countHeight s' W breakEverywhere)
  = (lines <- enumerateLines s' W breakEverywhere ;;
     Done (sumLineHeights lines)).
Proof.
  intros Hun Hh Hrecount Hlow Hmin. unfold countHeight.
  destruct (QFixed_ofInt (_maxWidth s') <=? QFixed_ofInt32 W) eqn:Etest;
    cbn [result]; [|reflexivity].
  assert (Hsame : _minResizeWidth s' = _minResizeWidth s).
  { unfold recountNaturalSize in Hrecount.
    destruct (naturalSize s) as [[[mw mh] e]| |]; cbn [obind] in Hrecount;
      try discriminate.
    injection Hrecount as <-. reflexivity. }
  rewrite <- Hsame in Hmin.
  pose proof (shortCircuit_width (_maxWidth s') (_minResizeWidth s') W Hlow
                Hmin Etest) as Hwide.
  destruct (unframed_lines_sum_minHeight s s' W breakEverywhere Hun Hh
              Hrecount Hwide) as (lines & Hlines & Hsum).
  rewrite Hlines. cbn [obind]. now rewrite Hsum.
Qed.

Lemma countHeight_unframed_is_line_sum_witness :
  result
    (countHeight
       (mkString Sample.style (qstr "Hello") [Sample.word 0 20] None 0 20 16
          0 false false) 50 false)
  = (lines <- enumerateLines
                (mkString Sample.style (qstr "Hello") [Sample.word 0 20] None
                   0 20 16 0 false false) 50 false ;;
     Done (sumLineHeights lines)).
Proof.
  apply (countHeight_unframed_is_line_sum
           (Sample.plain "Hello" [Sample.word 0 20]) _ 50 false).
  - split; [reflexivity|]. constructor; [discriminate | constructor].
  - constructor; [vm_compute; discriminate | constructor].
  - vm_compute. reflexivity.
  - lia.
  - simpl. lia.
Defined.

Lemma QFixed_ceil_toInt_div (v : QFixed) :
  QFixed_toInt (QFixed_ceil v) = (v + 63) / 64.
Proof.
  unfold QFixed_toInt, QFixed_ceil.
  rewrite !land_minus64, Z.shiftr_div_pow2 by lia.
  change (2 ^ 6) with 64.
  generalize ((v + 63) / 64). intros q.
  assert (H : (64 * q + 32) / 64 = q)
    by (symmetry; apply Z.div_unique with (r := 32); lia).
  rewrite H. symmetry. apply Z.div_unique with (r := 0); lia.
Qed.

Lemma QFixed_ceil_toInt_mono (a b : QFixed) :
  a <= b -> QFixed_toInt (QFixed_ceil a) <= QFixed_toInt (QFixed_ceil b).
Proof.
  intros H. rewrite !QFixed_ceil_toInt_div.
  apply Z.div_le_mono; lia.
Qed.

Lemma monoStep_below s n b n' m :
  sidePaddingNonneg (_st s) ->
  (b_type b = TextBlockType.Newline ->
   b_width b = 0 /\ b_rbearing b = 0 /\ b_rpadding b = 0) ->
  naturalStep s n b = Done n' ->
  monoBelow n m -> monoBelow n' (monoStep m b).
Proof.
  intros Hst Hflat Hstep (Hpad & Hw & Hrb & Hrp & Hmax0 & HpW & Hres).
  unfold naturalStep in Hstep. unfold monoStep.
  destruct (TextBlockType.eqb (b_type b) TextBlockType.Newline) eqn:Enl.
  - assert (Ht : b_type b = TextBlockType.Newline)
      by (destruct (b_type b); simpl in Enl; congruence).
    destruct (Hflat Ht) as (Hbw & Hbb & Hbp).
    assert (Hnew : exists pindex ppadding minHeight,
               0 <= m_left ppadding + m_right ppadding /\
               n' = mkNatural pindex ppadding minHeight 0
                      (Z.max (n_maxWidth n) (n_width n))
                      (QFixed_ofInt (m_left ppadding + m_right ppadding))
                      0 0).
    { destruct (negb (n_pindex n =? paragraphIndex s (Some b))).
      - destruct (paragraphByIndex s _) as [p| |]; cbn [obind] in Hstep;
          try discriminate.
        injection Hstep as Hn'. subst n'.
        exists (paragraphIndex s (Some b)), (setTop (paragraphPadding s p) 0).
        eexists. split; [|reflexivity].
        simpl. apply paragraphPadding_sides. exact Hst.
      - cbn [obind] in Hstep. injection Hstep as Hn'. subst n'.
        do 3 eexists. split; [|reflexivity]. exact Hpad. }
    destruct Hnew as (pindex & ppadding & minHeight & Hpad' & ->).
    unfold monoBelow, QFixed_ofInt in *.
    destruct (mo_fullMonospace m); simpl; rewrite Hbw, Hbb, Hbp;
      repeat split; lia.
  - inversion Hstep. subst n'. clear Hstep.
    unfold monoBelow, QFixed_ofInt in *.
    destruct ((Z.land (b_flags b) _ =? 0) && _);
      [|destruct (mo_fullMonospace m)]; simpl; repeat split; lia.
Qed.

Lemma monoLoop_below s :
  sidePaddingNonneg (_st s) ->
  forall bs n nf m,
    Forall (fun b => b_type b = TextBlockType.Newline ->
                     b_width b = 0 /\ b_rbearing b = 0 /\ b_rpadding b = 0)
      bs ->
    naturalLoop s n bs = Done nf ->
    monoBelow n m -> monoBelow nf (fold_left monoStep bs m).
Proof.
  intros Hst. induction bs as [|b rest IH]; intros n nf m Hflat Hloop Hsim.
  - inversion Hloop. subst. exact Hsim.
  - inversion Hflat as [|? ? Hb Hrest]; subst.
    cbn [naturalLoop] in Hloop.
    destruct (naturalStep s n b) as [n'| |] eqn:E; cbn [obind] in Hloop;
      try discriminate.
    cbn [fold_left]. apply (IH n'); auto.
    apply (monoStep_below s n b n' m); auto.
Qed.

(** X10. The monospace width of a string is never more than its natural
    width. *)
Theorem countMaxMonospaceWidth_le_maxWidth (s s' : String) :
  newlinesFlat s -> sidePaddingNonneg (_st s) ->
  recountNaturalSize s = Done s' ->
  countMaxMonospaceWidth s <= _maxWidth s'.
Proof.
  intros Hflat Hst Hrecount.
  unfold recountNaturalSize, naturalSize in Hrecount.
  destruct (paragraphByIndex s (paragraphIndex s None)) as [p| |];
    cbn [obind] in Hrecount; try discriminate.
  set (n0 := mkNatural _ _ _ _ _ _ _ _) in Hrecount.
  destruct (naturalLoop s n0 (_blocks s)) as [nf| |] eqn:Eloop;
    cbn [obind] in Hrecount; try discriminate.
  set (sized := if 0 <? n_width nf then _ else _) in Hrecount.
  destruct sized as [minHeight maxWidth] eqn:Esized.
  injection Hrecount as Hs'. subst s'. cbn [_maxWidth].
  pose proof (paragraphPadding_sides s p Hst) as Hp.
  assert (Hsim : monoBelow nf
                   (fold_left monoStep (_blocks s) (mkMono 0 0 true 0 0 0))).
  { apply (monoLoop_below s Hst (_blocks s) n0); auto.
    unfold monoBelow, n0, QFixed_ofInt. simpl. repeat split; lia. }
  destruct Hsim as (Hpad & Hw & _ & _ & Hmax0 & HpW & Hres).
  unfold countMaxMonospaceWidth.
  set (m := fold_left monoStep (_blocks s) _) in *.
  apply QFixed_ceil_toInt_mono.
  unfold sized in Esized. unfold QFixed_ofInt in *.
  destruct (Z.ltb_spec 0 (mo_width m)); simpl;
    [destruct (mo_fullMonospace m)|];
    destruct (Z.ltb_spec 0 (n_width nf)); inversion Esized; subst; lia.
Qed.

Lemma monoLoop_plain :
  forall bs m,
    Forall (fun b => b_type b = TextBlockType.Newline ->
                     b_width b = 0 /\ b_rbearing b = 0 /\ b_rpadding b = 0)
      bs ->
    Forall (fun b => b_type b <> TextBlockType.Newline ->
                     IsMono (b_flags b) = false /\
                     b_type b <> TextBlockType.Skip) bs ->
    mo_result m = 0 -> mo_paragraphWidth m = 0 ->
    (mo_fullMonospace m = true -> mo_width m = 0) ->
    let m' := fold_left monoStep bs m in
    mo_result m' = 0 /\ mo_paragraphWidth m' = 0 /\
    (mo_fullMonospace m' = true -> mo_width m' = 0).
Proof.
  induction bs as [|b rest IH]; intros m Hflat Hplain Hres HpW Hfull.
  - simpl. auto.
  - inversion Hflat as [|? ? Hb Hrest]; subst.
    inversion Hplain as [|? ? Hc Hrest']; subst.
    cbn [fold_left]. apply IH; auto; unfold monoStep;
      destruct (TextBlockType.eqb (b_type b) TextBlockType.Newline) eqn:Enl.
    + destruct (mo_fullMonospace m); simpl; [|exact Hres].
      rewrite Hres, HpW, Hfull by reflexivity. reflexivity.
    + exact Hres.
    + destruct (mo_fullMonospace m); simpl; [reflexivity | exact HpW].
    + assert (Ht : b_type b <> TextBlockType.Newline)
        by (intros Ht; rewrite Ht in Enl; discriminate).
      destruct (Hc Ht) as [Hmono Hskip].
      unfold IsMono in Hmono. apply negb_false_iff in Hmono. rewrite Hmono.
      assert (Hs : TextBlockType.eqb (b_type b) TextBlockType.Skip = false)
        by (destruct (b_type b); try reflexivity; congruence).
      rewrite Hs. exact HpW.
    + assert (Ht : b_type b = TextBlockType.Newline)
        by (destruct (b_type b); simpl in Enl; congruence).
      destruct (Hb Ht) as (Hbw & Hbb & _).
      intros _. destruct (mo_fullMonospace m); simpl; lia.
    + assert (Ht : b_type b <> TextBlockType.Newline)
        by (intros Ht; rewrite Ht in Enl; discriminate).
      destruct (Hc Ht) as [Hmono Hskip].
      unfold IsMono in Hmono. apply negb_false_iff in Hmono. rewrite Hmono.
      assert (Hs : TextBlockType.eqb (b_type b) TextBlockType.Skip = false)
        by (destruct (b_type b); try reflexivity; congruence).
      rewrite Hs. simpl. discriminate.
Qed.

(** X11. A string whose newline blocks are flat and none of whose
    other blocks is monospace or a skip block has the monospace width
    0. (A skip block counts as monospace content: it does not clear
    [fullMonospace].) *)
Theorem countMaxMonospaceWidth_without_mono (s : String) :
  newlinesFlat s -> noMonoContent s -> countMaxMonospaceWidth s = 0.
Proof.
  intros Hflat Hplain. unfold countMaxMonospaceWidth.
  destruct (monoLoop_plain (_blocks s) (mkMono 0 0 true 0 0 0) Hflat Hplain)
    as (Hres & HpW & Hfull); try reflexivity.
  set (m := fold_left monoStep (_blocks s) _) in *.
  destruct (Z.ltb_spec 0 (mo_width m)); simpl;
    [destruct (mo_fullMonospace m) eqn:E|]; rewrite ?Hres; try reflexivity.
  specialize (Hfull eq_refl). lia.
Qed.

Lemma monoLoop_agrees s :
  forall bs n nf m,
    Forall (fun b => b_type b = TextBlockType.Newline ->
                     b_paragraphIndex b = 0) bs ->
    Forall (fun b => b_type b = TextBlockType.Newline ->
                     b_width b = 0 /\ b_rbearing b = 0 /\ b_rpadding b = 0)
      bs ->
    Forall (fun b => b_type b <> TextBlockType.Newline ->
                     IsMono (b_flags b) = true \/
                     b_type b = TextBlockType.Skip) bs ->
    Forall (fun b => b_type b <> TextBlockType.Newline ->
                     b_rbearing b = 0 /\ 0 <= b_width b /\ 0 <= b_rpadding b)
      bs ->
    naturalLoop s n bs = Done nf ->
    monoAgrees n m -> monoAgrees nf (fold_left monoStep bs m).
Proof.
  induction bs as [|b rest IH];
    intros n nf m Hidx Hflat Hmono Hadv Hloop Hsim.
  - inversion Hloop. subst. exact Hsim.
  - inversion Hidx as [|? ? Hi Hidx']; subst.
    inversion Hflat as [|? ? Hf Hflat']; subst.
    inversion Hmono as [|? ? Hm Hmono']; subst.
    inversion Hadv as [|? ? Ha Hadv']; subst.
    cbn [naturalLoop] in Hloop.
    destruct (naturalStep s n b) as [n'| |] eqn:E; cbn [obind] in Hloop;
      try discriminate.
    cbn [fold_left]. apply (IH n'); auto.
    clear IH Hloop.
    destruct Hsim as (Hp & Hpad & Hfull & Hw & Hrb & Hrb' & Hrp & Hrp0 & Hmax
                      & Hres & HpW).
    unfold naturalStep in E. unfold monoStep.
    destruct (TextBlockType.eqb (b_type b) TextBlockType.Newline) eqn:Enl.
    + assert (Ht : b_type b = TextBlockType.Newline)
        by (destruct (b_type b); simpl in Enl; congruence).
      destruct (Hf Ht) as (Hbw & Hbb & Hbp).
      unfold paragraphIndex in E. rewrite (Hi Ht), Hp in E.
      cbn [Z.eqb negb obind] in E. injection E as E. subst n'.
      unfold monoAgrees. rewrite Hfull, Hpad, Hbw, Hbb, Hbp. simpl.
      repeat split; try reflexivity; lia.
    + assert (Ht : b_type b <> TextBlockType.Newline)
        by (intros Ht; rewrite Ht in Enl; discriminate).
      destruct (Ha Ht) as (Hbb & Hbw & Hbp).
      injection E as E. subst n'.
      assert (Hkeep :
                (if (Z.land (b_flags b)
                       (Z.lor TextBlockFlag.Pre TextBlockFlag.Code) =? 0)
                    && negb (TextBlockType.eqb (b_type b) TextBlockType.Skip)
                 then false else mo_fullMonospace m) = true).
      { destruct (Hm Ht) as [Hmo|Hsk].
        - unfold IsMono in Hmo. apply negb_true_iff in Hmo. rewrite Hmo.
          exact Hfull.
        - rewrite Hsk. simpl. rewrite andb_false_r. exact Hfull. }
      rewrite Hkeep. unfold monoAgrees. simpl.
      repeat split; auto; lia.
Qed.

(** X12. For a text without framed paragraphs whose content is all
    monospace, with plain advances, the monospace width is the natural
    width. *)
Theorem countMaxMonospaceWidth_all_mono (s s' : String) :
  unframed s -> newlinesFlat s -> allMonoContent s -> plainAdvances s ->
  recountNaturalSize s = Done s' ->
  countMaxMonospaceWidth s = _maxWidth s'.
Proof.
  intros [Hstart Hidx] Hflat Hmono Hadv Hrecount.
  unfold recountNaturalSize, naturalSize, paragraphIndex in Hrecount.
  rewrite Hstart in Hrecount. cbn [paragraphByIndex Z.eqb obind] in Hrecount.
  cbn [paragraphPadding m_top m_left m_right noMargins] in Hrecount.
  set (n0 := mkNatural _ _ _ _ _ _ _ _) in Hrecount.
  destruct (naturalLoop s n0 (_blocks s)) as [nf| |] eqn:Eloop;
    cbn [obind] in Hrecount; try discriminate.
  set (sized := if 0 <? n_width nf then _ else _) in Hrecount.
  destruct sized as [minHeight maxWidth] eqn:Esized.
  injection Hrecount as Hs'. subst s'. cbn [_maxWidth].
  assert (Hsim : monoAgrees nf
                   (fold_left monoStep (_blocks s) (mkMono 0 0 true 0 0 0))).
  { apply (monoLoop_agrees s (_blocks s) n0); auto.
    unfold monoAgrees, n0, QFixed_ofInt. simpl.
    repeat split; try reflexivity; lia. }
  destruct Hsim as (_ & _ & Hfull & Hw & _ & _ & _ & _ & Hmax & Hres & HpW).
  unfold countMaxMonospaceWidth.
  set (m := fold_left monoStep (_blocks s) _) in *.
  f_equal. f_equal. rewrite Hfull, andb_true_r.
  unfold sized in Esized. rewrite Hw in Esized.
  destruct (Z.ltb_spec 0 (mo_width m)); inversion Esized; subst; lia.
Qed.

Lemma countMaxMonospaceWidth_all_mono_witness :
  countMaxMonospaceWidth MoreSamples.code = _maxWidth MoreSamples.codeSized.
Proof.
  apply (countMaxMonospaceWidth_all_mono MoreSamples.code MoreSamples.codeSized).
  - split; [reflexivity|]. constructor; [discriminate | constructor].
  - constructor; [discriminate | constructor].
  - constructor; [intros _; left; reflexivity | constructor].
  - constructor; [|constructor].
    intros _. repeat split; vm_compute; discriminate.
  - vm_compute. reflexivity.
Defined.

Lemma countMaxMonospaceWidth_le_maxWidth_witness :
  countMaxMonospaceWidth Sample.framedHello
  <= _maxWidth Sample.framedHelloSized.
Proof.
  apply (countMaxMonospaceWidth_le_maxWidth Sample.framedHello
           Sample.framedHelloSized).
  - constructor; [discriminate | constructor].
  - split; vm_compute; discriminate.
  - vm_compute. reflexivity.
Defined.

Lemma countMaxMonospaceWidth_without_mono_witness :
  countMaxMonospaceWidth Sample.boldItalic = 0.
Proof.
  apply (countMaxMonospaceWidth_without_mono Sample.boldItalic).
  - constructor; [discriminate | constructor].
  - constructor; [|constructor].
    intros _. split; [reflexivity | discriminate].
Defined.

Lemma widest_rounded (lines : list (QFixed * Z)) :
  forall m,
    QFixed_toInt
      (QFixed_ceil
         (fold_left (fun (m : QFixed) (l : QFixed * Z) =>
                       if m <? fst l then fst l else m) lines m))
    = fold_left Z.max
        (map (fun l : QFixed * Z => QFixed_toInt (QFixed_ceil (fst l))) lines)
        (QFixed_toInt (QFixed_ceil m)).
Proof.
  induction lines as [|l rest IH]; intros m; [reflexivity|].
  cbn [fold_left map]. rewrite IH. f_equal.
  destruct (Z.ltb_spec m (fst l)) as [Hlt|Hge].
  - pose proof (QFixed_ceil_toInt_mono m (fst l) ltac:(lia)). lia.
  - pose proof (QFixed_ceil_toInt_mono (fst l) m Hge). lia.
Qed.

(** X13. Below the natural width, and from -33554432 up (below it the
    fixed-point value of the width wraps to a positive one),
    [countWidth] is the largest entry of [countLineWidths], and 0 when
    no entry is positive. *)
Theorem countWidth_is_widest_line (s : String) (W : Z)
    (options : LineWidthsOptions) :
  -33554432 <= W < _maxWidth s ->
  result (countWidth s W (lw_breakEverywhere options))
  = (widths <- countLineWidths s W options ;;
     Done (fold_left Z.max widths 0)).
Proof.
  intros [Hlow HW]. unfold countWidth, countLineWidths.
  destruct (QFixed_ofInt (_maxWidth s) <=? QFixed_ofInt32 W) eqn:Etest.
  { apply (shortCircuit_test (_maxWidth s) W Hlow) in Etest. lia. }
  cbn [result].
  destruct (enumerateLines s W (lw_breakEverywhere options)) as [lines| |];
    cbn [obind]; try reflexivity.
  rewrite widest_rounded. reflexivity.
Qed.

Lemma countWidth_is_widest_line_witness :
  result (countWidth MoreSamples.twoWords 40 false)
  = (widths <- countLineWidths MoreSamples.twoWords 40
                 (mkLineWidthsOptions false 0) ;;
     Done (fold_left Z.max widths 0)).
Proof.
  apply (countWidth_is_widest_line MoreSamples.twoWords 40
           (mkLineWidthsOptions false 0)).
  simpl. lia.
Defined.

Example twoWords_lines :
  countLineWidths MoreSamples.twoWords 40 (mkLineWidthsOptions false 0)
  = Done [30; 30] /\
  result (countWidth MoreSamples.twoWords 40 false) = Done 30.
Proof. split; vm_compute; reflexivity. Qed.

(** Why the widths start at -33554432: the fixed-point value of the width
    -67108764 wraps to 6400, a hundred pixels, so that [countWidth] and
    [countHeight] answer "ab cd" from the cache, while the line breaker
    works at the width 0 and puts each word on a line of its own. *)
Example twoWords_negative_width_wraps :
  QFixed_ofInt32 (-67108764) = 6400 /\
  countWidth MoreSamples.twoWords (-67108764) false = mkCounted (Done 64) 0 /\
  countHeight MoreSamples.twoWords (-67108764) false = mkCounted (Done 16) 0 /\
  countLineWidths MoreSamples.twoWords (-67108764)
    (mkLineWidthsOptions false 0) = Done [0; 30; 30] /\
  enumerateLines MoreSamples.twoWords (-67108764) false
  = Done [(0, 0); (1920, 16); (1920, 16)].
Proof. repeat split; vm_compute; reflexivity. Qed.

(** *** Whole words *)

Lemma wordsLoop_whole width bi blockHeight ws :
  Forall (fun w => 0 <= w_width w) ws ->
  forall fuel be j wl lh cur wl' lh' cur' st,
    wordsLoop fuel width be bi blockHeight ws j j wl lh cur st
    = wordsLoop fuel width false bi blockHeight ws j j wl' lh' cur' st.
Proof.
  intros Hws. induction fuel as [|fuel IH];
    intros be j wl lh cur wl' lh' cur' st.
  - simpl. reflexivity.
  - cbn [wordsLoop].
    destruct (nth_error ws j) as [wj|] eqn:E; [|reflexivity].
    assert (Hwj : 0 <= w_width wj).
    { rewrite Forall_forall in Hws. apply Hws.
      eapply nth_error_In. exact E. }
    cbv zeta.
    destruct (Z.leb_spec 0 (w_width wj)); [|lia].
    rewrite Nat.eqb_refl. cbn [negb andb orb].
    destruct (0 <=? _); apply IH.
Qed.

Lemma lineStep_whole s width be bi b st :
  Forall (fun w => 0 <= w_width w) (b_words b) ->
  lineStep s width be bi b st = lineStep s width false bi b st.
Proof.
  intros Hws. unfold lineStep.
  destruct (TextBlockType.eqb (b_type b) TextBlockType.Newline);
    [reflexivity|].
  destruct (0 <=? _); [reflexivity|].
  destruct (TextBlockType.eqb (b_type b) TextBlockType.Text); [|reflexivity].
  destruct (b_words b) as [|w ws] eqn:E; [reflexivity|].
  apply wordsLoop_whole. exact Hws.
Qed.

Lemma lineLoop_whole s width be :
  forall bs bi st,
    Forall (fun b => Forall (fun w => 0 <= w_width w) (b_words b)) bs ->
    lineLoop s width be bi bs st = lineLoop s width false bi bs st.
Proof.
  induction bs as [|b rest IH]; intros bi st Hws; [reflexivity|].
  inversion Hws as [|? ? Hb Hrest]; subst.
  cbn [lineLoop]. rewrite (lineStep_whole s width be bi b st Hb).
  destruct (lineStep s width false bi b st); cbn [obind]; auto.
Qed.

(** X14. [breakEverywhere] changes nothing for a string none of whose
    words was cut into chunks. *)
Theorem breakEverywhere_only_matters_for_chunks (s : String) (w : Z)
    (breakEverywhere : bool) :
  wholeWords s ->
  enumerateLines s w breakEverywhere = enumerateLines s w false.
Proof.
  intros Hws. unfold enumerateLines, enumerateLinesPlaced.
  destruct (paragraphByIndex s (paragraphIndex s None)); cbn [obind];
    try reflexivity.
  rewrite (lineLoop_whole s _ breakEverywhere (_blocks s) 0%nat _ Hws).
  reflexivity.
Qed.

Lemma breakEverywhere_only_matters_for_chunks_witness :
  enumerateLines MoreSamples.twoWords 40 true
  = enumerateLines MoreSamples.twoWords 40 false.
Proof.
  apply (breakEverywhere_only_matters_for_chunks MoreSamples.twoWords 40 true).
  repeat constructor; vm_compute; discriminate.
Defined.

(** *** The number of lines *)

Lemma wordsLoop_lines width be bi blockHeight ws :
  forall fuel j f f_wLeft f_lineHeight f_cur st st',
    (f <= j)%nat -> (j <= List.length ws)%nat ->
    wordsLoop fuel width be bi blockHeight ws j f f_wLeft f_lineHeight
      f_cur st = Done st' ->
    (List.length (l_out st) <= List.length (l_out st')
     <= List.length (l_out st) + (List.length ws - f))%nat.
Proof.
  induction fuel as [|fuel IH];
    intros j f f_wLeft f_lineHeight f_cur st st' Hfj Hjn H.
  - simpl in H. destruct (nth_error ws j); [discriminate|].
    inversion H. subst. lia.
  - cbn [wordsLoop] in H.
    destruct (nth_error ws j) as [wj|] eqn:E.
    2:{ inversion H. subst. lia. }
    assert (Hlt : (j < List.length ws)%nat) by (apply nth_error_Some; congruence).
    cbv zeta in H.
    destruct (0 <=? _).
    + destruct ((0 <=? w_width wj) || _); apply IH in H; cbn [l_out] in H; lia.
    + set (rollback := negb (f =? j)%nat && negb be) in H.
      assert (Hj' : (f <= (if rollback then f else j))%nat
                    /\ ((if rollback then f else j) <= j)%nat)
        by (destruct rollback; lia).
      apply IH in H; cbn [l_out] in H; try lia.
      rewrite length_app in H. simpl in H. lia.
Qed.

Lemma blockAtoms_length bi b :
  List.length (blockAtoms bi b)
  = match b_type b, b_words b with
    | TextBlockType.Text, _ :: _ => List.length (b_words b)
    | _, _ => 1%nat
    end.
Proof.
  unfold blockAtoms.
  destruct (b_type b); try reflexivity.
  destruct (b_words b); [reflexivity|].
  rewrite length_map, length_seq. reflexivity.
Qed.

Lemma lineStep_lines s width be bi b st st' :
  lineStep s width be bi b st = Done st' ->
  ((if TextBlockType.eqb (b_type b) TextBlockType.Newline then 1 else 0)
   + List.length (l_out st) <= List.length (l_out st')
   <= List.length (l_out st) + List.length (blockAtoms bi b))%nat.
Proof.
  unfold lineStep. rewrite blockAtoms_length.
  destruct (TextBlockType.eqb (b_type b) TextBlockType.Newline) eqn:Enl.
  - assert (Ht : b_type b = TextBlockType.Newline)
      by (destruct (b_type b); simpl in Enl; congruence).
    rewrite Ht.
    destruct (negb (l_pindex st =? paragraphIndex s (Some b)));
      [destruct (paragraphByIndex s _)|]; cbn [obind]; try discriminate;
      intros H; inversion H; cbn [l_out]; rewrite length_app; simpl; lia.
  - destruct (0 <=? _).
    { intros H. inversion H. cbn [l_out].
      destruct (b_type b), (b_words b); simpl; lia. }
    destruct (TextBlockType.eqb (b_type b) TextBlockType.Text) eqn:Etext.
    + assert (Ht : b_type b = TextBlockType.Text)
        by (destruct (b_type b); simpl in Etext; congruence).
      rewrite Ht.
      destruct (b_words b) as [|w ws] eqn:Ew.
      * intros H. inversion H. cbn [l_out]. lia.
      * intros H. apply wordsLoop_lines in H; simpl in *; lia.
    + intros H. inversion H. cbn [l_out]. rewrite length_app.
      destruct (b_type b); simpl in *; try discriminate; lia.
Qed.

Lemma lineLoop_lines s width be :
  forall bs bi st st',
    lineLoop s width be bi bs st = Done st' ->
    (List.length
       (filter (fun b => TextBlockType.eqb (b_type b) TextBlockType.Newline)
          bs)
     + List.length (l_out st) <= List.length (l_out st')
     <= List.length (l_out st) + List.length (atomsFrom bi bs))%nat.
Proof.
  induction bs as [|b rest IH]; intros bi st st' H.
  - inversion H. subst. simpl. lia.
  - cbn [lineLoop] in H.
    destruct (lineStep s width be bi b st) as [st1| |] eqn:E;
      cbn [obind] in H; try discriminate.
    apply lineStep_lines in E. apply IH in H.
    cbn [filter atomsFrom]. rewrite length_app.
    destruct (TextBlockType.eqb (b_type b) TextBlockType.Newline);
      simpl in *; lia.
Qed.

(** X15. The line breaker passes on at least one line for every newline
    block, and at most one line more than there are pieces of content. *)
Theorem enumerateLines_line_count (s : String) (w : Z)
    (breakEverywhere : bool) (lines : list (QFixed * Z)) :
  enumerateLines s w breakEverywhere = Done lines ->
  (hardBreaks s <= List.length lines <= List.length (allAtoms s) + 1)%nat.
Proof.
  unfold enumerateLines, enumerateLinesPlaced, hardBreaks, blocksOfType,
    allAtoms.
  destruct (paragraphByIndex s (paragraphIndex s None)); cbn [obind];
    try discriminate.
  destruct (lineLoop s _ breakEverywhere 0 (_blocks s) _) as [st| |] eqn:E;
    cbn [obind]; try discriminate.
  apply lineLoop_lines in E. cbn [l_out] in E. simpl in E.
  destruct (l_widthLeft st <? _); cbn [obind fst]; intros H; inversion H;
    rewrite length_map, ?length_app; simpl; lia.
Qed.

Lemma enumerateLines_line_count_witness :
  (hardBreaks MoreSamples.twoWords <= List.length [(1920, 16); (1920, 16)]
   <= List.length (allAtoms MoreSamples.twoWords) + 1)%nat.
Proof.
  apply (enumerateLines_line_count MoreSamples.twoWords 40 false
           [(1920, 16); (1920, 16)]).
  vm_compute. reflexivity.
Defined.

(** ** More on the skip block *)

Lemma String_eta (a b : String) :
  _st a = _st b -> _text a = _text b -> _blocks a = _blocks b ->
  _extended a = _extended b -> _minResizeWidth a = _minResizeWidth b ->
  _maxWidth a = _maxWidth b -> _minHeight a = _minHeight b ->
  _startParagraphIndex a = _startParagraphIndex b ->
  _endsWithParagraphDetails a = _endsWithParagraphDetails b ->
  _skipBlockAddedNewline a = _skipBlockAddedNewline b ->
  a = b.
Proof. destruct a, b; simpl; intros; subst; reflexivity. Qed.

Lemma naturalSize_same s s' :
  _st s = _st s' -> _extended s = _extended s' ->
  _startParagraphIndex s = _startParagraphIndex s' ->
  _blocks s = _blocks s' ->
  naturalSize s = naturalSize s'.
Proof.
  intros Hst Hext Hstart Hblocks. unfold naturalSize, paragraphIndex.
  rewrite Hstart, Hblocks, (paragraphByIndex_same s s' _ Hext).
  destruct (paragraphByIndex s' (_startParagraphIndex s')) as [p| |];
    cbn [obind]; try reflexivity.
  rewrite (paragraphPadding_same s s' p Hst).
  rewrite (naturalLoop_same s s' (_blocks s') Hst Hext). reflexivity.
Qed.

Lemma recountNaturalSize_fields s s1 :
  recountNaturalSize s = Done s1 ->
  naturalSize s
  = Done (_maxWidth s1, _minHeight s1, _endsWithParagraphDetails s1) /\
  _minResizeWidth s1 = _minResizeWidth s.
Proof.
  unfold recountNaturalSize.
  destruct (naturalSize s) as [[[mw mh] e]| |]; cbn [obind]; try discriminate.
  intros H. inversion H. split; reflexivity.
Qed.

(** Two strings of the same content and style get the same sizes. *)
Lemma recountNaturalSize_same a b a' b' :
  recountNaturalSize a = Done a' -> recountNaturalSize b = Done b' ->
  _st a = _st b -> _text a = _text b -> _blocks a = _blocks b ->
  _extended a = _extended b -> _minResizeWidth a = _minResizeWidth b ->
  _startParagraphIndex a = _startParagraphIndex b ->
  _skipBlockAddedNewline a = _skipBlockAddedNewline b ->
  a' = b'.
Proof.
  intros Ha Hb Hst Ht Hbl Hext Hmr Hstart Hflag.
  destruct (recountNaturalSize_content a a' Ha) as (Ta & Ba & Fa & Sa & Ea & Pa).
  destruct (recountNaturalSize_content b b' Hb) as (Tb & Bb & Fb & Sb & Eb & Pb).
  destruct (recountNaturalSize_fields a a' Ha) as (Na & Ma).
  destruct (recountNaturalSize_fields b b' Hb) as (Nb & Mb).
  rewrite (naturalSize_same a b Hst Hext Hstart Hbl) in Na.
  rewrite Na in Nb. inversion Nb.
  apply String_eta; congruence.
Qed.

Lemma updateSkipBlock_frame s width height r s1 :
  updateSkipBlock s width height = Done (r, s1) ->
  _st s1 = _st s /\ _extended s1 = _extended s /\
  _minResizeWidth s1 = _minResizeWidth s /\
  _startParagraphIndex s1 = _startParagraphIndex s.
Proof.
  unfold updateSkipBlock.
  destruct (if hasSkipBlock s then back s else None) as [block|].
  - destruct (_ && _).
    + intros H. inversion H. repeat split.
    + match goal with
      | |- context [recountNaturalSize ?x] =>
          destruct (recountNaturalSize x) as [s'| |] eqn:E
      end; cbn [obind]; try discriminate.
      intros H. inversion H. subst.
      destruct (recountNaturalSize_content _ _ E) as (_ & _ & _ & S1 & E1 & P1).
      destruct (recountNaturalSize_fields _ _ E) as (_ & M1).
      rewrite S1, E1, M1, P1. repeat split.
  - destruct (_endsWithParagraphDetails s);
      match goal with
      | |- context [recountNaturalSize ?x] =>
          destruct (recountNaturalSize x) as [s'| |] eqn:E
      end; cbn [obind]; try discriminate;
      intros H; inversion H; subst;
      destruct (recountNaturalSize_content _ _ E) as (_ & _ & _ & S1 & E1 & P1);
      destruct (recountNaturalSize_fields _ _ E) as (_ & M1);
      rewrite S1, E1, M1, P1; repeat split.
Qed.

Lemma removeSkipBlock_recounts s1 s2 :
  removeSkipBlock s1 = Done (true, s2) ->
  exists pre,
    recountNaturalSize pre = Done s2 /\
    _st pre = _st s1 /\ _extended pre = _extended s1 /\
    _minResizeWidth pre = _minResizeWidth s1 /\
    _startParagraphIndex pre = _startParagraphIndex s1.
Proof.
  unfold removeSkipBlock.
  destruct (if hasSkipBlock s1 then back s1 else None) as [block|];
    [|discriminate].
  match goal with
  | |- context [recountNaturalSize ?x] =>
      destruct (recountNaturalSize x) as [s'| |] eqn:E
  end; cbn [obind]; try discriminate.
  intros H. inversion H. subst.
  eexists. split; [exact E|].
  destruct (_skipBlockAddedNewline s1); repeat split.
Qed.

(** X16. On a sized string without a skip block whose flag
    [_skipBlockAddedNewline] is clear, [removeSkipBlock] after
    [updateSkipBlock] gives back the very string. (With the flag left
    set by an earlier text the round trip loses a character, see
    C10.) *)
Theorem skip_block_round_trip (s s1 : String) (width height : Z) (r : bool) :
  sized s -> hasSkipBlock s = false -> _skipBlockAddedNewline s = false ->
  updateSkipBlock s width height = Done (r, s1) ->
  removeSkipBlock s1 = Done (true, s).
Proof.
  intros Hsized Hskip Hflag Hupdate.
  destruct (removeSkipBlock_undoes_update s width height r s1 Hskip Hflag
              Hupdate) as (s2 & Hremove & Ht & Hb & Hf).
  rewrite Hremove. f_equal. f_equal.
  destruct (removeSkipBlock_recounts s1 s2 Hremove)
    as (pre & Hpre & S1 & E1 & M1 & P1).
  destruct (updateSkipBlock_frame s width height r s1 Hupdate)
    as (S0 & E0 & M0 & P0).
  destruct (recountNaturalSize_content pre s2 Hpre)
    as (Tp & Bp & Fp & Sp & Ep & Pp).
  apply (recountNaturalSize_same pre s s2 s Hpre Hsized); congruence.
Qed.

Lemma skip_block_round_trip_witness :
  removeSkipBlock
    (mkString Sample.style (qstr "Hello_")
       [Sample.word 0 20; Block_Skip 5 10 5 0 0]
       None 0 30 16 0 false false)
  = Done (true,
          mkString Sample.style (qstr "Hello") [Sample.word 0 20] None 0 20
            16 0 false false).
Proof.
  apply (skip_block_round_trip
           (mkString Sample.style (qstr "Hello") [Sample.word 0 20] None 0
              20 16 0 false false)
           _ 10 5 true).
  - vm_compute. reflexivity.
  - reflexivity.
  - reflexivity.
  - vm_compute. reflexivity.
Defined.

Lemma QFixed_toInt_ofInt (i : Z) : QFixed_toInt (QFixed_ofInt i) = i.
Proof.
  unfold QFixed_toInt, QFixed_ofInt.
  rewrite land_minus64, Z.shiftr_div_pow2 by lia.
  change (2 ^ 6) with 64.
  assert (H : (i * 64 + 32) / 64 = i)
    by (symmetry; apply Z.div_unique with (r := 32); lia).
  rewrite H. symmetry. apply Z.div_unique with (r := 0); lia.
Qed.

(** X17. A second [updateSkipBlock] with the same size changes nothing
    and says so. *)
Theorem updateSkipBlock_again (s s1 : String) (width height : Z) (r : bool) :
  updateSkipBlock s width height = Done (r, s1) ->
  updateSkipBlock s1 width height = Done (false, s1).
Proof.
  intros H.
  assert (Hlast : r = false /\ s1 = s /\
                  (exists b, (if hasSkipBlock s then back s else None) = Some b
                             /\ (QFixed_toInt (b_width b) =? width)
                                && (b_height b =? height) = true)
                  \/ exists pos, back s1 = Some (Block_Skip pos width height 0 0)).
  { unfold updateSkipBlock in H.
    destruct (if hasSkipBlock s then back s else None) as [block|] eqn:Eb.
    - destruct (_ && _) eqn:Esame.
      + inversion H. subst. left. repeat split. exists block. split; auto.
      + match type of H with
        | context [recountNaturalSize ?x] =>
            destruct (recountNaturalSize x) as [s'| |] eqn:E
        end; cbn [obind] in H; try discriminate.
        inversion H. subst. right.
        destruct (recountNaturalSize_content _ _ E) as (_ & B1 & _).
        unfold back. rewrite B1. cbn [withContent _blocks].
        rewrite map_app. simpl. rewrite last_last. eexists. reflexivity.
    - destruct (_endsWithParagraphDetails s);
        match type of H with
        | context [recountNaturalSize ?x] =>
            destruct (recountNaturalSize x) as [s'| |] eqn:E
        end; cbn [obind] in H; try discriminate;
        inversion H; subst; right;
        destruct (recountNaturalSize_content _ _ E) as (_ & B1 & _);
        unfold back; rewrite B1; cbn [withContent _blocks];
        rewrite map_app; simpl; rewrite last_last; eexists; reflexivity. }
  destruct Hlast as [(-> & -> & b & Hb & Hsame)|[pos Hback]].
  - unfold updateSkipBlock. rewrite Hb, Hsame. reflexivity.
  - unfold updateSkipBlock, hasSkipBlock. rewrite Hback.
    cbn [Block_Skip b_type TextBlockType.eqb b_width b_height].
    rewrite QFixed_toInt_ofInt, !Z.eqb_refl. reflexivity.
Qed.

Lemma updateSkipBlock_again_witness :
  updateSkipBlock
    (mkString Sample.style (qstr "Hello_")
       [Sample.word 0 20; Block_Skip 5 10 5 0 0]
       None 0 30 16 0 false false) 10 5
  = Done (false,
          mkString Sample.style (qstr "Hello_")
            [Sample.word 0 20; Block_Skip 5 10 5 0 0]
            None 0 30 16 0 false false).
Proof.
  apply (updateSkipBlock_again
           (mkString Sample.style (qstr "Hello") [Sample.word 0 20] None 0
              20 16 0 false false)
           _ 10 5 true).
  vm_compute. reflexivity.
Defined.

(** ** The line geometry *)

(** The line that a layout of [SimpleGeometry] gives back. *)
Lemma SimpleGeometry_layout
    (availableWidth fontHeight elisionHeight elisionRemoveFromEnd : Z)
    (elisionOneLine elisionBreakEverywhere : bool) (line : LineGeometry) :
  layout (SimpleGeometry availableWidth fontHeight elisionHeight
            elisionRemoveFromEnd elisionOneLine elisionBreakEverywhere) line
  = mkLineGeometry (line_top line)
      (if elisionOneLine
          || (negb (elisionHeight =? 0)
              && (elisionHeight <? line_top line + fontHeight * 2))
       then availableWidth - elisionRemoveFromEnd else availableWidth)
      ((elisionOneLine
        || (negb (elisionHeight =? 0)
            && (elisionHeight <? line_top line + fontHeight * 2)))
       || line_elided line).
Proof.
  unfold SimpleGeometry.
  destruct elisionOneLine; cbn [negb andb orb].
  - reflexivity.
  - destruct (Z.eqb_spec elisionHeight 0); cbn [negb andb orb layout].
    + reflexivity.
    + destruct (Z.eqb_spec elisionRemoveFromEnd 0) as [->|];
        cbn [layout];
        destruct (elisionHeight <? line_top line + fontHeight * 2);
        cbn [orb]; rewrite ?Z.sub_0_r; reflexivity.
Qed.

(** X18. The four layouts of [SimpleGeometry] follow one rule. A line is
    cut when one line is asked for, or when an elision height is given
    and the line after it would end below that height; a cut line is
    marked elided and is narrower by [elisionRemoveFromEnd]. *)
Theorem SimpleGeometry_one_rule
    (availableWidth fontHeight elisionHeight elisionRemoveFromEnd : Z)
    (elisionOneLine elisionBreakEverywhere : bool) (line : LineGeometry) :
  let g := SimpleGeometry availableWidth fontHeight elisionHeight
             elisionRemoveFromEnd elisionOneLine elisionBreakEverywhere in
  let cut :=
    elisionOneLine
    || (negb (elisionHeight =? 0)
        && (elisionHeight <? line_top line + fontHeight * 2)) in
  layout g line
  = mkLineGeometry (line_top line)
      (if cut then availableWidth - elisionRemoveFromEnd else availableWidth)
      (cut || line_elided line) /\
  g_breakEverywhere g = elisionOneLine && elisionBreakEverywhere.
Proof.
  cbv zeta. split.
  - apply SimpleGeometry_layout.
  - unfold SimpleGeometry.
    destruct elisionOneLine; cbn [andb]; [reflexivity|].
    destruct (elisionHeight =? 0); [reflexivity|].
    destruct (elisionRemoveFromEnd =? 0); reflexivity.
Qed.

(** X19. A request for [n] lines of one height elides the lines from the
    [n]-th on, and no line when [n] is not positive; the elided lines
    leave [removeFromEnd] free. *)
Theorem getStateElided_elides_from_last_line (fontHeight width k : Z)
    (request : StateRequestElided) :
  0 < fontHeight -> 0 <= k ->
  let line :=
    layout (getStateElided_geometry fontHeight width request)
      (mkLineGeometry (k * fontHeight) 0 false) in
  line_elided line
  = (0 <? req_lines request) && (req_lines request - 1 <=? k) /\
  line_width line
  = (if line_elided line then width - req_removeFromEnd request else width).
Proof.
  intros Hfont Hk. cbv zeta. unfold getStateElided_geometry.
  rewrite SimpleGeometry_layout.
  cbn [line_elided line_width line_top].
  rewrite orb_false_r.
  set (cut := _ || _).
  assert (Hcut : cut = (0 <? req_lines request) && (req_lines request - 1 <=? k)).
  { unfold cut.
    destruct (Z.eqb_spec (req_lines request) 1) as [H1|H1].
    - rewrite H1. simpl. symmetry. apply Z.leb_le. lia.
    - destruct (Z.ltb_spec 1 (req_lines request)) as [Hn|Hn]; cbn [orb].
      + destruct (Z.eqb_spec (req_lines request * fontHeight) 0); [nia|].
        cbn [negb andb].
        destruct (Z.ltb_spec 0 (req_lines request)); [|lia]. cbn [andb].
        destruct (Z.ltb_spec (req_lines request * fontHeight)
                    (k * fontHeight + fontHeight * 2));
          destruct (Z.leb_spec (req_lines request - 1) k);
          try reflexivity; nia.
      + simpl. destruct (Z.ltb_spec 0 (req_lines request)); [lia|].
        reflexivity. }
  rewrite Hcut. split; reflexivity.
Qed.

Lemma getStateElided_elides_from_last_line_witness :
  let line :=
    layout (getStateElided_geometry 16 100 (mkStateRequestElided 3 10 false))
      (mkLineGeometry (2 * 16) 0 false) in
  line_elided line = (0 <? 3) && (3 - 1 <=? 2) /\
  line_width line = (if line_elided line then 100 - 10 else 100).
Proof.
  apply (getStateElided_elides_from_last_line 16 100 2
           (mkStateRequestElided 3 10 false)); lia.
Defined.

(** ** The spoiler cache *)

Lemma find_Some c cache i :
  SpoilerMessCache.find c cache = Some i ->
  exists e, nth_error cache i = Some e /\ SpoilerMessCache.color e = c.
Proof.
  revert i. induction cache as [|e rest IH]; intros i H; [discriminate|].
  cbn [SpoilerMessCache.find] in H.
  destruct (Z.eqb_spec (SpoilerMessCache.color e) c) as [Heq|Hne].
  - inversion H. subst. exists e. split; reflexivity.
  - destruct (SpoilerMessCache.find c rest) as [k|]; [|discriminate].
    inversion H. subst. destruct (IH k eq_refl) as (e' & H1 & H2).
    exists e'. split; assumption.
Qed.

Lemma find_None c cache :
  SpoilerMessCache.find c cache = None ->
  ~ In c (map SpoilerMessCache.color cache).
Proof.
  induction cache as [|e rest IH]; intros H; [intros []|].
  cbn [SpoilerMessCache.find] in H.
  destruct (Z.eqb_spec (SpoilerMessCache.color e) c) as [Heq|Hne];
    [discriminate|].
  destruct (SpoilerMessCache.find c rest); [discriminate|].
  intros [Hin|Hin]; [contradiction | now apply IH].
Qed.

Lemma find_snoc c cache e :
  SpoilerMessCache.find c cache = None -> SpoilerMessCache.color e = c ->
  SpoilerMessCache.find c (cache ++ [e]) = Some (List.length cache).
Proof.
  intros Hnone He. induction cache as [|x rest IH].
  - simpl. rewrite He, Z.eqb_refl. reflexivity.
  - cbn [SpoilerMessCache.find app] in *.
    destruct (SpoilerMessCache.color x =? c); [discriminate|].
    destruct (SpoilerMessCache.find c rest); [discriminate|].
    rewrite IH by reflexivity. reflexivity.
Qed.

Lemma lookup_stable (c c' : SpoilerMessCache.t) (col : QColor) (i : nat) :
  SpoilerMessCache.lookup c col = Done (i, c') ->
  SpoilerMessCache.lookup c' col = Done (i, c').
Proof.
  intros H. unfold SpoilerMessCache.lookup in *.
  destruct (SpoilerMessCache.find col (SpoilerMessCache._cache c)) as [k|]
    eqn:Efind.
  - inversion H. subst. rewrite Efind. reflexivity.
  - destruct (_ <? _); [|discriminate].
    inversion H. subst. clear H. cbn [SpoilerMessCache._cache].
    rewrite (find_snoc col _ (SpoilerMessCache.mkEntry
                                (mkSpoilerMessCached col) col) Efind eq_refl).
    reflexivity.
Qed.

(** X20. [lookup] hands out the entry of the colour, with the frames of
    that colour; it keeps the cache in order, every entry that it handed
    out before stays where it is, and looking the colour up again gives
    the same entry and changes nothing. *)
Theorem SpoilerMessCache_lookup_serves (c c' : SpoilerMessCache.t)
    (col : QColor) (i : nat) :
  cacheOk c ->
  SpoilerMessCache.lookup c col = Done (i, c') ->
  cacheOk c' /\
  nth_error (SpoilerMessCache._cache c') i
  = Some (SpoilerMessCache.mkEntry (mkSpoilerMessCached col) col) /\
  (exists more,
     SpoilerMessCache._cache c'
     = SpoilerMessCache._cache c ++ more) /\
  SpoilerMessCache._capacity c' = SpoilerMessCache._capacity c /\
  SpoilerMessCache.lookup c' col = Done (i, c').
Proof.
  intros (Hdup & Hcap & Hmess) H.
  pose proof (lookup_stable c c' col i H) as Hagain.
  unfold SpoilerMessCache.lookup in H.
  destruct (SpoilerMessCache.find col (SpoilerMessCache._cache c)) as [k|]
    eqn:Efind.
  - inversion H. subst. clear H.
    destruct (find_Some _ _ _ Efind) as (e & Hnth & Hcol).
    split; [repeat split; assumption|]. split.
    + rewrite Hnth. f_equal.
      rewrite Forall_forall in Hmess.
      specialize (Hmess e (nth_error_In _ _ Hnth)).
      destruct e as [m cl]. simpl in *. subst. reflexivity.
    + split; [exists []; now rewrite app_nil_r|].
      split; [reflexivity | exact Hagain].
  - destruct (Z.ltb_spec (Z.of_nat (List.length (SpoilerMessCache._cache c)))
                (SpoilerMessCache._capacity c)); [|discriminate].
    inversion H. subst. clear H. unfold cacheOk.
    split; [|split; [|split; [|split; [|exact Hagain]]]];
      cbn [SpoilerMessCache._cache SpoilerMessCache._capacity].
    + split; [|split].
      * rewrite map_app. simpl.
        apply find_None in Efind.
        apply NoDup_app; auto.
        -- repeat constructor. intros [].
        -- intros x Hx [Hy|[]]. subst. contradiction.
      * rewrite length_app. simpl. lia.
      * apply Forall_app. split; [exact Hmess|]. repeat constructor.
    + rewrite nth_error_app2 by lia. rewrite Nat.sub_diag. reflexivity.
    + eexists. reflexivity.
    + reflexivity.
Qed.

Lemma lookupAll_serves palette :
  forall colors c,
    incl colors palette ->
    Z.of_nat (List.length palette) <= SpoilerMessCache._capacity c ->
    NoDup (map SpoilerMessCache.color (SpoilerMessCache._cache c)) ->
    incl (map SpoilerMessCache.color (SpoilerMessCache._cache c)) palette ->
    exists c', lookupAll c colors = Done c'.
Proof.
  induction colors as [|col rest IH]; intros c Hin Hcap Hdup Hsub.
  - exists c. reflexivity.
  - cbn [lookupAll]. unfold SpoilerMessCache.lookup.
    assert (Hrest : incl rest palette)
      by (intros x Hx; apply Hin; now right).
    destruct (SpoilerMessCache.find col (SpoilerMessCache._cache c)) as [k|]
      eqn:Efind.
    + cbn [obind snd]. apply IH; assumption.
    + apply find_None in Efind.
      assert (Hlen : (List.length
                        (col :: map SpoilerMessCache.color
                                  (SpoilerMessCache._cache c))
                      <= List.length palette)%nat).
      { apply NoDup_incl_length.
        - constructor; assumption.
        - intros x [<-|Hx]; [apply Hin; now left | now apply Hsub]. }
      simpl in Hlen. rewrite length_map in Hlen.
      destruct (Z.ltb_spec (Z.of_nat (List.length (SpoilerMessCache._cache c)))
                  (SpoilerMessCache._capacity c)); [|lia].
      cbn [obind snd].
      apply IH; cbn [SpoilerMessCache._cache SpoilerMessCache._capacity];
        [exact Hrest | exact Hcap | |].
      * rewrite map_app. simpl. apply NoDup_app; auto.
        -- repeat constructor. intros [].
        -- intros x Hx [Hy|[]]. subst. contradiction.
      * rewrite map_app. simpl. apply incl_app; [exact Hsub|].
        intros x [<-|[]]. apply Hin. now left.
Qed.

(** X21. A new or reset cache serves any sequence of lookups whose
    colours come from a palette of at most [capacity] colours. *)
Theorem SpoilerMessCache_serves_capacity_colors (capacity : Z)
    (palette colors : list QColor) (c : SpoilerMessCache.t) :
  SpoilerMessCache.create capacity = Done c ->
  incl colors palette -> Z.of_nat (List.length palette) <= capacity ->
  (exists c', lookupAll c colors = Done c') /\
  (forall c1, lookupAll c colors = Done c1 ->
              exists c', lookupAll (SpoilerMessCache.reset c1) colors
                         = Done c').
Proof.
  intros Hc Hin Hcap. unfold SpoilerMessCache.create in Hc.
  destruct (0 <? capacity); [|discriminate]. inversion Hc. subst. clear Hc.
  split.
  - apply (lookupAll_serves palette); simpl; auto.
    + constructor.
    + intros x [].
  - intros c1 H1.
    assert (Hsame : forall colors c c1,
               lookupAll c colors = Done c1 ->
               SpoilerMessCache._capacity c1 = SpoilerMessCache._capacity c).
    { clear. induction colors as [|col rest IH]; intros c c1 H.
      - inversion H. reflexivity.
      - cbn [lookupAll] in H. unfold SpoilerMessCache.lookup in H.
        destruct (SpoilerMessCache.find col _).
        + cbn [obind snd] in H. now apply IH.
        + destruct (_ <? _); [|discriminate]. cbn [obind snd] in H.
          apply IH in H. exact H. }
    apply Hsame in H1. simpl in H1.
    apply (lookupAll_serves palette); unfold SpoilerMessCache.reset; simpl;
      auto.
    + lia.
    + constructor.
    + intros x [].
Qed.

Lemma SpoilerMessCache_lookup_serves_witness :
  cacheOk (SpoilerMessCache.mk
             [SpoilerMessCache.mkEntry (mkSpoilerMessCached 7) 7;
              SpoilerMessCache.mkEntry (mkSpoilerMessCached 9) 9] 2) /\
  nth_error
    (SpoilerMessCache._cache
       (SpoilerMessCache.mk
          [SpoilerMessCache.mkEntry (mkSpoilerMessCached 7) 7;
           SpoilerMessCache.mkEntry (mkSpoilerMessCached 9) 9] 2)) 1
  = Some (SpoilerMessCache.mkEntry (mkSpoilerMessCached 9) 9) /\
  (exists more,
     SpoilerMessCache._cache
       (SpoilerMessCache.mk
          [SpoilerMessCache.mkEntry (mkSpoilerMessCached 7) 7;
           SpoilerMessCache.mkEntry (mkSpoilerMessCached 9) 9] 2)
     = SpoilerMessCache._cache
         (SpoilerMessCache.mk
            [SpoilerMessCache.mkEntry (mkSpoilerMessCached 7) 7] 2)
       ++ more) /\
  SpoilerMessCache._capacity
    (SpoilerMessCache.mk
       [SpoilerMessCache.mkEntry (mkSpoilerMessCached 7) 7;
        SpoilerMessCache.mkEntry (mkSpoilerMessCached 9) 9] 2)
  = SpoilerMessCache._capacity
      (SpoilerMessCache.mk
         [SpoilerMessCache.mkEntry (mkSpoilerMessCached 7) 7] 2) /\
  SpoilerMessCache.lookup
    (SpoilerMessCache.mk
       [SpoilerMessCache.mkEntry (mkSpoilerMessCached 7) 7;
        SpoilerMessCache.mkEntry (mkSpoilerMessCached 9) 9] 2) 9
  = Done (1%nat,
          SpoilerMessCache.mk
            [SpoilerMessCache.mkEntry (mkSpoilerMessCached 7) 7;
             SpoilerMessCache.mkEntry (mkSpoilerMessCached 9) 9] 2).
Proof.
  apply (SpoilerMessCache_lookup_serves
           (SpoilerMessCache.mk
              [SpoilerMessCache.mkEntry (mkSpoilerMessCached 7) 7] 2)
           _ 9 1%nat).
  - unfold cacheOk. simpl. split; [|split].
    + constructor; [intros [] | constructor].
    + lia.
    + repeat constructor.
  - vm_compute. reflexivity.
Defined.

Lemma SpoilerMessCache_serves_capacity_colors_witness :
  (exists c', lookupAll (SpoilerMessCache.mk [] 2) [7; 9; 7; 9; 9] = Done c') /\
  (forall c1,
     lookupAll (SpoilerMessCache.mk [] 2) [7; 9; 7; 9; 9] = Done c1 ->
     exists c', lookupAll (SpoilerMessCache.reset c1) [7; 9; 7; 9; 9]
                = Done c').
Proof.
  apply (SpoilerMessCache_serves_capacity_colors 2 [7; 9] [7; 9; 7; 9; 9]
           (SpoilerMessCache.mk [] 2)).
  - reflexivity.
  - intros x Hx. simpl in *. intuition.
  - simpl. lia.
Defined.

(** A third colour does not fit a cache of capacity 2. *)
Example SpoilerMessCache_full :
  lookupAll (SpoilerMessCache.mk [] 2) [7; 9; 8] = ExpectsViolated.
Proof. reflexivity. Qed.

(** ** Setting a link *)

Lemma assign_nth {A : Type} (v : list A) (i : nat) (x d : A) (j : nat) :
  (i < List.length v)%nat ->
  nth j (assign v i x) d = if (j =? i)%nat then x else nth j v d.
Proof.
  revert i j. induction v as [|y rest IH]; intros i j Hi; [simpl in Hi; lia|].
  destruct i as [|i]; destruct j as [|j]; simpl; try reflexivity.
  apply IH. simpl in Hi. lia.
Qed.

(** X22. [setLink] changes the handler of the one link it is given when
    the table has a slot for it, and nothing else; without a slot
    (index 0, an index behind the table, no table) it changes
    nothing. *)
Theorem setLink_then_linkAt (s : String) (index : Z)
    (link : option ClickHandler) (j : Z) :
  linkAt (setLink s index link) j
  = (if (j =? index) && linkSlot s index then link else linkAt s j) /\
  _text (setLink s index link) = _text s /\
  _blocks (setLink s index link) = _blocks s /\
  (linkSlot s index = false -> setLink s index link = s).
Proof.
  unfold setLink, linkSlot, linkAt.
  destruct (_extended s) as [extended|] eqn:Eext.
  2:{ rewrite Eext, andb_false_r. repeat split; reflexivity. }
  destruct (Z.ltb_spec 0 index) as [Hpos|Hneg]; cbn [andb].
  2:{ rewrite Eext, andb_false_r. repeat split; reflexivity. }
  destruct (Z.leb_spec index (Z.of_nat (List.length (links extended))))
    as [Hin|Hout].
  2:{ rewrite Eext, andb_false_r. repeat split; reflexivity. }
  cbn [_extended _text _blocks links]. rewrite andb_true_r.
  split; [|repeat split; discriminate].
  destruct (Z.leb_spec 1 j) as [Hj|Hj].
  - rewrite assign_nth by lia.
    destruct (Z.eqb_spec j index) as [->|Hne].
    + rewrite Nat.eqb_refl. reflexivity.
    + destruct (Nat.eqb_spec (Z.to_nat (j - 1)) (Z.to_nat (index - 1)));
        [lia | reflexivity].
  - destruct (Z.eqb_spec j index); [lia | reflexivity].
Qed.

(** ** More on the character classes *)

(** X23. A newline is never bad and never replaced by a space, and it
    ends a link. *)
Theorem newline_is_kept (isMac : bool) (ch : QChar) :
  IsNewline ch = true ->
  IsBad isMac ch = false /\ IsReplacedBySpace ch = false /\
  IsLinkEnd isMac ch = true.
Proof.
  unfold IsNewline, LineFeed. intros H.
  apply orb_true_iff in H. destruct H as [H|H]; apply Z.eqb_eq in H; subst;
    destruct isMac; repeat split; reflexivity.
Qed.

Lemma newline_is_kept_witness :
  IsBad false 156 = false /\ IsReplacedBySpace 156 = false /\
  IsLinkEnd false 156 = true.
Proof. apply (newline_is_kept false 156). reflexivity. Defined.

(** X24. A character that almost ends a link is a word separator, but it
    neither ends a link nor is trimmed. *)
Theorem almost_link_end_is_separator (isMac : bool) (ch : QChar) :
  IsAlmostLinkEnd ch = true ->
  IsWordSeparator ch = true /\ IsLinkEnd isMac ch = false /\
  IsTrimmed isMac ch = false.
Proof.
  unfold IsAlmostLinkEnd. cbn [existsb]. intros H.
  repeat (apply orb_true_iff in H; destruct H as [H|H]);
    try discriminate; apply Z.eqb_eq in H; subst;
    destruct isMac; repeat split; reflexivity.
Qed.

Lemma almost_link_end_is_separator_witness :
  IsWordSeparator 46 = true /\ IsLinkEnd true 46 = false /\
  IsTrimmed true 46 = false.
Proof. apply (almost_link_end_is_separator true 46). reflexivity. Defined.

(** ** Painting a framed paragraph *)

Ltac split_comparison :=
  match goal with
  | |- context [?a <=? ?b] => destruct (Z.leb_spec a b)
  | |- context [?a <? ?b] => destruct (Z.ltb_spec a b)
  | |- context [?a =? ?b] => destruct (Z.eqb_spec a b)
  end; cbn [andb orb negb app paintCount paintTarget Nat.add]; try lia.

(** X25. [FillBlockPaint] paints every pixel of the rectangle once, and
    no pixel outside it. *)
Theorem FillBlockPaint_paints_each_pixel_once (lineWidth : Z) (rect : QRect)
    (cache : BlockPaintCache) (st : ParagraphPaint)
    (parts : SkipBlockPaintParts) (px py : Z) :
  0 <= cornerHalf lineWidth (cache_corners cache) ->
  2 * cornerHalf lineWidth (cache_corners cache) <= r_width rect ->
  0 <= r_height rect ->
  0 <= header (paint_style st) ->
  0 <= paint_outline st <= r_width rect ->
  paintCount (FillBlockPaint lineWidth rect cache st parts) px py
  = if inRect rect px py then 1%nat else 0%nat.
Proof.
  unfold cornerHalf, FillBlockPaint. cbv zeta.
  generalize (Z.quot
                (Z.quot (image_height (cache_corners cache))
                   (image_devicePixelRatio (cache_corners cache))
                 - lineWidth) 2).
  generalize (Z.quot (image_width (cache_corners cache))
                (image_devicePixelRatio (cache_corners cache))).
  generalize (Z.quot (image_height (cache_corners cache))
                (image_devicePixelRatio (cache_corners cache))).
  generalize (image_devicePixelRatio (cache_corners cache)).
  generalize (header (paint_style st)) (paint_outline st).
  generalize (cache_header cache) (cache_bg cache) (cache_outline cache).
  intros ch cb co hd ol ratio iheight iwidth ihalf Hhalf Hwide Hheight Hhd Hol.
  destruct rect as [x y w h]. destruct parts as [st_ sb_].
  cbn [r_left r_top r_width r_height skipTop skipBottom] in *.
  assert (Hmin1 : Z.min h ihalf = h /\ h <= ihalf \/
                  Z.min h ihalf = ihalf /\ ihalf < h) by lia.
  destruct Hmin1 as [[-> Hm1]|[-> Hm1]];
    destruct st_, sb_; cbn [negb andb];
    repeat match goal with
           | |- context [Z.min ?a ?b] =>
               let H := fresh in
               assert (H : Z.min a b = a /\ a <= b \/ Z.min a b = b /\ b < a)
                 by lia;
               destruct H as [[-> ?]|[-> ?]]
           end;
    cbn [negb paintCount paintTarget app];
    repeat split_comparison;
    unfold inRect; cbn [r_left r_top r_width r_height];
    repeat split_comparison.
Qed.

Lemma FillBlockPaint_paints_each_pixel_once_witness :
  paintCount
    (FillBlockPaint 1 (mkQRect 10 20 100 50)
       (ValidateBlockPaintCache 1 2 (freshCache 1 2 3 4)
          (mkParagraphPaint Sample.framing 6 3 None (0, 0)))
       (mkParagraphPaint Sample.framing 6 3 None (0, 0))
       (mkSkipBlockPaintParts false false)) 12 69
  = if inRect (mkQRect 10 20 100 50) 12 69 then 1%nat else 0%nat.
Proof.
  apply (FillBlockPaint_paints_each_pixel_once 1 (mkQRect 10 20 100 50)
           (ValidateBlockPaintCache 1 2 (freshCache 1 2 3 4)
              (mkParagraphPaint Sample.framing 6 3 None (0, 0)))
           (mkParagraphPaint Sample.framing 6 3 None (0, 0))
           (mkSkipBlockPaintParts false false) 12 69);
    vm_compute; try split; discriminate.
Defined.

Lemma cornerSize_header st : header (paint_style st) <= cornerSize st.
Proof. unfold cornerSize. lia. Qed.

Lemma validated_corners lineWidth ratio bg outline header_ icon st :
  0 < ratio -> 0 < lineWidth -> 0 <= header (paint_style st) ->
  let cache :=
    ValidateBlockPaintCache lineWidth ratio
      (freshCache bg outline header_ icon) st in
  image_null (cache_corners cache) = false /\
  image_width (cache_corners cache) = (2 * cornerSize st + lineWidth) * ratio /\
  image_height (cache_corners cache)
  = (2 * cornerSize st + lineWidth) * ratio /\
  image_devicePixelRatio (cache_corners cache) = ratio.
Proof.
  intros Hratio Hline Hheader. cbv zeta.
  pose proof (cornerSize_header st) as Hcorner.
  unfold ValidateBlockPaintCache, freshCache, blockPaintCacheValid.
  cbn [cache_corners QImage_null image_null negb andb].
  unfold QImage_sized.
  destruct (Z.ltb_spec 0 ((2 * cornerSize st + lineWidth) * ratio)); [|nia].
  cbn [andb image_null image_width image_height image_devicePixelRatio
       cache_corners].
  repeat split; reflexivity.
Qed.

(** X26. With a cache that [ValidateBlockPaintCache] has just painted,
    the corner pieces of [FillBlockPaint] have the corner size of the
    style, and every copy takes its pixels from inside the image, at the
    scale of the image. *)
Theorem FillBlockPaint_copies_inside_image (lineWidth ratio : Z)
    (bg outline header_ icon : QColor) (st : ParagraphPaint) (rect : QRect)
    (parts : SkipBlockPaintParts) :
  0 < ratio -> 0 < lineWidth -> 0 <= header (paint_style st) ->
  0 <= r_height rect ->
  let cache :=
    ValidateBlockPaintCache lineWidth ratio
      (freshCache bg outline header_ icon) st in
  cornerHalf lineWidth (cache_corners cache) = cornerSize st /\
  Forall (copyInside (cache_corners cache))
    (FillBlockPaint lineWidth rect cache st parts).
Proof.
  intros Hratio Hline Hheader Hheight. cbv zeta.
  destruct (validated_corners lineWidth ratio bg outline header_ icon st
              Hratio Hline Hheader) as (_ & Hw & Hh & Hr).
  pose proof (cornerSize_header st) as Hcorner.
  set (cache := ValidateBlockPaintCache _ _ _ _) in *.
  assert (Hside : Z.quot ((2 * cornerSize st + lineWidth) * ratio) ratio
                  = 2 * cornerSize st + lineWidth)
    by (apply Z.quot_mul; lia).
  assert (Hhalf : Z.quot (2 * cornerSize st + lineWidth - lineWidth) 2
                  = cornerSize st).
  { replace (2 * cornerSize st + lineWidth - lineWidth)
      with (cornerSize st * 2) by lia.
    apply Z.quot_mul. lia. }
  split.
  - unfold cornerHalf. rewrite Hh, Hr, Hside. exact Hhalf.
  - unfold FillBlockPaint. cbv zeta. rewrite Hw, Hh, Hr, Hside, Hhalf.
    clearbody cache. clear Hside Hhalf.
    set (corner := cornerSize st) in *. clearbody corner.
    set (hd := header (paint_style st)) in *. clearbody hd.
    destruct rect as [x y w h]. destruct parts as [st_ sb_].
    cbn [r_left r_top r_width r_height skipTop skipBottom] in *.
    assert (Hin : forall tx ty part sx sy,
               0 <= part <= corner -> 0 <= sx -> 0 <= sy ->
               sx + corner <= 2 * corner + lineWidth ->
               sy + part <= 2 * corner + lineWidth ->
               copyInside (cache_corners cache)
                 (DrawImage (mkQRect tx ty corner part)
                    (mkQRect (sx * ratio) (sy * ratio) (corner * ratio)
                       (part * ratio)))).
    { intros tx ty part sx sy Hp Hsx Hsy Hx Hy.
      unfold copyInside. cbn [r_left r_top r_width r_height].
      rewrite Hw, Hh, Hr.
      assert (0 <= corner) by lia.
      repeat split; try reflexivity;
        try (apply Z.mul_nonneg_nonneg; lia).
      - rewrite <- Z.mul_add_distr_r.
        apply Z.mul_le_mono_nonneg_r; lia.
      - rewrite <- Z.mul_add_distr_r.
        apply Z.mul_le_mono_nonneg_r; lia. }
    assert (Hin0 : forall tx ty part,
               0 <= part <= corner ->
               copyInside (cache_corners cache)
                 (DrawImage (mkQRect tx ty corner part)
                    (mkQRect 0 0 (corner * ratio) (part * ratio)))).
    { intros. apply (Hin tx ty part 0 0); lia. }
    assert (Hin1 : forall tx ty part,
               0 <= part <= corner ->
               copyInside (cache_corners cache)
                 (DrawImage (mkQRect tx ty corner part)
                    (mkQRect ((2 * corner + lineWidth - corner) * ratio) 0
                       (corner * ratio) (part * ratio)))).
    { intros. apply (Hin tx ty part (2 * corner + lineWidth - corner) 0);
        lia. }
    assert (Hin2 : forall tx ty part,
               0 <= part <= corner ->
               copyInside (cache_corners cache)
                 (DrawImage (mkQRect tx ty corner part)
                    (mkQRect 0 ((2 * corner + lineWidth - part) * ratio)
                       (corner * ratio) (part * ratio)))).
    { intros. apply (Hin tx ty part 0 (2 * corner + lineWidth - part));
        lia. }
    assert (Hin3 : forall tx ty part,
               0 <= part <= corner ->
               copyInside (cache_corners cache)
                 (DrawImage (mkQRect tx ty corner part)
                    (mkQRect ((2 * corner + lineWidth - corner) * ratio)
                       ((2 * corner + lineWidth - part) * ratio)
                       (corner * ratio) (part * ratio)))).
    { intros.
      apply (Hin tx ty part (2 * corner + lineWidth - corner)
               (2 * corner + lineWidth - part)); lia. }
    destruct st_, sb_; cbn [negb andb];
      repeat match goal with
             | |- context [if ?c then _ else _] => destruct c
             end;
      repeat (apply Forall_app; split);
      repeat (apply Forall_cons); try apply Forall_nil;
      try exact I;
      try (apply Hin0; lia); try (apply Hin1; lia);
      try (apply Hin2; lia); try (apply Hin3; lia).
Qed.

Lemma FillBlockPaint_copies_inside_image_witness :
  let cache :=
    ValidateBlockPaintCache 1 2 (freshCache 1 2 3 4)
      (mkParagraphPaint Sample.framing 6 3 None (0, 0)) in
  cornerHalf 1 (cache_corners cache)
  = cornerSize (mkParagraphPaint Sample.framing 6 3 None (0, 0)) /\
  Forall (copyInside (cache_corners cache))
    (FillBlockPaint 1 (mkQRect 10 20 100 50) cache
       (mkParagraphPaint Sample.framing 6 3 None (0, 0))
       (mkSkipBlockPaintParts false false)).
Proof.
  apply (FillBlockPaint_copies_inside_image 1 2 1 2 3 4
           (mkParagraphPaint Sample.framing 6 3 None (0, 0))
           (mkQRect 10 20 100 50) (mkSkipBlockPaintParts false false));
    vm_compute; try reflexivity; discriminate.
Defined.

(** X27. A cache that [ValidateBlockPaintCache] has gone through is valid
    for the style, so that a second call returns at once; it becomes
    invalid when the background colour changes. *)
Theorem ValidateBlockPaintCache_validates (lineWidth ratio : Z)
    (cache : BlockPaintCache) (st : ParagraphPaint) :
  0 < (2 * cornerSize st + lineWidth) * ratio ->
  let cache' := ValidateBlockPaintCache lineWidth ratio cache st in
  blockPaintCacheValid cache' st = true /\
  ValidateBlockPaintCache lineWidth ratio cache' st = cache' /\
  (forall bg,
     bg <> cache_bg cache ->
     blockPaintCacheValid
       (mkBlockPaintCache bg (cache_outline cache') (cache_header cache')
          (cache_icon cache') (cache_bgCached cache')
          (cache_outlineCached cache') (cache_headerCached cache')
          (cache_iconCached cache') (cache_corners cache')) st = false).
Proof.
  intros Hside. cbv zeta.
  assert (Hvalid : blockPaintCacheValid
                     (ValidateBlockPaintCache lineWidth ratio cache st) st
                   = true).
  { unfold ValidateBlockPaintCache.
    destruct (blockPaintCacheValid cache st) eqn:E; [exact E|].
    unfold blockPaintCacheValid, QImage_sized.
    destruct (Z.ltb_spec 0 ((2 * cornerSize st + lineWidth) * ratio)); [|lia].
    cbn [andb image_null cache_corners cache_bgCached cache_bg
         cache_outlineCached cache_outline cache_headerCached cache_header
         cache_iconCached cache_icon negb].
    rewrite !Z.eqb_refl. cbn [andb].
    destruct (header (paint_style st) =? 0); cbn [negb orb andb];
      rewrite ?Z.eqb_refl; cbn [andb];
      destruct (paint_icon st); cbn [orb]; rewrite ?Z.eqb_refl; reflexivity. }
  split; [exact Hvalid|]. split.
  - unfold ValidateBlockPaintCache at 1. rewrite Hvalid. reflexivity.
  - intros bg Hbg.
    assert (Hcached : cache_bgCached
                        (ValidateBlockPaintCache lineWidth ratio cache st)
                      = cache_bg cache).
    { unfold ValidateBlockPaintCache.
      destruct (blockPaintCacheValid cache st) eqn:E; [|reflexivity].
      unfold blockPaintCacheValid in E.
      repeat (apply andb_true_iff in E; destruct E as [E ?]).
      apply Z.eqb_eq. assumption. }
    unfold blockPaintCacheValid.
    cbn [cache_bgCached cache_bg cache_corners]. rewrite Hcached.
    destruct (Z.eqb_spec (cache_bg cache) bg); [congruence|].
    rewrite andb_false_r. reflexivity.
Qed.

Lemma ValidateBlockPaintCache_validates_witness :
  let cache' :=
    ValidateBlockPaintCache 1 2 (freshCache 1 2 3 4)
      (mkParagraphPaint Sample.framing 6 3 None (0, 0)) in
  blockPaintCacheValid cache'
    (mkParagraphPaint Sample.framing 6 3 None (0, 0)) = true /\
  ValidateBlockPaintCache 1 2 cache'
    (mkParagraphPaint Sample.framing 6 3 None (0, 0)) = cache' /\
  (forall bg,
     bg <> cache_bg (freshCache 1 2 3 4) ->
     blockPaintCacheValid
       (mkBlockPaintCache bg (cache_outline cache') (cache_header cache')
          (cache_icon cache') (cache_bgCached cache')
          (cache_outlineCached cache') (cache_headerCached cache')
          (cache_iconCached cache') (cache_corners cache'))
       (mkParagraphPaint Sample.framing 6 3 None (0, 0)) = false).
Proof.
  apply (ValidateBlockPaintCache_validates 1 2 (freshCache 1 2 3 4)
           (mkParagraphPaint Sample.framing 6 3 None (0, 0))).
  vm_compute. reflexivity.
Defined.

(** ** The direction of a paragraph *)

Lemma firstn_skipn_cons (str : QString) (p : nat) (n : nat) :
  (p < List.length str)%nat ->
  firstn (S n) (skipn p str) = nth p str 0 :: firstn n (skipn (S p) str).
Proof.
  revert p. induction str as [|c str IH]; intros p Hp; [simpl in Hp; lia|].
  destruct p as [|p]; [reflexivity|].
  cbn [skipn nth]. apply IH. simpl in Hp. lia.
Qed.

Lemma StringDirectionLoop_points direction (str : QString) :
  forall fuel n p,
    (n <= fuel)%nat -> 0 <= p -> p + Z.of_nat n <= size str ->
    StringDirectionLoop direction fuel str p (p + Z.of_nat n)
    = firstStrong direction (codePoints (firstn n (skipn (Z.to_nat p) str))).
Proof.
  induction fuel as [|fuel IH]; intros n p Hn Hp Hend.
  - assert (n = 0%nat) by lia. subst. reflexivity.
  - cbn [StringDirectionLoop].
    destruct n as [|n].
    { destruct (Z.ltb_spec p (p + Z.of_nat 0)); [lia | reflexivity]. }
    destruct (Z.ltb_spec p (p + Z.of_nat (S n))); [|lia].
    unfold size in Hend.
    rewrite firstn_skipn_cons by lia.
    fold (at_ str p).
    replace (S (Z.to_nat p)) with (Z.to_nat (p + 1)) by lia.
    destruct n as [|n].
    + (* the last unit of the range *)
      destruct (Z.ltb_spec p (p + Z.of_nat 1 - 1)); [lia|].
      rewrite andb_false_r. cbn [firstn codePoints firstStrong].
      replace (p + Z.of_nat 1) with (p + 1 + Z.of_nat 0) by lia.
      rewrite (IH 0%nat (p + 1)) by (unfold size; lia).
      destruct (direction (at_ str p)); reflexivity.
    + destruct (Z.ltb_spec p (p + Z.of_nat (S (S n)) - 1)); [|lia].
      rewrite andb_true_r.
      rewrite firstn_skipn_cons by lia.
      replace (nth (Z.to_nat (p + 1)) str 0) with (at_ str (p + 1))
        by reflexivity.
      replace (S (Z.to_nat (p + 1))) with (Z.to_nat (p + 1 + 1)) by lia.
      cbn [codePoints].
      destruct (isHighSurrogate (at_ str p)) eqn:Ehigh; cbn [andb].
      * destruct (isLowSurrogate (at_ str (p + 1))) eqn:Elow.
        -- cbn [firstStrong].
           replace (p + Z.of_nat (S (S n))) with (p + 1 + 1 + Z.of_nat n)
             by lia.
           rewrite (IH n (p + 1 + 1)) by (unfold size; lia).
           reflexivity.
        -- cbn [firstStrong].
           replace (p + Z.of_nat (S (S n))) with (p + 1 + Z.of_nat (S n))
             by lia.
           rewrite (IH (S n) (p + 1)) by (unfold size; lia).
           rewrite firstn_skipn_cons by lia.
           replace (S (Z.to_nat (p + 1))) with (Z.to_nat (p + 1 + 1)) by lia.
           reflexivity.
      * cbn [firstStrong].
        replace (p + Z.of_nat (S (S n))) with (p + 1 + Z.of_nat (S n))
          by lia.
        rewrite (IH (S n) (p + 1)) by (unfold size; lia).
        rewrite firstn_skipn_cons by lia.
        replace (S (Z.to_nat (p + 1))) with (Z.to_nat (p + 1 + 1)) by lia.
        reflexivity.
Qed.

(** X28. [StringDirection] gives the direction of the first strong
    character among the code points of [from, to), and reads nothing
    outside the range: a high surrogate at its end is not paired with the
    unit behind it. *)
Theorem StringDirection_first_strong direction (str : QString) (from to : Z) :
  0 <= from -> from <= to -> to <= size str ->
  StringDirection direction str from to
  = firstStrong direction (codePoints (StringViewMid str from (to - from))).
Proof.
  intros Hfrom Hle Hto. unfold StringDirection, StringViewMid.
  replace to with (from + Z.of_nat (Z.to_nat (to - from))) at 2 by lia.
  apply StringDirectionLoop_points; lia.
Qed.

Lemma StringDirection_first_strong_witness :
  StringDirection MoreSamples.direction [32; 1488; 97; 55357; 56832] 0 4
  = firstStrong MoreSamples.direction
      (codePoints (StringViewMid [32; 1488; 97; 55357; 56832] 0 (4 - 0))).
Proof.
  apply (StringDirection_first_strong MoreSamples.direction
           [32; 1488; 97; 55357; 56832] 0 4); vm_compute; discriminate.
Defined.

Example StringDirection_sample :
  StringDirection MoreSamples.direction [32; 1488; 97; 55357; 56832] 0 4
  = RightToLeft /\
  StringDirection MoreSamples.direction [32; 1488; 97; 55357; 56832] 2 4
  = LeftToRight /\
  StringDirection MoreSamples.direction [32; 1488; 97; 55357; 56832] 3 4
  = LayoutDirectionAuto /\
  codePoints [55357; 56832] = [128512].
Proof. repeat split; vm_compute; reflexivity. Qed.

(** ** Emoji-only strings *)

Lemma pushToLast_concat lines item :
  lines <> [] -> concat (pushToLast lines item) = concat lines ++ [item].
Proof.
  intros H. unfold pushToLast.
  rewrite (app_removelast_last [] H) at 3.
  rewrite !concat_app. simpl. rewrite !app_nil_r, app_assoc. reflexivity.
Qed.

Lemma pushToLast_length lines item :
  lines <> [] -> List.length (pushToLast lines item) = List.length lines.
Proof.
  intros H. unfold pushToLast. rewrite length_app. simpl.
  pose proof (f_equal (@List.length _) (app_removelast_last [] H)) as E.
  rewrite length_app in E. simpl in E. lia.
Qed.

Lemma onlyCustomLoop_lines :
  forall bs lines,
    lines <> [] ->
    let result :=
      fold_left
        (fun lines raw =>
           if TextBlockType.eqb (b_type raw) TextBlockType.CustomEmoji then
             pushToLast lines (b_entityData raw)
           else if TextBlockType.eqb (b_type raw) TextBlockType.Newline then
             lines ++ [[]]
           else lines) bs lines in
    concat result
    = concat lines
      ++ map b_entityData (blocksOfType TextBlockType.CustomEmoji bs) /\
    List.length result
    = (List.length lines
       + List.length (blocksOfType TextBlockType.Newline bs))%nat.
Proof.
  unfold blocksOfType.
  induction bs as [|b rest IH]; intros lines Hne.
  - simpl. rewrite app_nil_r. split; [reflexivity | lia].
  - cbn [fold_left filter].
    destruct (b_type b) eqn:Et; cbn [TextBlockType.eqb map List.length].
    + destruct (IH (lines ++ [[]])) as [H1 H2];
        [destruct lines; discriminate|].
      cbv zeta in *. rewrite H1, H2. rewrite concat_app, length_app. simpl.
      rewrite app_nil_r. split; [reflexivity | lia].
    + apply IH. exact Hne.
    + apply IH. exact Hne.
    + destruct (IH (pushToLast lines (b_entityData b))) as [H1 H2].
      { unfold pushToLast. destruct (removelast lines); discriminate. }
      cbv zeta in *. rewrite H1, H2.
      rewrite pushToLast_concat, pushToLast_length by exact Hne.
      rewrite <- app_assoc. split; reflexivity.
    + apply IH. exact Hne.
Qed.

(** X29. For a string flagged as custom emoji only, [toOnlyCustomEmoji]
    lists the entity data of the custom emoji blocks in their order, on
    one line more than there are newline blocks. *)
Theorem toOnlyCustomEmoji_lists_custom_emoji (s : String) (f : EmojiFlags) :
  _isOnlyCustomEmoji f = true ->
  concat (toOnlyCustomEmoji s f)
  = map b_entityData (blocksOfType TextBlockType.CustomEmoji (_blocks s)) /\
  List.length (toOnlyCustomEmoji s f) = S (hardBreaks s).
Proof.
  intros Hflag. unfold toOnlyCustomEmoji, hardBreaks. rewrite Hflag.
  cbn [negb].
  destruct (onlyCustomLoop_lines (_blocks s) [[]]) as [H1 H2];
    [discriminate|].
  cbv zeta in *. rewrite H1, H2. split; reflexivity.
Qed.

Lemma toOnlyCustomEmoji_lists_custom_emoji_witness :
  concat (toOnlyCustomEmoji MoreSamples.threeCustom
            (mkEmojiFlags true false true false))
  = map b_entityData
      (blocksOfType TextBlockType.CustomEmoji (_blocks MoreSamples.threeCustom)) /\
  List.length (toOnlyCustomEmoji MoreSamples.threeCustom
                 (mkEmojiFlags true false true false))
  = S (hardBreaks MoreSamples.threeCustom).
Proof.
  apply (toOnlyCustomEmoji_lists_custom_emoji MoreSamples.threeCustom
           (mkEmojiFlags true false true false)).
  reflexivity.
Defined.

Example threeCustom_lines :
  toOnlyCustomEmoji MoreSamples.threeCustom (mkEmojiFlags true false true false)
  = [[qstr "a"]; [qstr "b"; qstr "c"]].
Proof. reflexivity. Qed.

Lemma isolatedLoop_writes _emoji :
  forall bs written result,
    isolatedLoop _emoji bs written = Some result ->
    (List.length result + List.length (blocksOfType TextBlockType.Skip bs)
     = List.length written + List.length bs)%nat /\
    Forall (fun b => b_linkIndex b = 0) bs.
Proof.
  unfold blocksOfType.
  induction bs as [|b rest IH]; intros written result H.
  - inversion H. subst. simpl. split; [lia | constructor].
  - cbn [isolatedLoop] in H.
    destruct (Z.eqb_spec (b_linkIndex b) 0) as [Hlink|]; [|discriminate].
    cbn [negb] in H. cbn [filter].
    destruct (b_type b) eqn:Et; cbn [TextBlockType.eqb negb] in H;
      try discriminate; apply IH in H; destruct H as [H1 H2];
      cbn [TextBlockType.eqb];
      rewrite ?length_app in H1; simpl in *;
      (split; [lia | constructor; assumption]).
Qed.

Lemma last_skip_counted (bs : list Block) :
  match last (map Some bs) None with
  | Some b => TextBlockType.eqb (b_type b) TextBlockType.Skip
  | None => false
  end = true ->
  (1 <= List.length (blocksOfType TextBlockType.Skip bs))%nat.
Proof.
  unfold blocksOfType.
  induction bs as [|b rest IH]; [discriminate|].
  cbn [map]. rewrite last_cons.
  destruct rest as [|b' rest'].
  - simpl. intros ->. simpl. lia.
  - intros H. cbn [map] in H. rewrite last_cons in H.
    cbn [map] in IH. rewrite last_cons in IH. specialize (IH H).
    change (filter ?f (b :: b' :: rest'))
      with (if f b then b :: filter f (b' :: rest')
            else filter f (b' :: rest')).
    destruct (TextBlockType.eqb (b_type b) TextBlockType.Skip); simpl in *;
      lia.
Qed.

(** X30. [toIsolatedEmoji] never writes more items than the array holds,
    and it gives the empty result for a string with a link. *)
Theorem toIsolatedEmoji_fits_the_array (kIsolatedEmojiLimit : nat)
    (_emoji : Block -> Z) (s : String) (f : EmojiFlags) :
  (List.length (toIsolatedEmoji kIsolatedEmojiLimit _emoji s f)
   <= kIsolatedEmojiLimit)%nat /\
  (toIsolatedEmoji kIsolatedEmojiLimit _emoji s f <> [] ->
   _isIsolatedEmoji f = true /\
   Forall (fun b => b_linkIndex b = 0) (_blocks s)).
Proof.
  unfold toIsolatedEmoji.
  destruct (_isIsolatedEmoji f); cbn [negb];
    [|split; [simpl; lia | intros H; contradiction]].
  destruct (Nat.ltb_spec
              (kIsolatedEmojiLimit + (if hasSkipBlock s then 1 else 0))
              (List.length (_blocks s))) as [Hmany|Hfew]; cbn [orb];
    [split; [simpl; lia | intros H; contradiction]|].
  destruct (hasSpoilers s f);
    [split; [simpl; lia | intros H; contradiction]|].
  destruct (isolatedLoop _emoji (_blocks s) []) as [written|] eqn:E;
    [|split; [simpl; lia | intros H; contradiction]].
  destruct (isolatedLoop_writes _emoji _ _ _ E) as [Hlen Hlinks].
  split; [|intros _; split; [reflexivity | exact Hlinks]].
  simpl in Hlen.
  destruct (hasSkipBlock s) eqn:Eskip; [|lia].
  pose proof (last_skip_counted (_blocks s)) as Hskip.
  unfold hasSkipBlock, back in Eskip. specialize (Hskip Eskip).
  unfold blocksOfType in *. lia.
Qed.
